(** * Copione: the script parser of [app.py] and [app_old.py]

    A shallow embedding of the text-to-blocks parser
    ([_preclean_text], [_is_section_heading], [_clean_stage_dirs_start],
    [parse_script_from_pdf]) together with the part of Python's [str] and
    [re] libraries that the parser calls, of the character selector and the
    play button of the page, and of the loop of [generate_keyboard_tap];
    followed by the properties of the parser that the specification states
    and by further properties of the code. *)

From Stdlib Require Import String Ascii List NArith Bool Arith Lia.
From Stdlib Require Import ZArith.
From Stdlib Require QArith Qround.
Import ListNotations.

Set Implicit Arguments.

(** ** Python strings

    A Python [str] is a sequence of Unicode code points. *)

Definition char := N.
Definition str := list char.

Definition cp (a : ascii) : char := N_of_ascii a.

(** [lit "..."] is the [str] of an ASCII literal of the source. *)
Fixpoint lit (s : string) : str :=
  match s with
  | EmptyString => []
  | String a t => cp a :: lit t
  end.
Arguments lit s%_string.

Definition NL : char := 10%N.       (* '\n' *)
Definition CR : char := 13%N.       (* '\r' *)
Definition LPAR : char := 40%N.     (* '(' *)
Definition RPAR : char := 41%N.     (* ')' *)
Definition STAR : char := 42%N.     (* '*' *)
Definition COLON : char := 58%N.    (* ':' *)
Definition BSLASH : char := 92%N.   (* '\\' *)
Definition USCORE : char := 95%N.   (* '_' *)
Definition SPACE : char := 32%N.    (* ' ' *)

Definition nonempty {A : Type} (l : list A) : bool :=
  match l with [] => false | _ :: _ => true end.

Fixpoint str_eqb (a b : str) : bool :=
  match a, b with
  | [], [] => true
  | x :: a', y :: b' => (x =? y)%N && str_eqb a' b'
  | _, _ => false
  end.

(** [str.isspace] on one character; it is also the class [\s] of [re] on
    [str] patterns. *)
Definition isspace (c : char) : bool :=
  ((9 <=? c) && (c <=? 13) || (28 <=? c) && (c <=? 32) || (c =? 133)
   || (c =? 160) || (c =? 5760) || (8192 <=? c) && (c <=? 8202)
   || (c =? 8232) || (c =? 8233) || (c =? 8239) || (c =? 8287)
   || (c =? 12288))%N.

(** The line boundaries of [str.splitlines]. *)
Definition is_linebreak (c : char) : bool :=
  ((10 <=? c) && (c <=? 13) || (28 <=? c) && (c <=? 30) || (c =? 133)
   || (c =? 8232) || (c =? 8233))%N.

(** [s.strip()] *)
Fixpoint lstrip (s : str) : str :=
  match s with
  | [] => []
  | c :: t => if isspace c then lstrip t else s
  end.

Definition rstrip (s : str) : str := rev (lstrip (rev s)).

Definition strip (s : str) : str := rstrip (lstrip s).

(** [sep.join(l)] *)
Fixpoint join (sep : str) (l : list str) : str :=
  match l with
  | [] => []
  | x :: t =>
      match t with
      | [] => x
      | _ :: _ => x ++ sep ++ join sep t
      end
  end.

(** [s.startswith(p)], [s.endswith(p)] and [p in s] *)
Fixpoint startswith (s p : str) {struct p} : bool :=
  match p, s with
  | [], _ => true
  | _ :: _, [] => false
  | a :: p', b :: s' => (a =? b)%N && startswith s' p'
  end.

Definition endswith (s p : str) : bool := startswith (rev s) (rev p).

Fixpoint str_in (p s : str) : bool :=
  startswith s p || match s with [] => false | _ :: t => str_in p t end.

(** [s.replace(old, new)] for a non-empty [old]: the occurrences of [old],
    found from the left and not overlapping, become [new]. [skip] counts the
    characters of the occurrence under way that are still to pass. *)
Fixpoint replace_go (old new : str) (s : str) (skip : nat) : str :=
  match s with
  | [] => []
  | c :: t =>
      match skip with
      | S n => replace_go old new t n
      | O =>
          if startswith s old
          then new ++ replace_go old new t (length old - 1)
          else c :: replace_go old new t 0
      end
  end.

Definition replace (s old new : str) : str := replace_go old new s 0.

(** [s.splitlines()]: the text is cut at every line boundary, ["\r\n"]
    counts as one, and a boundary at the very end opens no further line.
    [cur] is the line under way and [after_cr] tells that the previous
    character was a carriage return. *)
Fixpoint splitlines_go (cur : str) (after_cr : bool) (s : str) : list str :=
  match s with
  | [] => match cur with [] => [] | _ :: _ => [cur] end
  | c :: t =>
      if after_cr && (c =? NL)%N then splitlines_go cur false t
      else if is_linebreak c then cur :: splitlines_go [] (c =? CR)%N t
      else splitlines_go (cur ++ [c]) false t
  end.

Definition splitlines (s : str) : list str := splitlines_go [] false s.

(** [s.upper()]: every character is replaced by its full uppercase mapping
    of the Unicode Character Database (version 14.0.0, the one of CPython
    3.11).  [upper_runs] lists the characters whose mapping is one character
    as arithmetic runs [(lo, hi, step, image of lo)]; [upper_special] lists
    the characters whose mapping has several characters.  Every other
    character is its own uppercase. *)
Definition upper_runs : list (N * N * N * N) :=
  [
   (97, 122, 1, 65); (181, 181, 1, 924); (224, 246, 1, 192); (248, 254, 1, 216);
   (255, 255, 1, 376); (257, 303, 2, 256); (305, 305, 1, 73); (307, 311, 2, 306);
   (314, 328, 2, 313); (331, 375, 2, 330); (378, 382, 2, 377); (383, 383, 1, 83);
   (384, 384, 1, 579); (387, 389, 2, 386); (392, 392, 1, 391); (396, 396, 1, 395);
   (402, 402, 1, 401); (405, 405, 1, 502); (409, 409, 1, 408); (410, 410, 1, 573);
   (414, 414, 1, 544); (417, 421, 2, 416); (424, 424, 1, 423); (429, 429, 1, 428);
   (432, 432, 1, 431); (436, 438, 2, 435); (441, 441, 1, 440); (445, 445, 1, 444);
   (447, 447, 1, 503); (453, 453, 1, 452); (454, 454, 1, 452); (456, 456, 1, 455);
   (457, 457, 1, 455); (459, 459, 1, 458); (460, 460, 1, 458); (462, 476, 2, 461);
   (477, 477, 1, 398); (479, 495, 2, 478); (498, 498, 1, 497); (499, 499, 1, 497);
   (501, 501, 1, 500); (505, 543, 2, 504); (547, 563, 2, 546); (572, 572, 1, 571);
   (575, 576, 1, 11390); (578, 578, 1, 577); (583, 591, 2, 582); (592, 592, 1, 11375);
   (593, 593, 1, 11373); (594, 594, 1, 11376); (595, 595, 1, 385); (596, 596, 1, 390);
   (598, 599, 1, 393); (601, 601, 1, 399); (603, 603, 1, 400); (604, 604, 1, 42923);
   (608, 608, 1, 403); (609, 609, 1, 42924); (611, 611, 1, 404); (613, 613, 1, 42893);
   (614, 614, 1, 42922); (616, 616, 1, 407); (617, 617, 1, 406); (618, 618, 1, 42926);
   (619, 619, 1, 11362); (620, 620, 1, 42925); (623, 623, 1, 412); (625, 625, 1, 11374);
   (626, 626, 1, 413); (629, 629, 1, 415); (637, 637, 1, 11364); (640, 640, 1, 422);
   (642, 642, 1, 42949); (643, 643, 1, 425); (647, 647, 1, 42929); (648, 648, 1, 430);
   (649, 649, 1, 580); (650, 651, 1, 433); (652, 652, 1, 581); (658, 658, 1, 439);
   (669, 669, 1, 42930); (670, 670, 1, 42928); (837, 837, 1, 921); (881, 883, 2, 880);
   (887, 887, 1, 886); (891, 893, 1, 1021); (940, 940, 1, 902); (941, 943, 1, 904);
   (945, 961, 1, 913); (962, 962, 1, 931); (963, 971, 1, 931); (972, 972, 1, 908);
   (973, 974, 1, 910); (976, 976, 1, 914); (977, 977, 1, 920); (981, 981, 1, 934);
   (982, 982, 1, 928); (983, 983, 1, 975); (985, 1007, 2, 984); (1008, 1008, 1, 922);
   (1009, 1009, 1, 929); (1010, 1010, 1, 1017); (1011, 1011, 1, 895); (1013, 1013, 1, 917);
   (1016, 1016, 1, 1015); (1019, 1019, 1, 1018); (1072, 1103, 1, 1040); (1104, 1119, 1, 1024);
   (1121, 1153, 2, 1120); (1163, 1215, 2, 1162); (1218, 1230, 2, 1217); (1231, 1231, 1, 1216);
   (1233, 1327, 2, 1232); (1377, 1414, 1, 1329); (4304, 4346, 1, 7312); (4349, 4351, 1, 7357);
   (5112, 5117, 1, 5104); (7296, 7296, 1, 1042); (7297, 7297, 1, 1044); (7298, 7298, 1, 1054);
   (7299, 7300, 1, 1057); (7301, 7301, 1, 1058); (7302, 7302, 1, 1066); (7303, 7303, 1, 1122);
   (7304, 7304, 1, 42570); (7545, 7545, 1, 42877); (7549, 7549, 1, 11363);
   (7566, 7566, 1, 42950); (7681, 7829, 2, 7680); (7835, 7835, 1, 7776); (7841, 7935, 2, 7840);
   (7936, 7943, 1, 7944); (7952, 7957, 1, 7960); (7968, 7975, 1, 7976); (7984, 7991, 1, 7992);
   (8000, 8005, 1, 8008); (8017, 8023, 2, 8025); (8032, 8039, 1, 8040); (8048, 8049, 1, 8122);
   (8050, 8053, 1, 8136); (8054, 8055, 1, 8154); (8056, 8057, 1, 8184); (8058, 8059, 1, 8170);
   (8060, 8061, 1, 8186); (8112, 8113, 1, 8120); (8126, 8126, 1, 921); (8144, 8145, 1, 8152);
   (8160, 8161, 1, 8168); (8165, 8165, 1, 8172); (8526, 8526, 1, 8498); (8560, 8575, 1, 8544);
   (8580, 8580, 1, 8579); (9424, 9449, 1, 9398); (11312, 11359, 1, 11264);
   (11361, 11361, 1, 11360); (11365, 11365, 1, 570); (11366, 11366, 1, 574);
   (11368, 11372, 2, 11367); (11379, 11379, 1, 11378); (11382, 11382, 1, 11381);
   (11393, 11491, 2, 11392); (11500, 11502, 2, 11499); (11507, 11507, 1, 11506);
   (11520, 11557, 1, 4256); (11559, 11559, 1, 4295); (11565, 11565, 1, 4301);
   (42561, 42605, 2, 42560); (42625, 42651, 2, 42624); (42787, 42799, 2, 42786);
   (42803, 42863, 2, 42802); (42874, 42876, 2, 42873); (42879, 42887, 2, 42878);
   (42892, 42892, 1, 42891); (42897, 42899, 2, 42896); (42900, 42900, 1, 42948);
   (42903, 42921, 2, 42902); (42933, 42947, 2, 42932); (42952, 42954, 2, 42951);
   (42961, 42961, 1, 42960); (42967, 42969, 2, 42966); (42998, 42998, 1, 42997);
   (43859, 43859, 1, 42931); (43888, 43967, 1, 5024); (65345, 65370, 1, 65313);
   (66600, 66639, 1, 66560); (66776, 66811, 1, 66736); (66967, 67003, 2, 66928);
   (66968, 66976, 2, 66929); (66980, 66992, 2, 66941); (66996, 67000, 2, 66957);
   (67004, 67004, 1, 66965); (68800, 68850, 1, 68736); (71872, 71903, 1, 71840);
   (93792, 93823, 1, 93760); (125218, 125251, 1, 125184)
  ]%N.

Definition upper_special : list (N * list N) :=
  [
   (223, [83; 83]); (329, [700; 78]); (496, [74; 780]); (912, [921; 776; 769]);
   (944, [933; 776; 769]); (1415, [1333; 1362]); (7830, [72; 817]); (7831, [84; 776]);
   (7832, [87; 778]); (7833, [89; 778]); (7834, [65; 702]); (8016, [933; 787]);
   (8018, [933; 787; 768]); (8020, [933; 787; 769]); (8022, [933; 787; 834]);
   (8064, [7944; 921]); (8065, [7945; 921]); (8066, [7946; 921]); (8067, [7947; 921]);
   (8068, [7948; 921]); (8069, [7949; 921]); (8070, [7950; 921]); (8071, [7951; 921]);
   (8072, [7944; 921]); (8073, [7945; 921]); (8074, [7946; 921]); (8075, [7947; 921]);
   (8076, [7948; 921]); (8077, [7949; 921]); (8078, [7950; 921]); (8079, [7951; 921]);
   (8080, [7976; 921]); (8081, [7977; 921]); (8082, [7978; 921]); (8083, [7979; 921]);
   (8084, [7980; 921]); (8085, [7981; 921]); (8086, [7982; 921]); (8087, [7983; 921]);
   (8088, [7976; 921]); (8089, [7977; 921]); (8090, [7978; 921]); (8091, [7979; 921]);
   (8092, [7980; 921]); (8093, [7981; 921]); (8094, [7982; 921]); (8095, [7983; 921]);
   (8096, [8040; 921]); (8097, [8041; 921]); (8098, [8042; 921]); (8099, [8043; 921]);
   (8100, [8044; 921]); (8101, [8045; 921]); (8102, [8046; 921]); (8103, [8047; 921]);
   (8104, [8040; 921]); (8105, [8041; 921]); (8106, [8042; 921]); (8107, [8043; 921]);
   (8108, [8044; 921]); (8109, [8045; 921]); (8110, [8046; 921]); (8111, [8047; 921]);
   (8114, [8122; 921]); (8115, [913; 921]); (8116, [902; 921]); (8118, [913; 834]);
   (8119, [913; 834; 921]); (8124, [913; 921]); (8130, [8138; 921]); (8131, [919; 921]);
   (8132, [905; 921]); (8134, [919; 834]); (8135, [919; 834; 921]); (8140, [919; 921]);
   (8146, [921; 776; 768]); (8147, [921; 776; 769]); (8150, [921; 834]); (8151, [921; 776; 834]);
   (8162, [933; 776; 768]); (8163, [933; 776; 769]); (8164, [929; 787]); (8166, [933; 834]);
   (8167, [933; 776; 834]); (8178, [8186; 921]); (8179, [937; 921]); (8180, [911; 921]);
   (8182, [937; 834]); (8183, [937; 834; 921]); (8188, [937; 921]); (64256, [70; 70]);
   (64257, [70; 73]); (64258, [70; 76]); (64259, [70; 70; 73]); (64260, [70; 70; 76]);
   (64261, [83; 84]); (64262, [83; 84]); (64275, [1348; 1350]); (64276, [1348; 1333]);
   (64277, [1348; 1339]); (64278, [1358; 1350]); (64279, [1348; 1341])
  ]%N.

Fixpoint upper_run (l : list (N * N * N * N)) (c : char) : option char :=
  match l with
  | [] => None
  | (lo, hi, step, img) :: l' =>
      if ((lo <=? c) && (c <=? hi) && ((c - lo) mod step =? 0))%N
      then Some (img + (c - lo))%N
      else upper_run l' c
  end.

Fixpoint upper_spec (l : list (N * list N)) (c : char) : option str :=
  match l with
  | [] => None
  | (k, u) :: l' => if (k =? c)%N then Some u else upper_spec l' c
  end.

Definition upper_char (c : char) : str :=
  match upper_run upper_runs c with
  | Some u => [u]
  | None =>
      match upper_spec upper_special c with
      | Some u => u
      | None => [c]
      end
  end.

Definition upper (s : str) : str := flat_map upper_char s.

(** ** Python's [re]: a backtracking matcher

    The patterns of the program use literals, character classes, [.], [^],
    [$], concatenation, alternation, greedy repetition and named groups. *)

Inductive cset : Type :=
| CChr (c : char)            (* one character *)
| CRng (lo hi : char)        (* a range [lo-hi] *)
| CSpace.                    (* \s *)

Inductive re : Type :=
| Lit (c : char)                              (* a literal character *)
| Cls (neg : bool) (items : list cset)        (* [...] and [^...] *)
| Dot                                         (* . *)
| Bol                                         (* ^ *)
| Eol                                         (* $ *)
| Seq (r1 r2 : re)                            (* r1 r2 *)
| Alt (r1 r2 : re)                            (* r1|r2 *)
| Rep (lo : nat) (hi : option nat) (r : re)   (* r{lo,hi}, greedy *)
| Grp (name : string) (r : re).               (* (?P<name>r) *)

Arguments CChr c%_N.
Arguments CRng (lo hi)%_N.
Arguments Lit c%_N.

Declare Scope re_scope.
Delimit Scope re_scope with re.
Bind Scope re_scope with re.
Infix "$$" := Seq (at level 60, right associativity) : re_scope.

Definition Star (r : re) : re := Rep 0 None r.              (* r* *)
Definition Plus (r : re) : re := Rep 1 None r.              (* r+ *)
Definition Opt (r : re) : re := Rep 0 (Some 1) r.           (* r? *)
Definition Ws : re := Cls false [CSpace].                   (* \s *)

Definition in_citem (i : cset) (c : char) : bool :=
  match i with
  | CChr x => (x =? c)%N
  | CRng lo hi => ((lo <=? c) && (c <=? hi))%N
  | CSpace => isspace c
  end.

Definition in_cls (neg : bool) (items : list cset) (c : char) : bool :=
  xorb neg (existsb (fun i => in_citem i c) items).

(** The groups captured so far, the latest first. *)
Definition caps := list (string * str).

(** A continuation receives the character before the position reached, the
    rest of the text from that position and the groups. *)
Definition cont (A : Type) := option char -> str -> caps -> option A.

Definition or_else {A : Type} (x y : option A) : option A :=
  match x with Some _ => x | None => y end.

Definition at_bol (multiline : bool) (prev : option char) : bool :=
  match prev with
  | None => true
  | Some c => multiline && (c =? NL)%N
  end.

Definition at_eol (multiline : bool) (s : str) : bool :=
  match s with
  | [] => true
  | c :: t => (c =? NL)%N && (multiline || negb (nonempty t))
  end.

Definition one {A : Type} (p : char -> bool) (s : str) (cs : caps)
    (k : cont A) : option A :=
  match s with
  | [] => None
  | c :: t => if p c then k (Some c) t cs else None
  end.

Definition below (n : nat) (hi : option nat) : bool :=
  match hi with
  | None => true
  | Some h => n <? h
  end.

(** Greedy repetition of [body]: after [n] iterations one more is tried
    first (when the upper bound allows it), and the rest of the pattern [k]
    is tried when that fails and at least [lo] iterations were made.  Every
    repeated sub-pattern of the program consumes at least one character, so
    an iteration has to advance and [fuel], the length of the text left when
    the repetition starts, is never exhausted. *)
Fixpoint rep_loop {A : Type}
    (body : option char -> str -> caps -> cont A -> option A)
    (lo : nat) (hi : option nat) (k : cont A)
    (fuel n : nat) (prev : option char) (s : str) (cs : caps) : option A :=
  let stop := if lo <=? n then k prev s cs else None in
  match fuel with
  | O => stop
  | S fuel' =>
      if below n hi
      then or_else
             (body prev s cs
                (fun p' s' cs' =>
                   if length s' <? length s
                   then rep_loop body lo hi k fuel' (S n) p' s' cs'
                   else None))
             stop
      else stop
  end.

(** [exec multiline r prev s cs k] matches [r] at the start of [s], the
    character before being [prev] ([None] at the start of the text), and
    hands the rest to [k]; when [k] fails the next way of matching [r] is
    tried, in the order of a backtracking matcher. *)
Fixpoint exec {A : Type} (multiline : bool) (r : re) (prev : option char)
    (s : str) (cs : caps) (k : cont A) {struct r} : option A :=
  match r with
  | Lit c => one (N.eqb c) s cs k
  | Cls neg items => one (in_cls neg items) s cs k
  | Dot => one (fun c => negb (c =? NL)%N) s cs k
  | Bol => if at_bol multiline prev then k prev s cs else None
  | Eol => if at_eol multiline s then k prev s cs else None
  | Seq r1 r2 =>
      exec multiline r1 prev s cs
        (fun p' s' cs' => exec multiline r2 p' s' cs' k)
  | Alt r1 r2 =>
      or_else (exec multiline r1 prev s cs k) (exec multiline r2 prev s cs k)
  | Rep lo hi r1 =>
      rep_loop (exec multiline r1) lo hi k (length s) 0 prev s cs
  | Grp name r1 =>
      exec multiline r1 prev s cs
        (fun p' s' cs' =>
           k p' s' ((name, firstn (length s - length s') s) :: cs'))
  end.

(** [pattern.match(s)]: a match at the start of [s], as its groups. *)
Definition re_match (multiline : bool) (r : re) (s : str) : option caps :=
  exec multiline r None s [] (fun _ _ cs => Some cs).

(** [m.group(name)] *)
Fixpoint group (cs : caps) (name : string) : str :=
  match cs with
  | [] => []
  | (n, v) :: cs' => if String.eqb n name then v else group cs' name
  end.

(** The length of the match of [r] at the start of [s], if there is one. *)
Definition match_len (multiline : bool) (r : re) (prev : option char)
    (s : str) : option nat :=
  exec multiline r prev s [] (fun _ s' _ => Some (length s - length s')).

(** [re.sub(r, repl, s)] for a replacement without escapes: the text is
    scanned from the left; where [r] matches, [repl] is written and the scan
    resumes after the match; elsewhere the character is copied.  [skip]
    counts the characters of the match under way that are still to pass.
    After an empty match the character at that position is copied (no
    pattern of the program can match the empty string). *)
Fixpoint sub_go (multiline : bool) (r : re) (repl : str)
    (prev : option char) (s : str) (skip : nat) : str :=
  match s with
  | [] =>
      match skip with
      | S _ => []
      | O =>
          match match_len multiline r prev [] with
          | Some _ => repl
          | None => []
          end
      end
  | c :: t =>
      match skip with
      | S n => sub_go multiline r repl (Some c) t n
      | O =>
          match match_len multiline r prev s with
          | Some O => repl ++ c :: sub_go multiline r repl (Some c) t 0
          | Some (S n) => repl ++ sub_go multiline r repl (Some c) t n
          | None => c :: sub_go multiline r repl (Some c) t 0
          end
      end
  end.

Definition re_sub (multiline : bool) (r : re) (repl s : str) : str :=
  sub_go multiline r repl None s 0.

Arguments Grp name%_string r%_re.
Arguments group cs name%_string.

(** ** Blocks and the state of the segmenter *)

(** A block is the dictionary [{"character": ..., "text": ...}]. *)
Record block : Type := Block { character : str; text : str }.

(** The variables that [flush] and the line loop share: the list [blocks]
    built so far and the open accumulator. *)
Record pstate : Type := PState {
  blocks : list block;
  current_name : option str;
  current_lines : list str
}.

(** Python's truth value of [current_name], which is [None] or a [str]. *)
Definition truthy (n : option str) : bool :=
  match n with
  | Some s => nonempty s
  | None => false
  end.

Definition name_of (n : option str) : str :=
  match n with
  | Some s => s
  | None => []
  end.

(** [blocks.append(b)] *)
Definition emit (st : pstate) (b : block) : pstate :=
  PState (blocks st ++ [b]) (current_name st) (current_lines st).

(** [current_lines.append(l)] *)
Definition append_line (st : pstate) (l : str) : pstate :=
  PState (blocks st) (current_name st) (current_lines st ++ [l]).

(** [p.extract_text() or ''] *)
Definition page_text (t : option str) : str :=
  match t with
  | Some s => s
  | None => []
  end.

Definition SCENA : str := lit "SCENA".

(** ** The parser of [app.py] *)

Module App.

(** The pattern "\*{1,3}". *)
Definition stars_pat : re := Rep 1 (Some 3) (Lit STAR).
(** The pattern "^_+\s*", used with [re.MULTILINE]. *)
Definition lead_underscores_pat : re := (Bol $$ Plus (Lit USCORE) $$ Star Ws)%re.
(** The pattern "\s*_+$", used with [re.MULTILINE]. *)
Definition trail_underscores_pat : re := (Star Ws $$ Plus (Lit USCORE) $$ Eol)%re.
(** The pattern "\s*:\s*". *)
Definition colon_pat : re := (Star Ws $$ Lit COLON $$ Star Ws)%re.
(** The pattern "[\t\x0b\x0c\u00A0]+". *)
Definition blanks_pat : re := Plus (Cls false [CChr 9; CChr 11; CChr 12; CChr 160]).

Definition _preclean_text (text : str) : str :=
  let text := replace text [CR] [] in
  let text := re_sub false stars_pat [] text in
  let text := re_sub true lead_underscores_pat [] text in
  let text := re_sub true trail_underscores_pat [] text in
  let text := replace (replace text [BSLASH; LPAR] [LPAR]) [BSLASH; RPAR] [RPAR] in
  let text := re_sub false colon_pat (lit ": ") text in
  let text := re_sub false blanks_pat (lit " ") text in
  text.

Definition _is_section_heading (line : str) : bool :=
  let u := upper line in
  startswith u (lit "SCENA ") || str_in (lit "PERSONAGGI") u
  || str_in (lit "ANTIPASTO") u || str_in (lit "PRIMI") u
  || str_in (lit "DOLCI") u || str_in (lit "CAFF") u.

(** The pattern "^\((?:[^()]|\([^)]*\))*\)\s*". *)
Definition stage_dir_pat : re :=
  (Bol $$ Lit LPAR
   $$ Star (Alt (Cls true [CChr LPAR; CChr RPAR])
                (Lit LPAR $$ Star (Cls true [CChr RPAR]) $$ Lit RPAR))
   $$ Lit RPAR $$ Star Ws)%re.

Definition _clean_stage_dirs_start (s : str) : str :=
  let s := re_sub false stage_dir_pat [] s in
  strip s.

(** The pattern
    "^(?P<who>[A-ZÀ-ÖØ-Þ][A-Za-zÀ-ÖØ-öø-ÿ’' .\-]*(?:\([^)]*\))?)\s*:\s*(?P<what>.* )$"
    (the last group is written here with a space after its star):
    À-Ö is 192-214, Ø-Þ is 216-222, Ø-ö is 216-246, ø-ÿ is 248-255 and
    the apostrophe ’ is 8217. *)
Definition speaker_pat : re :=
  (Bol
   $$ Grp "who"
        (Cls false [CRng 65 90; CRng 192 214; CRng 216 222]
         $$ Star (Cls false [CRng 65 90; CRng 97 122; CRng 192 214;
                             CRng 216 246; CRng 248 255; CChr 8217;
                             CChr 39; CChr 32; CChr 46; CChr 45])
         $$ Opt (Lit LPAR $$ Star (Cls true [CChr RPAR]) $$ Lit RPAR))
   $$ Star Ws $$ Lit COLON $$ Star Ws
   $$ Grp "what" (Star Dot)
   $$ Eol)%re.

(** The pattern "\s*\([^)]*\)\s*". *)
Definition who_paren_pat : re :=
  (Star Ws $$ Lit LPAR $$ Star (Cls true [CChr RPAR]) $$ Lit RPAR $$ Star Ws)%re.
(** The pattern "\s{2,}". *)
Definition spaces_pat : re := Rep 2 None Ws.

Definition init : pstate := PState [] None [].

Definition flush (st : pstate) : pstate :=
  let blocks' :=
    if truthy (current_name st) && nonempty (current_lines st) then
      let joined := strip (join [NL] (current_lines st)) in
      if nonempty joined
      then blocks st ++ [Block (name_of (current_name st)) joined]
      else blocks st
    else blocks st in
  PState blocks' None [].

(** The body of [for raw_line in text.splitlines()]. *)
Definition loop_body (st : pstate) (raw_line : str) : pstate :=
  let line := strip raw_line in
  if negb (nonempty line) then
    if truthy (current_name st) && nonempty (current_lines st)
       && negb (str_eqb (last (current_lines st) []) [])
    then append_line st []
    else st
  else if _is_section_heading line then
    emit (flush st) (Block SCENA line)
  else
    match re_match false speaker_pat line with
    | Some m =>
        let st := flush st in
        let who := strip (re_sub false who_paren_pat [] (group m "who")) in
        let who := re_sub false spaces_pat (lit " ") who in
        let what := _clean_stage_dirs_start (group m "what") in
        PState (blocks st) (Some who) (if nonempty what then [what] else [])
    | None =>
        if startswith line (lit "(") && endswith line (lit ")") then
          emit (flush st) (Block SCENA line)
        else if truthy (current_name st) then
          let line2 := _clean_stage_dirs_start line in
          if nonempty line2 then append_line st line2 else st
        else
          emit st (Block SCENA line)
    end.

(** The body of [for b in blocks]: [compact[-1]] is the last block of
    [compact]; the merge rewrites its text in place. *)
Definition compact_step (compact : list block) (b : block) : list block :=
  match rev compact with
  | l :: before =>
      if str_eqb (character b) SCENA && str_eqb (character l) SCENA
      then rev before ++ [Block (character l) (strip (text l ++ [NL] ++ text b))]
      else compact ++ [b]
  | [] => compact ++ [b]
  end.

Definition compaction (blocks : list block) : list block :=
  fold_left compact_step blocks [].

Definition segment (text : str) : list block :=
  blocks (flush (fold_left loop_body (splitlines text) init)).

(** [extracted] is what [extract_text] returned for each page, in order. *)
Definition parse_script_from_pdf (extracted : list (option str)) : list block :=
  let pages := map page_text extracted in
  let text := _preclean_text (join [NL] pages) in
  compaction (segment text).

End App.

(** ** The parser of [app_old.py]

    The older application carries its own copy of the parser. *)

Module AppOld.

(** The pattern "\*{1,3}". *)
Definition stars_pat : re := Rep 1 (Some 3) (Lit STAR).
(** The pattern "^_+\s*", used with [re.MULTILINE]. *)
Definition lead_underscores_pat : re := (Bol $$ Plus (Lit USCORE) $$ Star Ws)%re.
(** The pattern "\s*_+$", used with [re.MULTILINE]. *)
Definition trail_underscores_pat : re := (Star Ws $$ Plus (Lit USCORE) $$ Eol)%re.
(** The pattern "\s*:\s*". *)
Definition colon_pat : re := (Star Ws $$ Lit COLON $$ Star Ws)%re.
(** The pattern "[\t\x0b\x0c\u00A0]+". *)
Definition blanks_pat : re := Plus (Cls false [CChr 9; CChr 11; CChr 12; CChr 160]).

Definition _preclean_text (text : str) : str :=
  let text := replace text [CR] [] in
  let text := re_sub false stars_pat [] text in
  let text := re_sub true lead_underscores_pat [] text in
  let text := re_sub true trail_underscores_pat [] text in
  let text := replace (replace text [BSLASH; LPAR] [LPAR]) [BSLASH; RPAR] [RPAR] in
  let text := re_sub false colon_pat (lit ": ") text in
  let text := re_sub false blanks_pat (lit " ") text in
  text.

Definition _is_section_heading (line : str) : bool :=
  let u := upper line in
  startswith u (lit "SCENA ") || str_in (lit "PERSONAGGI") u
  || str_in (lit "ANTIPASTO") u || str_in (lit "PRIMI") u
  || str_in (lit "DOLCI") u || str_in (lit "CAFF") u.

(** The pattern "^\((?:[^()]|\([^)]*\))*\)\s*". *)
Definition stage_dir_pat : re :=
  (Bol $$ Lit LPAR
   $$ Star (Alt (Cls true [CChr LPAR; CChr RPAR])
                (Lit LPAR $$ Star (Cls true [CChr RPAR]) $$ Lit RPAR))
   $$ Lit RPAR $$ Star Ws)%re.

Definition _clean_stage_dirs_start (s : str) : str :=
  let s := re_sub false stage_dir_pat [] s in
  strip s.

(** The pattern
    "^(?P<who>[A-ZÀ-ÖØ-Þ][A-Za-zÀ-ÖØ-öø-ÿ’' .\-]*(?:\([^)]*\))?)\s*:\s*(?P<what>.* )$"
    (the last group is written here with a space after its star):
    À-Ö is 192-214, Ø-Þ is 216-222, Ø-ö is 216-246, ø-ÿ is 248-255 and
    the apostrophe ’ is 8217. *)
Definition speaker_pat : re :=
  (Bol
   $$ Grp "who"
        (Cls false [CRng 65 90; CRng 192 214; CRng 216 222]
         $$ Star (Cls false [CRng 65 90; CRng 97 122; CRng 192 214;
                             CRng 216 246; CRng 248 255; CChr 8217;
                             CChr 39; CChr 32; CChr 46; CChr 45])
         $$ Opt (Lit LPAR $$ Star (Cls true [CChr RPAR]) $$ Lit RPAR))
   $$ Star Ws $$ Lit COLON $$ Star Ws
   $$ Grp "what" (Star Dot)
   $$ Eol)%re.

(** The pattern "\s*\([^)]*\)\s*". *)
Definition who_paren_pat : re :=
  (Star Ws $$ Lit LPAR $$ Star (Cls true [CChr RPAR]) $$ Lit RPAR $$ Star Ws)%re.
(** The pattern "\s{2,}". *)
Definition spaces_pat : re := Rep 2 None Ws.

Definition init : pstate := PState [] None [].

Definition flush (st : pstate) : pstate :=
  let blocks' :=
    if truthy (current_name st) && nonempty (current_lines st) then
      let joined := strip (join [NL] (current_lines st)) in
      if nonempty joined
      then blocks st ++ [Block (name_of (current_name st)) joined]
      else blocks st
    else blocks st in
  PState blocks' None [].

(** The body of [for raw_line in text.splitlines()]. *)
Definition loop_body (st : pstate) (raw_line : str) : pstate :=
  let line := strip raw_line in
  if negb (nonempty line) then
    if truthy (current_name st) && nonempty (current_lines st)
       && negb (str_eqb (last (current_lines st) []) [])
    then append_line st []
    else st
  else if _is_section_heading line then
    emit (flush st) (Block SCENA line)
  else
    match re_match false speaker_pat line with
    | Some m =>
        let st := flush st in
        let who := strip (re_sub false who_paren_pat [] (group m "who")) in
        let who := re_sub false spaces_pat (lit " ") who in
        let what := _clean_stage_dirs_start (group m "what") in
        PState (blocks st) (Some who) (if nonempty what then [what] else [])
    | None =>
        if startswith line (lit "(") && endswith line (lit ")") then
          emit (flush st) (Block SCENA line)
        else if truthy (current_name st) then
          let line2 := _clean_stage_dirs_start line in
          if nonempty line2 then append_line st line2 else st
        else
          emit st (Block SCENA line)
    end.

(** The body of [for b in blocks]: [compact[-1]] is the last block of
    [compact]; the merge rewrites its text in place. *)
Definition compact_step (compact : list block) (b : block) : list block :=
  match rev compact with
  | l :: before =>
      if str_eqb (character b) SCENA && str_eqb (character l) SCENA
      then rev before ++ [Block (character l) (strip (text l ++ [NL] ++ text b))]
      else compact ++ [b]
  | [] => compact ++ [b]
  end.

Definition compaction (blocks : list block) : list block :=
  fold_left compact_step blocks [].

Definition segment (text : str) : list block :=
  blocks (flush (fold_left loop_body (splitlines text) init)).

(** [extracted] is what [extract_text] returned for each page, in order. *)
Definition parse_script_from_pdf (extracted : list (option str)) : list block :=
  let pages := map page_text extracted in
  let text := _preclean_text (join [NL] pages) in
  compaction (segment text).

End AppOld.

(** ** The page of [app.py]: the character selector and the play button *)

Module Page.

(** [a <= b] on [str]: the order of the code points, a proper prefix
    first. *)
Fixpoint str_leb (a b : str) : bool :=
  match a, b with
  | [], _ => true
  | _ :: _, [] => false
  | x :: a', y :: b' => (x <? y)%N || ((x =? y)%N && str_leb a' b')
  end.

(** [dict.fromkeys(l)], as its keys in the order of insertion: a key that
    the dictionary has already is not inserted again. *)
Definition add_key (d : list str) (k : str) : list str :=
  if existsb (str_eqb k) d then d else d ++ [k].

Definition fromkeys (l : list str) : list str := fold_left add_key l [].

(** [sorted(l)]: a stable sort, here by insertion. *)
Fixpoint insert (x : str) (l : list str) : list str :=
  match l with
  | [] => [x]
  | y :: t => if str_leb x y then x :: l else y :: insert x t
  end.

Definition sorted (l : list str) : list str := fold_right insert [] l.

(** [[b['character'] for b in blocks
      if b['character'].strip().upper() != 'SCENA']] *)
Definition chars (blocks : list block) : list str :=
  map character
    (filter (fun b => negb (str_eqb (upper (strip (character b))) SCENA)) blocks).

Definition uniq (blocks : list block) : list str := sorted (fromkeys (chars blocks)).

(** The set [selected_chars], as the list of its elements:
    [name in s], [s.add(name)] and [s.remove(name)]. *)
Definition mem (name : str) (s : list str) : bool := existsb (str_eqb name) s.

Definition set_add (name : str) (s : list str) : list str :=
  if mem name s then s else name :: s.

Definition set_remove (name : str) (s : list str) : list str :=
  filter (fun y => negb (str_eqb y name)) s.

(** One round of the loop over the check boxes: [val] is what
    [st.checkbox] returns, the state is [selected_chars] with
    [any_changed]. *)
Definition select_step (val : bool) (name : str) (st : list str * bool)
    : list str * bool :=
  let st :=
    if val && negb (mem name (fst st))
    then (set_add name (fst st), true) else st in
  let st :=
    if negb val && mem name (fst st)
    then (set_remove name (fst st), true) else st in
  st.

(** [for idx, name in enumerate(uniq)], from [idx] on; [checkbox idx] is
    what the check box of key [sel_idx] returns. *)
Fixpoint select_loop (checkbox : nat -> bool) (idx : nat) (names : list str)
    (st : list str * bool) : list str * bool :=
  match names with
  | [] => st
  | name :: rest =>
      select_loop checkbox (S idx) rest (select_step (checkbox idx) name st)
  end.

Definition APOS : char := 39%N.     (* the apostrophe *)

(** [text.replace("'", "\\'").replace("\n", " ")], the text as it is
    written between apostrophes into the script of the play button. *)
Definition escaped (text : str) : str :=
  replace (replace text [APOS] [BSLASH; APOS]) [NL] [SPACE].

End Page.

(** ** The keyboard sound

    [generate_keyboard_tap] lays clicks over a silent track.  The track is
    taken here as the positions, in milliseconds, at which a click is laid,
    and the random generator as the sequence [draws] of the results of
    [rng.normal(avg_interval_ms, jitter_ms)], each float being the rational
    number it denotes.  The [while] loop runs on [fuel]. *)

Module Tap.

(** [int(max(floor_ms, r))] *)
Definition delta (floor_ms : Z) (r : QArith_base.Q) : Z :=
  if QArith_base.Qle_bool r (QArith_base.inject_Z floor_ms)
  then floor_ms
  else Qround.Qfloor r.

Fixpoint tap_loop (floor_ms duration_ms : Z) (draws : nat -> QArith_base.Q)
    (fuel i : nat) (t : Z) (track : list Z) : option (list Z) :=
  match fuel with
  | O => None
  | S fuel' =>
      if (t <? duration_ms)%Z then
        let t := (t + delta floor_ms (draws i))%Z in
        if (t >=? duration_ms)%Z then Some track
        else tap_loop floor_ms duration_ms draws fuel' (S i) t (track ++ [t])
      else Some track
  end.

(** The function of [app.py], whose shortest interval is 60 ms. *)
Definition generate_keyboard_tap (duration_ms : Z) (draws : nat -> QArith_base.Q)
    (fuel : nat) : option (list Z) :=
  tap_loop 60 duration_ms draws fuel 0 0 [].

(** The function of [app_old.py], whose shortest interval is 40 ms. *)
Definition generate_keyboard_tap_old (duration_ms : Z) (draws : nat -> QArith_base.Q)
    (fuel : nat) : option (list Z) :=
  tap_loop 40 duration_ms draws fuel 0 0 [].

End Tap.

(** ** Vocabulary of the specification *)

(** A text has ink when one of its characters is not whitespace. *)
Definition has_ink (s : str) : bool := existsb (fun c => negb (isspace c)) s.

Definition is_scena (b : block) : bool := str_eqb (character b) SCENA.

(** The number of newline characters of a text. *)
Definition count_nl (s : str) : nat := count_occ N.eq_dec s NL.

(** [p] occurs in [s] as a substring. *)
Definition substring (p s : str) : Prop := exists a b, s = a ++ p ++ b.

Definition prefix (p s : str) : Prop := exists b, s = p ++ b.

(** The words that a pattern can match, whatever stands around them: the
    anchors are taken as the empty word and the upper bound of a repetition
    is left out, so [den r] holds of every match of [r]. *)
Fixpoint den (r : re) (w : str) : Prop :=
  match r with
  | Lit c => w = [c]
  | Cls neg items => exists c, w = [c] /\ in_cls neg items c = true
  | Dot => exists c, w = [c] /\ c <> NL
  | Bol => w = []
  | Eol => w = []
  | Seq r1 r2 => exists w1 w2, w = w1 ++ w2 /\ den r1 w1 /\ den r2 w2
  | Alt r1 r2 => den r1 w \/ den r2 w
  | Rep lo hi r1 =>
      exists ws, w = concat ws /\ Forall (den r1) ws /\ lo <= length ws
  | Grp _ r1 => den r1 w
  end.

(** Whatever [body] hands to its continuation is what is left of the text
    after a word of [L]. *)
Definition sound_body {A : Type}
    (body : option char -> str -> caps -> cont A -> option A)
    (L : str -> Prop) : Prop :=
  forall prev s cs k x, body prev s cs k = Some x ->
    exists w p' s' cs', s = w ++ s' /\ L w /\ k p' s' cs' = Some x.

(** A piece of the inside of a stage direction: one character that is no
    parenthesis, or a parenthetical with no closing parenthesis inside. *)
Inductive dir_item : str -> Prop :=
| dir_char (c : char) : c <> LPAR -> c <> RPAR -> dir_item [c]
| dir_nested (v : str) : ~ In RPAR v -> dir_item (LPAR :: v ++ [RPAR]).

(** A block whose text has ink. *)
Definition inked (b : block) : Prop := has_ink (text b) = true.

(** No two neighbours of the sequence are both sentinel blocks. *)
Definition no_adjacent_scena (l : list block) : Prop :=
  forall l1 a b l2, l = l1 ++ a :: b :: l2 ->
    ~ (character a = SCENA /\ character b = SCENA).

(** The same, read from the last block backwards. *)
Fixpoint ok_rev (r : list block) : Prop :=
  match r with
  | x :: t =>
      match t with
      | y :: _ => ~ (is_scena x = true /\ is_scena y = true) /\ ok_rev t
      | [] => True
      end
  | [] => True
  end.

(** The blocks of a sequence that are attributed dialogue. *)
Definition dialogue (bs : list block) : list block :=
  filter (fun b => negb (is_scena b)) bs.

(** A text that neither starts nor ends with whitespace. *)
Definition head_inked (s : str) : Prop :=
  match s with [] => True | c :: _ => isspace c = false end.

(** As [den], with the upper bounds of the repetitions. *)
Fixpoint denb (r : re) (w : str) : Prop :=
  match r with
  | Lit c => w = [c]
  | Cls neg items => exists c, w = [c] /\ in_cls neg items c = true
  | Dot => exists c, w = [c] /\ c <> NL
  | Bol => w = []
  | Eol => w = []
  | Seq r1 r2 => exists w1 w2, w = w1 ++ w2 /\ denb r1 w1 /\ denb r2 w2
  | Alt r1 r2 => denb r1 w \/ denb r2 w
  | Rep lo hi r1 =>
      exists ws, w = concat ws /\ Forall (denb r1) ws /\ lo <= length ws
                 /\ (forall h, hi = Some h -> length ws <= h)
  | Grp _ r1 => denb r1 w
  end.

(** The words that the group [n] of a pattern can capture. *)
Fixpoint grp_den (r : re) (n : string) (v : str) : Prop :=
  match r with
  | Grp m r1 => (m = n /\ denb r1 v) \/ grp_den r1 n v
  | Seq r1 r2 | Alt r1 r2 => grp_den r1 n v \/ grp_den r2 n v
  | Rep _ _ r1 => grp_den r1 n v
  | _ => False
  end.

(** The groups [cs'] are those of [cs] and captures, inside the word [w],
    that [G] allows. *)
Definition caps_from (G : string -> str -> Prop) (w : str) (cs cs' : caps) : Prop :=
  forall n v, In (n, v) cs' -> In (n, v) cs \/ (G n v /\ substring v w).

(** As [sound_body], with the groups that the body adds. *)
Definition sound_caps {A : Type}
    (body : option char -> str -> caps -> cont A -> option A)
    (L : str -> Prop) (G : string -> str -> Prop) : Prop :=
  forall prev s cs k x, body prev s cs k = Some x ->
    exists w p' s' cs',
      s = w ++ s' /\ L w /\ caps_from G w cs cs' /\ k p' s' cs' = Some x.

(** The characters that the speaker pattern admits in a name, and those it
    admits as the first one. *)
Definition name_char (c : char) : bool :=
  in_cls false [CRng 65 90; CRng 97 122; CRng 192 214; CRng 216 246;
                CRng 248 255; CChr 8217; CChr 39; CChr 32; CChr 46; CChr 45] c.

Definition name_initial (c : char) : bool :=
  in_cls false [CRng 65 90; CRng 192 214; CRng 216 222] c.

(** A name that begins with an initial and holds name characters only. *)
Definition well_named (w : str) : Prop :=
  (exists c t, w = c :: t /\ name_initial c = true)
  /\ Forall (fun c => name_char c = true) w.

(** What the line loop keeps: a property of the blocks built so far and a
    property of the open accumulator. *)
Definition line_inv (P : block -> Prop) (Acc : option str -> list str -> Prop)
    (st : pstate) : Prop :=
  Forall P (blocks st) /\ Acc (current_name st) (current_lines st).

(** A text without two blank lines in a row. *)
Definition no_blank_run (s : str) : Prop := ~ substring [NL; NL; NL] s.

(** No two neighbours of a list of lines are both empty. *)
Fixpoint spaced (ls : list str) : Prop :=
  match ls with
  | x :: t =>
      match t with
      | y :: _ => (x = [] -> y <> []) /\ spaced t
      | [] => True
      end
  | [] => True
  end.

(** The blocks built so far, counting the open accumulator as one when it
    has a name. *)
Definition pending (st : pstate) : nat :=
  length (blocks st) + (if truthy (current_name st) then 1 else 0).

(** A text with ink at both ends. *)
Definition trimmed (s : str) : Prop :=
  has_ink s = true /\ head_inked s /\ head_inked (rev s).

(** The block [x] is found in the sequence [bs]: a block of [bs] has its
    character and holds its text. *)
Definition covered (x : block) (bs : list block) : Prop :=
  exists b, In b bs /\ character b = character x /\ substring (text x) (text b).

(** The speech [what] of [who] is in the state: in a block built so far, or
    at the head of the open accumulator. *)
Definition holds_speech (who what : str) (st : pstate) : Prop :=
  (exists b, In b (blocks st) /\ character b = who /\ prefix what (text b))
  \/ (current_name st = Some who /\ exists more, current_lines st = what :: more).

(** Every colon of the text is followed by a space. *)
Fixpoint colon_spaced (s : str) : Prop :=
  match s with
  | [] => True
  | c :: t => (c = COLON -> exists t', t = SPACE :: t') /\ colon_spaced t
  end.

(** A list of names in strictly ascending order. *)
Fixpoint ascending (l : list str) : Prop :=
  match l with
  | x :: t =>
      match t with
      | y :: _ => (Page.str_leb x y = true /\ x <> y) /\ ascending t
      | [] => True
      end
  | [] => True
  end.

(** Every apostrophe of the text has a backslash before it; [prev] is the
    character before the text. *)
Fixpoint apos_guarded (prev : option char) (s : str) : Prop :=
  match s with
  | [] => True
  | c :: t => (c = Page.APOS -> prev = Some BSLASH) /\ apos_guarded (Some c) t
  end.

(** Positions that lie at least [gap] after [prev] and after each other. *)
Fixpoint apart (gap prev : Z) (l : list Z) : Prop :=
  match l with
  | [] => True
  | c :: t => (prev + gap <= c)%Z /\ apart gap c t
  end.


(** The letters a-z in upper case, the other characters unchanged: the
    case folding that the spelling of the heading words calls for. *)
Definition ascii_upper (c : char) : char :=
  if ((97 <=? c) && (c <=? 122))%N then (c - 32)%N else c.

(** The block that [flush] makes of the open accumulator, if any: the
    accumulator needs a name, lines, and ink in its lines. *)
Definition open_block (st : pstate) : list block :=
  match current_name st with
  | Some n =>
      if nonempty n && nonempty (current_lines st)
         && has_ink (join [NL] (current_lines st))
      then [Block n (strip (join [NL] (current_lines st)))]
      else []
  | None => []
  end.

(** *** Line boundaries that the normalizer keeps

    A character is transparent when the normalizer can take it away
    without regard to what stands around it: whitespace or an asterisk.
    The marks are the colon and the underscore, whose patterns take
    whitespace away with them.  The other characters are hard: no step of
    the normalizer takes a hard character away without writing one. *)
Definition transparent (c : char) : bool := isspace c || (c =? STAR)%N.

Definition is_mark (c : char) : bool := (c =? COLON)%N || (c =? USCORE)%N.

(** The characters of the words of the three patterns of the marks. *)
Definition soft (c : char) : bool := isspace c || is_mark c.

Definition hard (c : char) : bool := negb (transparent c) && negb (is_mark c).

(** The transparent characters other than the newline. *)
Definition faint (c : char) : bool := transparent c && negb (c =? NL)%N.

(** What can stand on a line between a hard character and the end of the
    line without harm: faint characters and underscores. *)
Definition inline (c : char) : bool := faint c || (c =? USCORE)%N.

(** Reading on after an underscore: past underscores and faint characters
    a hard character is met, on the same line. *)
Fixpoint ok_head (s : str) : bool :=
  match s with
  | [] => false
  | c :: t => if inline c then ok_head t else hard c
  end.

(** Reading [s] away from a line boundary: past the transparent characters
    nothing is left, or a hard character is met, or an underscore after
    which [ok_head] holds.  So no colon is met before a hard character, and
    no underscore stands on a line without a hard character between it and
    the boundary. *)
Fixpoint ok_start (s : str) : bool :=
  match s with
  | [] => true
  | c :: t =>
      if transparent c then ok_start t
      else if (c =? USCORE)%N then ok_head t
      else hard c
  end.

(** The same reading of what stands before a line boundary, backwards. *)
Definition ok_end (s : str) : bool := ok_start (rev s).

(** The pieces of a text cut at some of its newlines, each of these
    newlines being guarded on both sides. *)
Fixpoint guarded (ps : list str) : Prop :=
  match ps with
  | u :: rest =>
      match rest with
      | v :: _ => ok_end u = true /\ ok_start v = true /\ guarded rest
      | [] => True
      end
  | [] => True
  end.

(** The characters of a text that are not faint. *)
Definition opaque_part (s : str) : str := filter (fun c => negb (faint c)) s.

(** The piece [p'] is made of characters of the piece [p] and of the
    characters that the normalizer writes. *)
Definition from_piece (p p' : str) : Prop :=
  forall c, In c p' -> In c p \/ In c (lit ": ()").
(** ** Facts about the string operations *)

Lemma str_eqb_eq (a b : str) : str_eqb a b = true <-> a = b.
Proof.
  revert b; induction a as [|x a IH]; intros [|y b]; simpl;
    try (split; [discriminate | discriminate]); try tauto.
  rewrite andb_true_iff, N.eqb_eq, IH.
  split; [intros [-> ->]; reflexivity | intros H; inversion H; auto].
Qed.

Lemma nonempty_true {A : Type} (l : list A) : nonempty l = true <-> l <> [].
Proof. destruct l; simpl; split; congruence. Qed.

Lemma has_ink_app (a b : str) : has_ink (a ++ b) = has_ink a || has_ink b.
Proof. apply existsb_app. Qed.

Lemma has_ink_rev (s : str) : has_ink (rev s) = has_ink s.
Proof.
  unfold has_ink. apply eq_true_iff_eq. rewrite !existsb_exists.
  split; intros [c [Hin Hc]]; exists c; split; auto;
    [apply in_rev | apply in_rev in Hin]; assumption.
Qed.

Lemma lstrip_ink (s : str) : has_ink (lstrip s) = has_ink s.
Proof.
  induction s as [|c s IH]; simpl; auto.
  destruct (isspace c) eqn:E; simpl; rewrite ?E; auto.
Qed.

Lemma lstrip_nonempty (s : str) : nonempty (lstrip s) = has_ink s.
Proof.
  induction s as [|c s IH]; simpl; auto.
  destruct (isspace c) eqn:E; simpl; auto.
Qed.

Lemma rstrip_ink (s : str) : has_ink (rstrip s) = has_ink s.
Proof. unfold rstrip. now rewrite has_ink_rev, lstrip_ink, has_ink_rev. Qed.

Lemma nonempty_rev {A : Type} (l : list A) : nonempty (rev l) = nonempty l.
Proof.
  destruct l as [|a l]; simpl; auto.
  destruct (rev l ++ [a]) eqn:E; auto.
  apply app_eq_nil in E. destruct E; discriminate.
Qed.

Lemma rstrip_nonempty (s : str) : nonempty (rstrip s) = has_ink s.
Proof. unfold rstrip. now rewrite nonempty_rev, lstrip_nonempty, has_ink_rev. Qed.

Lemma strip_ink (s : str) : has_ink (strip s) = has_ink s.
Proof. unfold strip. now rewrite rstrip_ink, lstrip_ink. Qed.

Lemma strip_nonempty (s : str) : nonempty (strip s) = has_ink s.
Proof. unfold strip. now rewrite rstrip_nonempty, lstrip_ink. Qed.

Lemma strip_nonempty_ink (s : str) : nonempty (strip s) = true -> has_ink (strip s) = true.
Proof. rewrite strip_ink, strip_nonempty. auto. Qed.

Lemma has_ink_strip_nonnil (s : str) : has_ink s = true -> strip s <> [].
Proof. rewrite <- strip_nonempty. apply nonempty_true. Qed.

(** ** No empty blocks *)

Ltac case_if :=
  match goal with
  | |- context [if ?c then _ else _] => destruct c eqn:?
  end.

Lemma fold_left_inv {A B : Type} (P : A -> Prop) (f : A -> B -> A) (l : list B) (a : A) :
  (forall x y, P x -> P (f x y)) -> P a -> P (fold_left f l a).
Proof.
  intros Hf. revert a. induction l as [|y l IH]; simpl; intros a Ha; auto.
Qed.

Lemma Forall_snoc {A : Type} (P : A -> Prop) (l : list A) (x : A) :
  Forall P l -> P x -> Forall P (l ++ [x]).
Proof. intros Hl Hx. apply Forall_app. split; auto. Qed.

Lemma flush_inked (st : pstate) :
  Forall inked (blocks st) -> Forall inked (blocks (App.flush st)).
Proof.
  intros H. unfold App.flush. simpl.
  destruct (truthy (current_name st) && nonempty (current_lines st)); auto.
  destruct (nonempty (strip (join [NL] (current_lines st)))) eqn:E; auto.
  apply Forall_snoc; auto. unfold inked; simpl.
  now apply strip_nonempty_ink.
Qed.

Lemma emit_inked (st : pstate) (b : block) :
  Forall inked (blocks st) -> inked b -> Forall inked (blocks (emit st b)).
Proof. intros. simpl. now apply Forall_snoc. Qed.

Lemma loop_body_inked (st : pstate) (raw_line : str) :
  Forall inked (blocks st) -> Forall inked (blocks (App.loop_body st raw_line)).
Proof.
  intros H. unfold App.loop_body. cbv zeta.
  destruct (nonempty (strip raw_line)) eqn:E; cbn [negb].
  - assert (Hline : inked (Block SCENA (strip raw_line)))
      by (unfold inked; cbn [text]; now apply strip_nonempty_ink).
    destruct (App._is_section_heading _).
    { auto using emit_inked, flush_inked. }
    destruct (re_match _ _ _).
    { cbn [blocks]. now apply flush_inked. }
    repeat case_if; auto using emit_inked, flush_inked.
  - case_if; auto.
Qed.

Lemma segment_inked (t : str) : Forall inked (App.segment t).
Proof.
  unfold App.segment. apply flush_inked.
  apply (fold_left_inv (fun st => Forall inked (blocks st))).
  - intros; now apply loop_body_inked.
  - constructor.
Qed.

Lemma rev_cons_snoc {A : Type} (l : list A) (x : A) (r : list A) :
  rev l = x :: r -> l = rev r ++ [x].
Proof. intros H. rewrite <- (rev_involutive l), H. reflexivity. Qed.

Lemma compact_step_inked (compact : list block) (b : block) :
  Forall inked compact -> inked b -> Forall inked (App.compact_step compact b).
Proof.
  intros Hc Hb. unfold App.compact_step.
  destruct (rev compact) as [|l before] eqn:E.
  - now apply Forall_snoc.
  - destruct (str_eqb (character b) SCENA && str_eqb (character l) SCENA).
    + apply rev_cons_snoc in E. subst compact.
      apply Forall_app in Hc. destruct Hc as [Hpre Hl].
      apply Forall_snoc; auto. unfold inked; simpl.
      rewrite strip_ink, has_ink_app.
      inversion Hl; subst. unfold inked in *.
      match goal with H : has_ink (text l) = true |- _ => now rewrite H end.
    + now apply Forall_snoc.
Qed.

Lemma compaction_inked (bs : list block) :
  Forall inked bs -> Forall inked (App.compaction bs).
Proof.
  unfold App.compaction.
  assert (G : forall acc, Forall inked acc -> Forall inked bs ->
                          Forall inked (fold_left App.compact_step bs acc)).
  { induction bs as [|b bs IH]; simpl; intros acc Ha Hb; auto.
    inversion Hb; subst. apply IH; auto. now apply compact_step_inked. }
  intros H. apply G; auto.
Qed.

(** C2: every block that [parse_script_from_pdf] returns has a text that is
    not empty after stripping; [flush] either leaves [blocks] as it is (the
    candidate is discarded) or appends the open block with its joined,
    stripped and non-empty text. *)
Theorem parse_no_empty_block (extracted : list (option str)) :
  Forall (fun b => strip (text b) <> []) (App.parse_script_from_pdf extracted)
  /\ (forall st : pstate,
        blocks (App.flush st) = blocks st
        \/ exists n, current_name st = Some n
                     /\ strip (join [NL] (current_lines st)) <> []
                     /\ blocks (App.flush st)
                        = blocks st ++ [Block n (strip (join [NL] (current_lines st)))]).
Proof.
  split.
  - unfold App.parse_script_from_pdf.
    eapply Forall_impl; [| apply compaction_inked, segment_inked].
    intros b Hb. now apply has_ink_strip_nonnil.
  - intros st. unfold App.flush. cbn [blocks].
    destruct (current_name st) as [n|]; cbn [truthy andb]; auto.
    destruct (nonempty n && nonempty (current_lines st)); auto.
    destruct (nonempty (strip (join [NL] (current_lines st)))) eqn:E; auto.
    right. exists n. repeat split; auto. now apply nonempty_true.
Qed.

(** ** Compaction *)

Lemma ok_rev_mid (p : list block) (b a : block) (q : list block) :
  ok_rev (p ++ b :: a :: q) -> ~ (is_scena b = true /\ is_scena a = true).
Proof.
  induction p as [|x p IH]; simpl.
  - tauto.
  - destruct (p ++ b :: a :: q) eqn:E.
    + destruct p; discriminate.
    + intros [_ H]. auto.
Qed.

Lemma is_scena_true (b : block) : is_scena b = true <-> character b = SCENA.
Proof. apply str_eqb_eq. Qed.

Lemma ok_rev_no_adjacent (l : list block) : ok_rev (rev l) -> no_adjacent_scena l.
Proof.
  intros H l1 a b l2 ->. rewrite rev_app_distr in H. simpl in H.
  rewrite <- !app_assoc in H. simpl in H.
  apply ok_rev_mid in H. rewrite !is_scena_true in H. tauto.
Qed.

Lemma compact_step_ok (compact : list block) (b : block) :
  ok_rev (rev compact) -> ok_rev (rev (App.compact_step compact b)).
Proof.
  intros H. unfold App.compact_step.
  destruct (rev compact) as [|l before] eqn:E.
  - rewrite rev_app_distr. simpl. rewrite E. exact I.
  - fold (is_scena b). fold (is_scena l).
    destruct (is_scena b && is_scena l) eqn:C.
    + rewrite rev_app_distr, rev_involutive. simpl.
      simpl in H. destruct before; auto.
    + rewrite rev_app_distr, E. simpl. split; auto.
      intros [Hb Hl]. rewrite Hb, Hl in C. discriminate.
Qed.

Lemma compaction_ok (bs : list block) : no_adjacent_scena (App.compaction bs).
Proof.
  apply ok_rev_no_adjacent. unfold App.compaction.
  apply (fold_left_inv (fun c => ok_rev (rev c))).
  - intros; now apply compact_step_ok.
  - exact I.
Qed.

Lemma compact_step_merge (compact : list block) (l b : block) :
  character l = SCENA -> character b = SCENA ->
  App.compact_step (compact ++ [l]) b
  = compact ++ [Block SCENA (strip (text l ++ [NL] ++ text b))].
Proof.
  intros Hl Hb. unfold App.compact_step.
  rewrite rev_app_distr. simpl.
  apply is_scena_true in Hl as Hl'. apply is_scena_true in Hb as Hb'.
  unfold is_scena in Hl', Hb'. rewrite Hl', Hb'. simpl.
  now rewrite rev_involutive, Hl.
Qed.

Lemma compact_step_keep (compact : list block) (b : block) :
  no_adjacent_scena (compact ++ [b]) -> App.compact_step compact b = compact ++ [b].
Proof.
  intros H. unfold App.compact_step.
  destruct (rev compact) as [|l before] eqn:E; auto.
  fold (is_scena b). fold (is_scena l).
  destruct (is_scena b && is_scena l) eqn:C; auto.
  apply andb_true_iff in C. destruct C as [Cb Cl].
  apply rev_cons_snoc in E. subst compact.
  exfalso. apply (H (rev before) l b []).
  - now rewrite <- app_assoc.
  - split; now apply is_scena_true.
Qed.

Lemma no_adjacent_prefix (l1 l2 : list block) :
  no_adjacent_scena (l1 ++ l2) -> no_adjacent_scena l1.
Proof.
  intros H p a b q ->. apply (H p a b (q ++ l2)).
  rewrite <- app_assoc. reflexivity.
Qed.

Lemma compaction_fixed_from (l acc : list block) :
  no_adjacent_scena (acc ++ l) -> fold_left App.compact_step l acc = acc ++ l.
Proof.
  revert acc. induction l as [|b l IH]; intros acc H; simpl.
  - now rewrite app_nil_r.
  - assert (E : acc ++ b :: l = (acc ++ [b]) ++ l) by now rewrite <- app_assoc.
    rewrite compact_step_keep.
    + rewrite IH; [now rewrite <- app_assoc | now rewrite <- E].
    + rewrite E in H. now apply no_adjacent_prefix in H.
Qed.

(** C3: the sequence that [parse_script_from_pdf] returns has no two
    consecutive blocks whose character is the sentinel; the compaction merges
    a sentinel block into a sentinel block before it, the two texts joined by
    a newline and stripped. *)
Theorem parse_no_adjacent_scena (extracted : list (option str)) :
  (forall l1 a b l2,
      App.parse_script_from_pdf extracted = l1 ++ a :: b :: l2 ->
      ~ (character a = SCENA /\ character b = SCENA))
  /\ (forall compact l b,
        character l = SCENA -> character b = SCENA ->
        App.compact_step (compact ++ [l]) b
        = compact ++ [Block SCENA (strip (text l ++ [NL] ++ text b))]).
Proof.
  split.
  - intros l1 a b l2 E. eapply compaction_ok. exact E.
  - apply compact_step_merge.
Qed.

(** C4: the compaction is idempotent. *)
Theorem compaction_idempotent (bs : list block) :
  App.compaction (App.compaction bs) = App.compaction bs.
Proof.
  unfold App.compaction at 1.
  apply (compaction_fixed_from (App.compaction bs) []).
  apply compaction_ok.
Qed.

(** ** Line classification *)

Lemma startswith_prefix (s p : str) : startswith s p = true <-> prefix p s.
Proof.
  unfold prefix. revert s. induction p as [|a p IH]; intros s; simpl.
  - split; auto. intros _. now exists s.
  - destruct s as [|b s].
    + split; [discriminate | intros [x Hx]; discriminate].
    + rewrite andb_true_iff, N.eqb_eq, IH. split.
      * intros [-> [x ->]]. now exists x.
      * intros [x Hx]. inversion Hx; subst. split; auto. now exists x.
Qed.

Lemma str_in_substring (p s : str) : str_in p s = true <-> substring p s.
Proof.
  unfold substring. split.
  - induction s as [|c s IH]; simpl; rewrite orb_true_iff.
    + intros [H | H]; [| discriminate].
      apply startswith_prefix in H. destruct H as [b ->]. now exists [], b.
    + intros [H | H].
      * apply startswith_prefix in H. destruct H as [b Hb]. now exists [], b.
      * destruct (IH H) as [a [b ->]]. now exists (c :: a), b.
  - intros [a [b ->]]. induction a as [|c a IH].
    + assert (H : startswith (p ++ b) p = true)
        by (apply startswith_prefix; now exists b).
      simpl. destruct (p ++ b); simpl in *; rewrite H; reflexivity.
    + simpl. rewrite IH. apply orb_true_r.
Qed.

Lemma upper_char_ascii (c : char) :
  (c < 128)%N -> upper_char c = [ascii_upper c].
Proof.
  intros Hc.
  assert (F : forallb (fun n => str_eqb (upper_char (N.of_nat n))
                                        [ascii_upper (N.of_nat n)])
                      (seq 0 128) = true) by (vm_compute; reflexivity).
  rewrite forallb_forall in F.
  specialize (F (N.to_nat c)). rewrite N2Nat.id in F.
  apply str_eqb_eq, F, in_seq. lia.
Qed.

Lemma upper_ascii (s : str) :
  Forall (fun c => (c < 128)%N) s -> upper s = map ascii_upper s.
Proof.
  induction 1 as [|c s Hc _ IH]; [reflexivity |].
  unfold upper in *. cbn [flat_map map]. rewrite IH, (upper_char_ascii Hc). reflexivity.
Qed.

Lemma ascii_upper_small (c : char) : (c < 128)%N <-> (ascii_upper c < 128)%N.
Proof.
  unfold ascii_upper.
  destruct ((97 <=? c) && (c <=? 122))%N eqn:E; [| tauto].
  apply andb_true_iff in E. rewrite !N.leb_le in E. lia.
Qed.

Lemma upper_char_fold (c d : char) :
  ascii_upper c = ascii_upper d -> upper_char c = upper_char d.
Proof.
  intros E. destruct (N.lt_ge_cases c 128) as [Hc | Hc].
  - assert (Hd : (d < 128)%N).
    { apply (proj2 (ascii_upper_small d)). rewrite <- E.
      exact (proj1 (ascii_upper_small c) Hc). }
    rewrite (upper_char_ascii Hc), (upper_char_ascii Hd), E. reflexivity.
  - assert (Hd : (128 <= d)%N).
    { apply N.le_ngt. intros H. apply (proj1 (ascii_upper_small d)) in H.
      rewrite <- E in H. apply (proj2 (ascii_upper_small c)) in H. lia. }
    assert (Ec : ascii_upper c = c).
    { unfold ascii_upper. destruct (N.leb_spec c 122); [lia |].
      now rewrite andb_false_r. }
    assert (Ed : ascii_upper d = d).
    { unfold ascii_upper. destruct (N.leb_spec d 122); [lia |].
      now rewrite andb_false_r. }
    congruence.
Qed.

Lemma upper_fold (l l' : str) :
  map ascii_upper l' = map ascii_upper l -> upper l' = upper l.
Proof.
  revert l'. induction l as [|c l IH]; intros [|d l'] E; try discriminate; auto.
  cbn [map] in E. injection E as Ec El.
  unfold upper in *. cbn [flat_map].
  now rewrite (upper_char_fold _ _ Ec), (IH _ El).
Qed.

Lemma flush_open_block (st : pstate) :
  blocks (App.flush st) = blocks st ++ open_block st.
Proof.
  unfold App.flush, open_block. cbn [blocks].
  destruct (current_name st) as [n|]; cbn [truthy name_of andb].
  - destruct (nonempty n); cbn [andb]; [| now rewrite app_nil_r].
    destruct (nonempty (current_lines st)); cbn [andb]; [| now rewrite app_nil_r].
    rewrite strip_nonempty.
    destruct (has_ink _); [reflexivity | now rewrite app_nil_r].
  - now rewrite app_nil_r.
Qed.

(** C5: a non-blank line is a section heading exactly when its uppercase
    form starts with "SCENA " or contains one of "PERSONAGGI", "ANTIPASTO",
    "PRIMI", "DOLCI", "CAFF".  The case of the letters a-z does not count:
    two lines that differ only in it are classified alike, and a line of
    ASCII characters is a heading exactly when, its letters put in upper
    case, it starts with "SCENA " or contains one of the five words.  On a
    heading the loop flushes the open block, which is appended if it has a
    name and ink in its lines, and appends a sentinel block whose text is
    the stripped line, leaving no block open. *)
Theorem heading_line (st : pstate) (raw_line : str) :
  strip raw_line <> [] ->
  (App._is_section_heading (strip raw_line) = true <->
     prefix (lit "SCENA ") (upper (strip raw_line))
     \/ substring (lit "PERSONAGGI") (upper (strip raw_line))
     \/ substring (lit "ANTIPASTO") (upper (strip raw_line))
     \/ substring (lit "PRIMI") (upper (strip raw_line))
     \/ substring (lit "DOLCI") (upper (strip raw_line))
     \/ substring (lit "CAFF") (upper (strip raw_line)))
  /\ (forall l, map ascii_upper l = map ascii_upper (strip raw_line) ->
                App._is_section_heading l
                = App._is_section_heading (strip raw_line))
  /\ (Forall (fun c => (c < 128)%N) (strip raw_line) ->
      (App._is_section_heading (strip raw_line) = true <->
         prefix (lit "SCENA ") (map ascii_upper (strip raw_line))
         \/ substring (lit "PERSONAGGI") (map ascii_upper (strip raw_line))
         \/ substring (lit "ANTIPASTO") (map ascii_upper (strip raw_line))
         \/ substring (lit "PRIMI") (map ascii_upper (strip raw_line))
         \/ substring (lit "DOLCI") (map ascii_upper (strip raw_line))
         \/ substring (lit "CAFF") (map ascii_upper (strip raw_line))))
  /\ (App._is_section_heading (strip raw_line) = true ->
      App.loop_body st raw_line
      = PState (blocks (App.flush st) ++ [Block SCENA (strip raw_line)]) None []
      /\ App.loop_body st raw_line
         = PState (blocks st ++ open_block st ++ [Block SCENA (strip raw_line)])
                  None []).
Proof.
  intros Hne.
  assert (Hiff : forall l,
            App._is_section_heading l = true <->
            prefix (lit "SCENA ") (upper l)
            \/ substring (lit "PERSONAGGI") (upper l)
            \/ substring (lit "ANTIPASTO") (upper l)
            \/ substring (lit "PRIMI") (upper l)
            \/ substring (lit "DOLCI") (upper l)
            \/ substring (lit "CAFF") (upper l)).
  { intros l. unfold App._is_section_heading. cbv zeta.
    rewrite !orb_true_iff, startswith_prefix, !str_in_substring. tauto. }
  split; [apply Hiff |]. split; [| split].
  - intros l E. unfold App._is_section_heading. cbv zeta.
    now rewrite (upper_fold _ _ E).
  - intros Ha. rewrite <- (upper_ascii Ha). apply Hiff.
  - intros Hh.
    assert (E : App.loop_body st raw_line
                = PState (blocks (App.flush st) ++ [Block SCENA (strip raw_line)])
                         None []).
    { unfold App.loop_body. cbv zeta.
      apply nonempty_true in Hne. rewrite Hne, Hh. reflexivity. }
    split; [exact E |].
    rewrite E, flush_open_block, <- app_assoc. reflexivity.
Qed.

(** C7: a speaker line, a blank line and a continuation line give one block
    whose text keeps the blank line as a paragraph break.  A blank line
    appends one blank marker when a block is open and its last accumulated
    line is not a marker, and changes nothing otherwise. *)
Theorem blank_line_paragraph_break :
  App.parse_script_from_pdf
    [Some (lit "MARIO: Ciao" ++ [NL] ++ [NL] ++ lit "come va?")]
  = [Block (lit "MARIO") (lit "Ciao" ++ [NL] ++ [NL] ++ lit "come va?")]
  /\ (forall st raw_line ls l,
        strip raw_line = [] -> truthy (current_name st) = true ->
        current_lines st = ls ++ [l] -> l <> [] ->
        App.loop_body st raw_line = append_line st [])
  /\ (forall st raw_line ls,
        strip raw_line = [] -> current_lines st = ls ++ [[]] ->
        App.loop_body st raw_line = st)
  /\ (forall st raw_line,
        strip raw_line = [] ->
        truthy (current_name st) = false \/ current_lines st = [] ->
        App.loop_body st raw_line = st).
Proof.
  split; [vm_compute; reflexivity |].
  split; [| split].
  - intros st raw_line ls l Hb Hn Hl Hne.
    unfold App.loop_body. cbv zeta. rewrite Hb, Hn, Hl, last_last.
    destruct ls; destruct l; simpl; congruence.
  - intros st raw_line ls Hb Hl.
    unfold App.loop_body. cbv zeta. rewrite Hb, Hl, last_last.
    cbn [nonempty negb str_eqb]. now rewrite andb_false_r.
  - intros st raw_line Hb [Hn | Hl];
      unfold App.loop_body; cbv zeta; rewrite Hb; cbn [nonempty negb].
    + now rewrite Hn.
    + rewrite Hl. cbn [nonempty]. now rewrite andb_false_r.
Qed.

(** C8: a non-blank line that is no heading, no speaker line and no
    standalone parenthetical, read while no block is open, is appended as a
    sentinel block whose text is the stripped line; the state is otherwise
    unchanged. *)
Theorem stray_line_is_sentinel (st : pstate) (raw_line : str) :
  strip raw_line <> [] ->
  App._is_section_heading (strip raw_line) = false ->
  re_match false App.speaker_pat (strip raw_line) = None ->
  startswith (strip raw_line) (lit "(") && endswith (strip raw_line) (lit ")") = false ->
  truthy (current_name st) = false ->
  App.loop_body st raw_line
  = PState (blocks st ++ [Block SCENA (strip raw_line)])
           (current_name st) (current_lines st).
Proof.
  intros Hne Hh Hm Hp Hn. unfold App.loop_body. cbv zeta.
  apply nonempty_true in Hne. rewrite Hne, Hh, Hm, Hp, Hn. reflexivity.
Qed.

(** C9: a speaker line whose remainder is empty once the leading stage
    direction is stripped opens a block with no line, and the next flush
    appends nothing for it; the one-line script "MARIO: (ride)" gives no
    block. *)
Theorem speaker_without_text (st : pstate) (raw_line : str) (m : caps) :
  strip raw_line <> [] ->
  App._is_section_heading (strip raw_line) = false ->
  re_match false App.speaker_pat (strip raw_line) = Some m ->
  App._clean_stage_dirs_start (group m "what") = [] ->
  current_lines (App.loop_body st raw_line) = []
  /\ blocks (App.loop_body st raw_line) = blocks (App.flush st)
  /\ blocks (App.flush (App.loop_body st raw_line)) = blocks (App.flush st)
  /\ App.parse_script_from_pdf [Some (lit "MARIO: (ride)")] = [].
Proof.
  intros Hne Hh Hm Hw. unfold App.loop_body. cbv zeta.
  apply nonempty_true in Hne. rewrite Hne, Hh, Hm, Hw.
  cbn [negb nonempty current_lines blocks].
  repeat split.
  unfold App.flush at 1. cbn [current_lines current_name blocks nonempty].
  now rewrite andb_false_r.
Qed.

(** ** The matcher only returns matches of the pattern *)

Section Soundness.

Context {A : Type}.
Variable multiline : bool.

Lemma one_sound (p : char -> bool) (s : str) (cs : caps) (k : cont A) (x : A) :
  one p s cs k = Some x ->
  exists c s', s = c :: s' /\ p c = true /\ k (Some c) s' cs = Some x.
Proof.
  unfold one. destruct s as [|c t]; [discriminate |].
  destruct (p c) eqn:E; [| discriminate].
  intros H. now exists c, t.
Qed.

Lemma rep_loop_sound body (L : str -> Prop) lo hi (k : cont A) :
  sound_body body L ->
  forall fuel n prev s cs x,
    rep_loop body lo hi k fuel n prev s cs = Some x ->
    exists ws p' s' cs',
      s = concat ws ++ s' /\ Forall L ws /\ lo <= n + length ws
      /\ k p' s' cs' = Some x.
Proof.
  intros Hb.
  assert (Hstop : forall n prev s cs x,
            (if lo <=? n then k prev s cs else None) = Some x ->
            exists ws p' s' cs',
              s = concat ws ++ s' /\ Forall L ws /\ lo <= n + length ws
              /\ k p' s' cs' = Some x).
  { intros n prev s cs x H. destruct (lo <=? n) eqn:E; [| discriminate].
    apply Nat.leb_le in E. exists [], prev, s, cs. simpl.
    repeat split; auto. lia. }
  induction fuel as [|fuel IH]; intros n prev s cs x H; simpl in H.
  - exact (Hstop _ _ _ _ _ H).
  - destruct (below n hi); [| exact (Hstop _ _ _ _ _ H)].
    unfold or_else in H.
    match type of H with
    | match ?e with _ => _ end = _ => destruct e as [y|] eqn:E
    end; [| exact (Hstop _ _ _ _ _ H)].
    injection H as ->.
    apply Hb in E. destruct E as (w & p1 & s1 & cs1 & -> & Hw & Hk).
    destruct (length s1 <? length (w ++ s1)); [| discriminate].
    apply IH in Hk. destruct Hk as (ws & p2 & s2 & cs2 & -> & Hws & Hlo & Hk).
    exists (w :: ws), p2, s2, cs2. simpl.
    rewrite <- app_assoc. repeat split; auto. lia.
Qed.

Lemma exec_sound (r : re) : sound_body (A := A) (exec multiline r) (den r).
Proof.
  induction r as [c | neg items | | | | r1 IH1 r2 IH2 | r1 IH1 r2 IH2
                 | lo hi r1 IH1 | name r1 IH1];
    intros prev s cs k x H; simpl in H.
  - apply one_sound in H. destruct H as (c0 & s' & -> & Hc & Hk).
    apply N.eqb_eq in Hc. subst c0. now exists [c], (Some c), s', cs.
  - apply one_sound in H. destruct H as (c0 & s' & -> & Hc & Hk).
    exists [c0], (Some c0), s', cs. simpl. repeat split; eauto.
  - apply one_sound in H. destruct H as (c0 & s' & -> & Hc & Hk).
    exists [c0], (Some c0), s', cs. simpl. repeat split; auto.
    exists c0. split; auto. apply negb_true_iff, N.eqb_neq in Hc. exact Hc.
  - destruct (at_bol multiline prev); [| discriminate].
    now exists [], prev, s, cs.
  - destruct (at_eol multiline s); [| discriminate].
    now exists [], prev, s, cs.
  - apply IH1 in H. destruct H as (w1 & p1 & s1 & cs1 & -> & Hw1 & H).
    apply IH2 in H. destruct H as (w2 & p2 & s2 & cs2 & -> & Hw2 & H).
    exists (w1 ++ w2), p2, s2, cs2. rewrite <- app_assoc.
    repeat split; auto. simpl. now exists w1, w2.
  - unfold or_else in H.
    destruct (exec multiline r1 prev s cs k) as [y|] eqn:E.
    + injection H as ->. apply IH1 in E.
      destruct E as (w & p1 & s1 & cs1 & -> & Hw & Hk).
      exists w, p1, s1, cs1. simpl. auto.
    + apply IH2 in H. destruct H as (w & p1 & s1 & cs1 & -> & Hw & Hk).
      exists w, p1, s1, cs1. simpl. auto.
  - apply (rep_loop_sound (L := den r1)) in H; auto.
    destruct H as (ws & p1 & s1 & cs1 & -> & Hws & Hlo & Hk).
    exists (concat ws), p1, s1, cs1. repeat split; auto.
    simpl. exists ws. repeat split; auto.
  - apply IH1 in H. destruct H as (w & p1 & s1 & cs1 & -> & Hw & Hk).
    exists w, p1, s1. eexists. repeat split; eauto.
Qed.

End Soundness.

Lemma match_len_sound (multiline : bool) (r : re) (prev : option char)
    (s : str) (n : nat) :
  match_len multiline r prev s = Some n ->
  den r (firstn n s) /\ n <= length s.
Proof.
  unfold match_len. intros H. apply exec_sound in H.
  destruct H as (w & p1 & s1 & cs1 & -> & Hw & Hk).
  injection Hk as <-. rewrite length_app.
  replace (length w + length s1 - length s1) with (length w) by lia.
  rewrite firstn_app, Nat.sub_diag, firstn_all. simpl.
  rewrite app_nil_r. split; auto. lia.
Qed.

(** ** Newlines through substitution *)

Lemma count_nl_app (a b : str) : count_nl (a ++ b) = count_nl a + count_nl b.
Proof. apply count_occ_app. Qed.

Lemma count_nl_cons (c : char) (s : str) :
  count_nl (c :: s) = (if N.eq_dec c NL then 1 else 0) + count_nl s.
Proof. unfold count_nl. simpl. destruct (N.eq_dec c NL); reflexivity. Qed.

Lemma count_nl_cons_le (c : char) (s : str) : count_nl s <= count_nl (c :: s).
Proof. rewrite count_nl_cons. lia. Qed.

Lemma count_nl_zero (s : str) : Forall (fun c => c <> NL) s <-> count_nl s = 0.
Proof.
  unfold count_nl. rewrite <- count_occ_not_In, Forall_forall.
  split; intros H; [intros Hin; now apply (H _ Hin) | intros c Hc ->; auto].
Qed.

Lemma count_nl_split (n : nat) (s : str) :
  count_nl s = count_nl (firstn n s) + count_nl (skipn n s).
Proof. now rewrite <- count_nl_app, firstn_skipn. Qed.

Lemma sub_go_nl_le (ml : bool) (r : re) (repl : str) :
  count_nl repl = 0 ->
  forall s prev skip, count_nl (sub_go ml r repl prev s skip) <= count_nl s.
Proof.
  intros Hr. induction s as [|c t IH]; intros prev skip; simpl.
  - destruct skip; auto. destruct (match_len ml r prev []); simpl; lia.
  - destruct skip as [|n].
    + destruct (match_len ml r prev (c :: t)) as [[|n]|];
        rewrite ?count_nl_app, ?Hr; simpl.
      * rewrite !count_nl_cons. specialize (IH (Some c) 0). lia.
      * specialize (IH (Some c) n). pose proof (count_nl_cons_le c t). lia.
      * rewrite !count_nl_cons. specialize (IH (Some c) 0). lia.
    + specialize (IH (Some c) n). pose proof (count_nl_cons_le c t). lia.
Qed.

Lemma sub_go_nl_eq (ml : bool) (r : re) (repl : str) :
  (forall w, den r w -> count_nl w = 0) -> count_nl repl = 0 ->
  forall s prev skip,
    count_nl (sub_go ml r repl prev s skip) = count_nl (skipn skip s).
Proof.
  intros Hd Hr. induction s as [|c t IH]; intros prev skip; simpl.
  - destruct skip; auto. destruct (match_len ml r prev []); auto.
  - destruct skip as [|n]; [| now rewrite IH].
    destruct (match_len ml r prev (c :: t)) as [[|n]|] eqn:E;
      rewrite ?count_nl_app, ?Hr; simpl.
    + rewrite !count_nl_cons, IH. reflexivity.
    + apply match_len_sound in E. destruct E as [E _]. apply Hd in E.
      rewrite IH, (count_nl_split (S n) (c :: t)), E. reflexivity.
    + rewrite !count_nl_cons, IH. reflexivity.
Qed.

Lemma sub_go_id (ml : bool) (r : re) (repl : str) (x : char) :
  (forall w, den r w -> In x w) ->
  forall s prev, ~ In x s -> sub_go ml r repl prev s 0 = s.
Proof.
  intros Hd. induction s as [|c t IH]; intros prev Hx; simpl.
  - destruct (match_len ml r prev []) eqn:E; auto.
    apply match_len_sound in E. destruct E as [E _]. apply Hd in E.
    rewrite firstn_nil in E. destruct E.
  - destruct (match_len ml r prev (c :: t)) as [n|] eqn:E.
    + apply match_len_sound in E. destruct E as [E _]. apply Hd in E.
      exfalso. apply Hx. rewrite <- (firstn_skipn n (c :: t)).
      apply in_or_app. now left.
    + rewrite IH; auto. intros H. apply Hx. now right.
Qed.

Lemma sub_go_in (ml : bool) (r : re) (repl : str) (x : char) :
  forall s prev skip, In x (sub_go ml r repl prev s skip) -> In x s \/ In x repl.
Proof.
  induction s as [|c t IH]; intros prev skip; simpl.
  - destruct skip; [| tauto]. destruct (match_len ml r prev []); simpl; tauto.
  - destruct skip as [|n].
    + destruct (match_len ml r prev (c :: t)) as [[|n]|]; simpl;
        rewrite ?in_app_iff; simpl; intros H;
        repeat match goal with
               | H : _ \/ _ |- _ => destruct H as [H | H]
               | H : In x (sub_go _ _ _ _ _ _) |- _ => apply IH in H
               end; tauto.
    + intros H. apply IH in H. tauto.
Qed.

Lemma startswith_app (old s : str) :
  startswith s old = true -> s = old ++ skipn (length old) s.
Proof.
  intros H. apply startswith_prefix in H. destruct H as [b ->].
  rewrite skipn_app, skipn_all, Nat.sub_diag. reflexivity.
Qed.

Lemma replace_go_nl_eq (old new : str) :
  old <> [] -> count_nl old = 0 -> count_nl new = 0 ->
  forall s skip, count_nl (replace_go old new s skip) = count_nl (skipn skip s).
Proof.
  intros Hne Ho Hn. induction s as [|c t IH]; intros skip; simpl.
  - now destruct skip.
  - destruct skip as [|n]; [| now rewrite IH].
    destruct (startswith (c :: t) old) eqn:E.
    + rewrite count_nl_app, Hn, IH. simpl.
      apply startswith_app in E.
      rewrite (count_nl_split (length old) (c :: t)).
      assert (F : firstn (length old) (c :: t) = old).
      { rewrite E, firstn_app, Nat.sub_diag, firstn_all. simpl.
        apply app_nil_r. }
      rewrite F, Ho. destruct old as [|o old']; [congruence |].
      simpl. now rewrite Nat.sub_0_r.
    + rewrite count_nl_cons, IH. simpl. now rewrite count_nl_cons.
Qed.

Lemma replace_go_in (old new : str) (x : char) :
  forall s skip, In x (replace_go old new s skip) -> In x s \/ In x new.
Proof.
  induction s as [|c t IH]; intros skip; simpl; [tauto |].
  destruct skip as [|n].
  - destruct (startswith (c :: t) old); simpl; rewrite ?in_app_iff;
      intros H;
      repeat match goal with
             | H : _ \/ _ |- _ => destruct H as [H | H]
             | H : In x (replace_go _ _ _ _) |- _ => apply IH in H
             end; tauto.
  - intros H. apply IH in H. tauto.
Qed.

Lemma den_rep_chars (Q : char -> Prop) (lo : nat) (hi : option nat) (r : re) :
  (forall w, den r w -> Forall Q w) ->
  forall w, den (Rep lo hi r) w -> Forall Q w.
Proof.
  intros Hr w (ws & -> & Hws & _).
  induction Hws as [|x ws Hx _ IH]; simpl; [constructor |].
  apply Forall_app. split; auto.
Qed.

Lemma den_plus_lit (c : char) (w : str) : den (Plus (Lit c)) w -> In c w.
Proof.
  intros (ws & -> & Hws & Hlen).
  destruct Hws as [|x ws Hx _]; simpl in *; [lia |].
  subst x. now left.
Qed.

Lemma stars_no_newline (w : str) : den App.stars_pat w -> count_nl w = 0.
Proof.
  intros H. apply count_nl_zero. revert w H. apply den_rep_chars.
  intros w ->. repeat constructor. discriminate.
Qed.

Lemma blanks_no_newline (w : str) : den App.blanks_pat w -> count_nl w = 0.
Proof.
  intros H. apply count_nl_zero. revert w H. apply den_rep_chars.
  intros w (c & -> & Hc). repeat constructor.
  intros ->. vm_compute in Hc. discriminate.
Qed.

Lemma lead_underscores_has (w : str) :
  den App.lead_underscores_pat w -> In USCORE w.
Proof.
  intros (w1 & w2 & -> & -> & w3 & w4 & -> & H & _).
  apply den_plus_lit in H. simpl. apply in_or_app. now left.
Qed.

Lemma trail_underscores_has (w : str) :
  den App.trail_underscores_pat w -> In USCORE w.
Proof.
  intros (w1 & w2 & -> & _ & w3 & w4 & -> & H & _).
  apply den_plus_lit in H. apply in_or_app. right. apply in_or_app. now left.
Qed.

Lemma colon_has (w : str) : den App.colon_pat w -> In COLON w.
Proof.
  intros (w1 & w2 & -> & _ & w3 & w4 & -> & H & _).
  simpl in H. subst w3. apply in_or_app. right. now left.
Qed.

Lemma replace_nl (s old new : str) :
  old <> [] -> count_nl old = 0 -> count_nl new = 0 ->
  count_nl (replace s old new) = count_nl s.
Proof. intros. unfold replace. now rewrite replace_go_nl_eq. Qed.

Lemma re_sub_nl_le (ml : bool) (r : re) (repl s : str) :
  count_nl repl = 0 -> count_nl (re_sub ml r repl s) <= count_nl s.
Proof. intros. unfold re_sub. now apply sub_go_nl_le. Qed.

Lemma re_sub_nl_eq (ml : bool) (r : re) (repl s : str) :
  (forall w, den r w -> count_nl w = 0) -> count_nl repl = 0 ->
  count_nl (re_sub ml r repl s) = count_nl s.
Proof. intros. unfold re_sub. now rewrite sub_go_nl_eq. Qed.

Lemma remove_cr_nl (s : str) : count_nl (replace s [CR] []) = count_nl s.
Proof. apply replace_nl; [discriminate | reflexivity | reflexivity]. Qed.

Lemma unescape_nl (s : str) :
  count_nl (replace (replace s [BSLASH; LPAR] [LPAR]) [BSLASH; RPAR] [RPAR])
  = count_nl s.
Proof.
  rewrite !replace_nl; try reflexivity; discriminate.
Qed.

(** The claim of the specification that no step removes a newline fails:
    the whitespace around a colon is matched by "\s", which takes a newline
    too. *)
Lemma preclean_joins_lines :
  App._preclean_text (lit "MARIO" ++ [NL] ++ lit ": Ciao") = lit "MARIO: Ciao"
  /\ count_nl (App._preclean_text (lit "MARIO" ++ [NL] ++ lit ": Ciao"))
     <> count_nl (lit "MARIO" ++ [NL] ++ lit ": Ciao").
Proof. split; [vm_compute; reflexivity | vm_compute; discriminate]. Qed.


(** ** Stage directions at the start of a line *)

Lemma sub_go_bol_after (r : re) (repl : str) :
  forall t c n, sub_go false (Bol $$ r) repl (Some c) t n = skipn n t.
Proof.
  induction t as [|c' t IH]; intros c n; simpl.
  - now destruct n.
  - destruct n as [|n]; [| apply IH].
    unfold match_len. simpl. now rewrite IH.
Qed.

Lemma clean_without_paren (s : str) :
  startswith s (lit "(") = false -> App._clean_stage_dirs_start s = strip s.
Proof.
  intros H. unfold App._clean_stage_dirs_start. cbv zeta. f_equal.
  unfold re_sub, App.stage_dir_pat. destruct s as [|c t]; [reflexivity |].
  simpl in H. rewrite andb_true_r in H.
  simpl. unfold match_len. simpl. unfold LPAR. rewrite H.
  now rewrite sub_go_bol_after.
Qed.

(** *** The greedy path of a repetition

    When the rest of the pattern succeeds after the longest run of
    iterations, that is the match the backtracking matcher returns. *)

Lemma rep_loop_unfold {A : Type} body lo hi (k : cont A) fuel n prev s cs :
  rep_loop body lo hi k (S fuel) n prev s cs
  = if below n hi
    then or_else
           (body prev s cs
              (fun p' s' cs' =>
                 if length s' <? length s
                 then rep_loop body lo hi k fuel (S n) p' s' cs'
                 else None))
           (if lo <=? n then k prev s cs else None)
    else if lo <=? n then k prev s cs else None.
Proof. reflexivity. Qed.

Lemma star_one_greedy {A : Type} (p : char -> bool)
    (body : option char -> str -> caps -> cont A -> option A)
    (k : cont A) (x : A) (cs : caps) (tail : str) :
  (forall pr s cs' k', body pr s cs' k' = one p s cs' k') ->
  (forall q, k q tail cs = Some x) ->
  match tail with [] => True | c :: _ => p c = false end ->
  forall v fuel n prev,
    forallb p v = true -> length (v ++ tail) <= fuel ->
    rep_loop body 0 None k fuel n prev (v ++ tail) cs = Some x.
Proof.
  intros Hb Hk Ht. induction v as [|c v IH]; intros fuel n prev Hv Hlen.
  - simpl app. destruct fuel as [|fuel]; [simpl; apply Hk |].
    rewrite rep_loop_unfold, Hb. cbn [below Nat.leb].
    destruct tail as [|c t]; cbn [one or_else]; [apply Hk |].
    rewrite Ht. apply Hk.
  - simpl in Hv. apply andb_true_iff in Hv. destruct Hv as [Hc Hv].
    destruct fuel as [|fuel]; [simpl in Hlen; lia |].
    rewrite rep_loop_unfold, Hb. cbn [below app one]. rewrite Hc.
    assert (L : (length (v ++ tail) <? length (c :: v ++ tail)) = true)
      by (apply Nat.ltb_lt; simpl; lia).
    rewrite L, IH; auto. simpl in Hlen. lia.
Qed.

Lemma in_cls_space (c : char) : in_cls false [CSpace] c = isspace c.
Proof. unfold in_cls. cbn [existsb in_citem xorb]. apply orb_false_r. Qed.

Lemma in_cls_not_rpar (c : char) : c <> RPAR -> in_cls true [CChr RPAR] c = true.
Proof.
  intros H. unfold in_cls. cbn [existsb in_citem].
  destruct (N.eqb_spec RPAR c); [congruence | reflexivity].
Qed.

Lemma in_cls_not_paren (c : char) :
  c <> LPAR -> c <> RPAR -> in_cls true [CChr LPAR; CChr RPAR] c = true.
Proof.
  intros H1 H2. unfold in_cls. cbn [existsb in_citem].
  destruct (N.eqb_spec LPAR c); [congruence |].
  destruct (N.eqb_spec RPAR c); [congruence | reflexivity].
Qed.

Lemma forallb_not_rpar (v : str) :
  ~ In RPAR v -> forallb (in_cls true [CChr RPAR]) v = true.
Proof.
  intros H. apply forallb_forall. intros c Hc. apply in_cls_not_rpar.
  intros ->. auto.
Qed.

Lemma lstrip_split (s : str) :
  exists ws, s = ws ++ lstrip s /\ forallb isspace ws = true.
Proof.
  induction s as [|c s (ws & E & Hws)]; [now exists [] |].
  simpl. destruct (isspace c) eqn:C.
  - exists (c :: ws). simpl. rewrite C, Hws. split; [now f_equal | reflexivity].
  - now exists [].
Qed.

Lemma lstrip_head (s : str) :
  match lstrip s with [] => True | c :: _ => isspace c = false end.
Proof.
  induction s as [|c s IH]; simpl; auto.
  destruct (isspace c) eqn:C; simpl; auto.
Qed.

Lemma lstrip_idem (s : str) : lstrip (lstrip s) = lstrip s.
Proof.
  pose proof (lstrip_head s) as H. destruct (lstrip s) as [|c t]; auto.
  simpl. now rewrite H.
Qed.

Lemma strip_lstrip (s : str) : strip (lstrip s) = strip s.
Proof. unfold strip. now rewrite lstrip_idem. Qed.

Lemma star_ws_greedy {A : Type} (k : cont A) (x : A) (cs : caps) (rest : str) :
  (forall q, k q (lstrip rest) cs = Some x) ->
  forall prev, exec false (Star Ws) prev rest cs k = Some x.
Proof.
  intros Hk prev. destruct (lstrip_split rest) as (ws & E & Hws).
  change (exec false (Star Ws) prev rest cs k)
    with (rep_loop (exec false Ws) 0 None k (length rest) 0 prev rest cs).
  rewrite E at 2.
  apply star_one_greedy with (p := in_cls false [CSpace]); auto.
  - pose proof (lstrip_head rest) as H. destruct (lstrip rest); auto.
    now rewrite in_cls_space.
  - apply forallb_forall. intros c Hc. rewrite in_cls_space.
    eapply forallb_forall in Hws; eauto.
  - now rewrite <- E.
Qed.

Lemma star_not_rpar_greedy {A : Type} (k : cont A) (x : A) (cs : caps)
    (v s : str) :
  ~ In RPAR v -> (forall q, k q (RPAR :: s) cs = Some x) ->
  forall prev,
    exec false (Star (Cls true [CChr RPAR])) prev (v ++ RPAR :: s) cs k = Some x.
Proof.
  intros Hv Hk prev.
  change (exec false (Star (Cls true [CChr RPAR])) prev (v ++ RPAR :: s) cs k)
    with (rep_loop (exec false (Cls true [CChr RPAR])) 0 None k
            (length (v ++ RPAR :: s)) 0 prev (v ++ RPAR :: s) cs).
  apply star_one_greedy with (p := in_cls true [CChr RPAR]);
    auto using forallb_not_rpar.
Qed.

(** The inside of the stage-direction pattern, [[^()]|\([^)]*\)], on the
    three kinds of text it can meet. *)
Lemma dir_body_rpar {A : Type} prev (s : str) cs (k : cont A) :
  exec false
    (Alt (Cls true [CChr LPAR; CChr RPAR])
         (Lit LPAR $$ Star (Cls true [CChr RPAR]) $$ Lit RPAR))
    prev (RPAR :: s) cs k = None.
Proof. reflexivity. Qed.

Lemma dir_body_char {A : Type} prev (c : char) (s : str) cs (k : cont A) :
  c <> LPAR -> c <> RPAR ->
  exec false
    (Alt (Cls true [CChr LPAR; CChr RPAR])
         (Lit LPAR $$ Star (Cls true [CChr RPAR]) $$ Lit RPAR))
    prev (c :: s) cs k = k (Some c) s cs.
Proof.
  intros H1 H2. cbn [exec one]. rewrite (in_cls_not_paren H1 H2).
  destruct (N.eqb_spec LPAR c); [congruence |].
  unfold or_else. now destruct (k (Some c) s cs).
Qed.

Lemma dir_body_nested {A : Type} prev (v s : str) cs (k : cont A) (x : A) :
  ~ In RPAR v -> k (Some RPAR) s cs = Some x ->
  exec false
    (Alt (Cls true [CChr LPAR; CChr RPAR])
         (Lit LPAR $$ Star (Cls true [CChr RPAR]) $$ Lit RPAR))
    prev (LPAR :: v ++ RPAR :: s) cs k = Some x.
Proof.
  intros Hv Hk.
  change (exec false
            (Alt (Cls true [CChr LPAR; CChr RPAR])
                 (Lit LPAR $$ Star (Cls true [CChr RPAR]) $$ Lit RPAR))
            prev (LPAR :: v ++ RPAR :: s) cs k)
    with (exec false (Star (Cls true [CChr RPAR])) (Some LPAR)
            (v ++ RPAR :: s) cs
            (fun p' s' cs' => exec false (Lit RPAR) p' s' cs' k)).
  apply star_not_rpar_greedy; auto.
Qed.

Lemma star_items_greedy {A : Type} (k : cont A) (x : A) (cs : caps) (rest : str) :
  (forall q, k q (RPAR :: rest) cs = Some x) ->
  forall items fuel n prev,
    Forall dir_item items ->
    length (concat items ++ RPAR :: rest) <= fuel ->
    rep_loop
      (exec false
         (Alt (Cls true [CChr LPAR; CChr RPAR])
              (Lit LPAR $$ Star (Cls true [CChr RPAR]) $$ Lit RPAR)))
      0 None k fuel n prev (concat items ++ RPAR :: rest) cs = Some x.
Proof.
  intros Hk. induction items as [|it items IH]; intros fuel n prev Hit Hlen.
  - change (concat [] ++ RPAR :: rest) with (RPAR :: rest).
    destruct fuel as [|fuel]; [simpl; apply Hk |].
    rewrite rep_loop_unfold, dir_body_rpar. cbn [below Nat.leb or_else].
    apply Hk.
  - inversion Hit as [|? ? Hi Hrest]; subst.
    destruct Hi as [c H1 H2 | v Hv].
    + change (concat ([c] :: items) ++ RPAR :: rest)
        with (c :: concat items ++ RPAR :: rest) in *.
      destruct fuel as [|fuel]; [simpl in Hlen; lia |].
      rewrite rep_loop_unfold, (dir_body_char _ _ _ _ H1 H2).
      cbn [below].
      assert (L : (length (concat items ++ RPAR :: rest)
                   <? length (c :: concat items ++ RPAR :: rest)) = true)
        by (apply Nat.ltb_lt; simpl; lia).
      rewrite L, IH; auto. simpl in Hlen. lia.
    + match goal with
      | |- rep_loop _ _ _ _ _ _ _ ?s0 _ = _ =>
          assert (E : s0 = LPAR :: v ++ RPAR :: concat items ++ RPAR :: rest)
            by (simpl; rewrite <- !app_assoc; reflexivity);
          rewrite E in Hlen |- *
      end.
      assert (L : length (concat items ++ RPAR :: rest)
                  < length (LPAR :: v ++ RPAR :: concat items ++ RPAR :: rest)).
      { simpl. rewrite !length_app. simpl. rewrite !length_app. simpl. lia. }
      destruct fuel as [|fuel]; [simpl in Hlen; lia |].
      rewrite rep_loop_unfold. cbn [below].
      rewrite dir_body_nested with (x := x); auto.
      apply Nat.ltb_lt in L as L'. rewrite L'. apply IH; auto.
      simpl in Hlen, L. lia.
Qed.

Lemma stage_dir_match_len (items : list str) (rest : str) :
  Forall dir_item items ->
  match_len false App.stage_dir_pat None (LPAR :: concat items ++ RPAR :: rest)
  = Some (length (LPAR :: concat items ++ RPAR :: rest) - length (lstrip rest)).
Proof.
  intros Hit. unfold match_len, App.stage_dir_pat.
  cbn [exec at_bol one]. replace (LPAR =? LPAR)%N with true by reflexivity.
  unfold Star at 1. cbn [exec].
  apply star_items_greedy; auto.
  intros q. cbn [one]. replace (RPAR =? RPAR)%N with true by reflexivity.
  now apply star_ws_greedy.
Qed.

Lemma clean_stage_direction (items : list str) (rest : str) :
  Forall dir_item items ->
  App._clean_stage_dirs_start (LPAR :: concat items ++ RPAR :: rest) = strip rest.
Proof.
  intros Hit. unfold App._clean_stage_dirs_start, re_sub. cbv zeta.
  rewrite <- (strip_lstrip rest). f_equal.
  cbn [sub_go]. rewrite (stage_dir_match_len _ Hit).
  destruct (lstrip_split rest) as (ws & E & _).
  assert (Hr : length rest = length ws + length (lstrip rest))
    by (rewrite E at 1; apply length_app).
  match goal with
  | |- context [length (LPAR :: ?t) - ?b] =>
      assert (Hn : length (LPAR :: t) - b
                   = S (length (concat items ++ RPAR :: ws)))
        by (cbn [length]; rewrite !length_app; cbn [length]; lia);
      rewrite Hn
  end.
  cbv beta iota. unfold App.stage_dir_pat. rewrite sub_go_bol_after.
  match goal with
  | |- context [skipn _ ?s] =>
      assert (Hs : s = (concat items ++ RPAR :: ws) ++ lstrip rest)
        by (rewrite <- app_assoc; simpl; now rewrite <- E);
      rewrite Hs
  end.
  rewrite skipn_app, skipn_all, Nat.sub_diag. reflexivity.
Qed.

(** C6: the line "MARIO: (sorridendo) Ciao" gives the single block of
    MARIO with the text "Ciao".  A parenthetical at the very start, made of
    characters other than parentheses and of parentheticals nested one level
    deep, goes with the whitespace after it, whatever follows; a text that
    does not start with a parenthesis is only stripped, its parentheticals
    staying where they are. *)
Theorem leading_stage_direction :
  App.parse_script_from_pdf [Some (lit "MARIO: (sorridendo) Ciao")]
  = [Block (lit "MARIO") (lit "Ciao")]
  /\ App._clean_stage_dirs_start (lit "(sorridendo, (piano) a parte)   Ciao")
     = lit "Ciao"
  /\ App._clean_stage_dirs_start (lit "Ciao (sorridendo) a tutti (ride)")
     = lit "Ciao (sorridendo) a tutti (ride)"
  /\ (forall items rest, Forall dir_item items ->
        App._clean_stage_dirs_start (LPAR :: concat items ++ RPAR :: rest)
        = strip rest)
  /\ (forall s, startswith s (lit "(") = false ->
                App._clean_stage_dirs_start s = strip s).
Proof.
  split; [vm_compute; reflexivity |].
  split; [vm_compute; reflexivity |].
  split; [vm_compute; reflexivity |].
  split; [apply clean_stage_direction | apply clean_without_paren].
Qed.

(** ** The two copies of the parser *)

Lemma fold_left_ext_eq {A B : Type} (f g : A -> B -> A) :
  (forall a b, f a b = g a b) ->
  forall l a, fold_left f l a = fold_left g l a.
Proof.
  intros H. induction l as [|b l IH]; intros a; simpl; auto.
  now rewrite H, IH.
Qed.

Lemma old_preclean_text (t : str) : AppOld._preclean_text t = App._preclean_text t.
Proof. reflexivity. Qed.

Lemma old_is_section_heading (l : str) :
  AppOld._is_section_heading l = App._is_section_heading l.
Proof. reflexivity. Qed.

Lemma old_clean_stage_dirs_start (s : str) :
  AppOld._clean_stage_dirs_start s = App._clean_stage_dirs_start s.
Proof. reflexivity. Qed.

Lemma old_flush (st : pstate) : AppOld.flush st = App.flush st.
Proof. reflexivity. Qed.

Lemma old_loop_body (st : pstate) (raw_line : str) :
  AppOld.loop_body st raw_line = App.loop_body st raw_line.
Proof. reflexivity. Qed.

Lemma old_compact_step (compact : list block) (b : block) :
  AppOld.compact_step compact b = App.compact_step compact b.
Proof. reflexivity. Qed.

Lemma old_segment (t : str) : AppOld.segment t = App.segment t.
Proof.
  unfold AppOld.segment, App.segment.
  etransitivity; [apply (f_equal blocks), old_flush |].
  apply (f_equal (fun st => blocks (App.flush st))).
  apply fold_left_ext_eq. apply old_loop_body.
Qed.

Lemma old_compaction (bs : list block) : AppOld.compaction bs = App.compaction bs.
Proof.
  unfold AppOld.compaction, App.compaction.
  apply fold_left_ext_eq. apply old_compact_step.
Qed.

(** C10: the parser of [app.py] and the parser of [app_old.py] return the
    same blocks for every sequence of page texts. *)
Theorem parsers_agree (extracted : list (option str)) :
  App.parse_script_from_pdf extracted = AppOld.parse_script_from_pdf extracted.
Proof.
  unfold App.parse_script_from_pdf, AppOld.parse_script_from_pdf. cbv zeta.
  symmetry.
  etransitivity; [apply old_compaction |].
  apply (f_equal App.compaction).
  etransitivity; [apply old_segment |].
  apply (f_equal App.segment).
  apply old_preclean_text.
Qed.

(** ** The theorems at concrete scripts *)


Lemma parse_no_adjacent_scena_witness :
  App.parse_script_from_pdf [Some (lit "SCENA 1" ++ [NL] ++ lit "MARIO: Ciao")]
  = [] ++ Block SCENA (lit "SCENA 1") :: Block (lit "MARIO") (lit "Ciao") :: []
  /\ ~ (character (Block SCENA (lit "SCENA 1")) = SCENA
        /\ character (Block (lit "MARIO") (lit "Ciao")) = SCENA)
  /\ App.compact_step ([] ++ [Block SCENA (lit "SCENA 1")])
       (Block SCENA (lit "(Buio in sala)"))
     = [] ++ [Block SCENA (strip (lit "SCENA 1" ++ [NL] ++ lit "(Buio in sala)"))].
Proof.
  assert (E : App.parse_script_from_pdf
                [Some (lit "SCENA 1" ++ [NL] ++ lit "MARIO: Ciao")]
              = [] ++ Block SCENA (lit "SCENA 1")
                   :: Block (lit "MARIO") (lit "Ciao") :: [])
    by (vm_compute; reflexivity).
  destruct (parse_no_adjacent_scena
              [Some (lit "SCENA 1" ++ [NL] ++ lit "MARIO: Ciao")]) as [H1 H2].
  split; [exact E | split].
  - exact (H1 _ _ _ _ E).
  - apply (H2 [] (Block SCENA (lit "SCENA 1")) (Block SCENA (lit "(Buio in sala)")));
      reflexivity.
Defined.

Lemma heading_line_witness :
  strip (lit "  Scena 2  ") <> []
  /\ App._is_section_heading (strip (lit "  Scena 2  ")) = true
  /\ App._is_section_heading (lit "sCENA 2") = true
  /\ App.loop_body (PState [] (Some (lit "MARIO")) [lit "Ciao"]) (lit "  Scena 2  ")
     = PState [Block (lit "MARIO") (lit "Ciao"); Block SCENA (lit "Scena 2")]
              None [].
Proof.
  assert (Hne : strip (lit "  Scena 2  ") <> []) by (vm_compute; discriminate).
  assert (Hh : App._is_section_heading (strip (lit "  Scena 2  ")) = true)
    by (vm_compute; reflexivity).
  destruct (heading_line (PState [] (Some (lit "MARIO")) [lit "Ciao"])
              (lit "  Scena 2  ") Hne) as (_ & Hci & _ & H).
  split; [exact Hne | split; [exact Hh | split]].
  - rewrite (Hci (lit "sCENA 2") eq_refl). exact Hh.
  - exact (proj2 (H Hh)).
Defined.

Lemma leading_stage_direction_witness :
  startswith (lit "Ciao (ride) a tutti") (lit "(") = false
  /\ App._clean_stage_dirs_start (lit "Ciao (ride) a tutti")
     = strip (lit "Ciao (ride) a tutti")
  /\ Forall dir_item [lit "a"; LPAR :: lit "b" ++ [RPAR]; lit "c"]
  /\ App._clean_stage_dirs_start
       (LPAR :: concat [lit "a"; LPAR :: lit "b" ++ [RPAR]; lit "c"]
             ++ RPAR :: lit "  Ciao")
     = strip (lit "  Ciao").
Proof.
  assert (H : startswith (lit "Ciao (ride) a tutti") (lit "(") = false)
    by (vm_compute; reflexivity).
  assert (F : Forall dir_item [lit "a"; LPAR :: lit "b" ++ [RPAR]; lit "c"]).
  { repeat constructor; try discriminate.
    simpl. intros [E | []]. discriminate. }
  destruct leading_stage_direction as (_ & _ & _ & G1 & G2).
  split; [exact H | split; [exact (G2 _ H) | split; [exact F |]]].
  exact (G1 _ (lit "  Ciao") F).
Defined.

Lemma blank_line_paragraph_break_witness :
  App.loop_body (PState [] (Some (lit "MARIO")) ([] ++ [lit "Ciao"])) (lit "  ")
  = append_line (PState [] (Some (lit "MARIO")) ([] ++ [lit "Ciao"])) []
  /\ App.loop_body (PState [] (Some (lit "MARIO")) ([lit "Ciao"] ++ [[]])) (lit "  ")
     = PState [] (Some (lit "MARIO")) ([lit "Ciao"] ++ [[]])
  /\ App.loop_body (PState [] None []) (lit "  ") = PState [] None [].
Proof.
  destruct blank_line_paragraph_break as (_ & H1 & H2 & H3).
  split; [| split].
  - apply (H1 (PState [] (Some (lit "MARIO")) ([] ++ [lit "Ciao"])) (lit "  ")
              [] (lit "Ciao")); [reflexivity | reflexivity | reflexivity |].
    vm_compute. discriminate.
  - apply (H2 (PState [] (Some (lit "MARIO")) ([lit "Ciao"] ++ [[]])) (lit "  ")
              [lit "Ciao"]); reflexivity.
  - apply (H3 (PState [] None []) (lit "  ")); [reflexivity |].
    left. reflexivity.
Defined.

Lemma stray_line_is_sentinel_witness :
  App.loop_body App.init (lit " una sera d'estate ")
  = PState (blocks App.init ++ [Block SCENA (strip (lit " una sera d'estate "))])
           (current_name App.init) (current_lines App.init).
Proof.
  apply (stray_line_is_sentinel App.init (lit " una sera d'estate ")).
  - vm_compute. discriminate.
  - vm_compute. reflexivity.
  - vm_compute. reflexivity.
  - vm_compute. reflexivity.
  - reflexivity.
Defined.

Lemma speaker_without_text_witness :
  current_lines (App.loop_body App.init (lit "MARIO: (ride)")) = []
  /\ blocks (App.loop_body App.init (lit "MARIO: (ride)")) = blocks (App.flush App.init)
  /\ blocks (App.flush (App.loop_body App.init (lit "MARIO: (ride)")))
     = blocks (App.flush App.init)
  /\ App.parse_script_from_pdf [Some (lit "MARIO: (ride)")] = [].
Proof.
  apply (speaker_without_text App.init (lit "MARIO: (ride)")
           (m := [("what"%string, lit "(ride)"); ("who"%string, lit "MARIO")])).
  - vm_compute. discriminate.
  - vm_compute. reflexivity.
  - vm_compute. reflexivity.
  - vm_compute. reflexivity.
Defined.

(** * Further properties of the code *)

(** ** Stripping *)

Lemma lstrip_fixed (s : str) : head_inked s -> lstrip s = s.
Proof. destruct s as [|c t]; simpl; auto. now intros ->. Qed.

Lemma rstrip_fixed (s : str) : head_inked (rev s) -> rstrip s = s.
Proof.
  intros H. unfold rstrip. rewrite (lstrip_fixed _ H). apply rev_involutive.
Qed.

Lemma head_inked_prefix (a b : str) : head_inked (a ++ b) -> head_inked a.
Proof. destruct a; simpl; auto. Qed.

Lemma rstrip_ends (s : str) : head_inked (rev (rstrip s)).
Proof. unfold rstrip. rewrite rev_involutive. apply lstrip_head. Qed.

Lemma rstrip_head (s : str) : head_inked s -> head_inked (rstrip s).
Proof.
  intros H. unfold rstrip.
  destruct (lstrip_split (rev s)) as (ws & E & _).
  apply (f_equal (@rev char)) in E. rewrite rev_involutive, rev_app_distr in E.
  rewrite E in H. now apply head_inked_prefix in H.
Qed.

Lemma strip_head (s : str) : head_inked (strip s).
Proof. apply rstrip_head, lstrip_head. Qed.

Lemma strip_ends (s : str) : head_inked (rev (strip s)).
Proof. apply rstrip_ends. Qed.

Lemma strip_idem (s : str) : strip (strip s) = strip s.
Proof.
  unfold strip at 1. rewrite (lstrip_fixed _ (strip_head s)).
  apply rstrip_fixed, strip_ends.
Qed.

Lemma strip_infix (s : str) : exists a b, s = a ++ strip s ++ b.
Proof.
  destruct (lstrip_split s) as (ws & E & _).
  destruct (lstrip_split (rev (lstrip s))) as (ws' & E' & _).
  apply (f_equal (@rev char)) in E'. rewrite rev_involutive, rev_app_distr in E'.
  exists ws, (rev ws'). unfold strip, rstrip. now rewrite <- E'.
Qed.

(** ** Invariants of the blocks *)

Section BlockInvariant.

Variable P : block -> Prop.
Hypothesis P_flush : forall n ls,
  nonempty n = true -> nonempty (strip (join [NL] ls)) = true ->
  P (Block n (strip (join [NL] ls))).
Hypothesis P_line : forall raw,
  nonempty (strip raw) = true -> P (Block SCENA (strip raw)).
Hypothesis P_merge : forall l b,
  P l -> P b -> P (Block (character l) (strip (text l ++ [NL] ++ text b))).

Lemma flush_keeps (st : pstate) :
  Forall P (blocks st) -> Forall P (blocks (App.flush st)).
Proof.
  intros H. unfold App.flush. cbn [blocks].
  destruct (current_name st) as [n|]; cbn [truthy andb name_of]; auto.
  destruct (nonempty n) eqn:En; cbn [andb]; auto.
  destruct (nonempty (current_lines st)); auto.
  destruct (nonempty (strip (join [NL] (current_lines st)))) eqn:E; auto.
  apply Forall_snoc; auto.
Qed.

Lemma loop_body_keeps (st : pstate) (raw_line : str) :
  Forall P (blocks st) -> Forall P (blocks (App.loop_body st raw_line)).
Proof.
  intros H. unfold App.loop_body. cbv zeta.
  destruct (nonempty (strip raw_line)) eqn:E; cbn [negb].
  - pose proof (P_line _ E) as Hline.
    destruct (App._is_section_heading _).
    { cbn [emit blocks]. apply Forall_snoc; auto using flush_keeps. }
    destruct (re_match _ _ _).
    { cbn [blocks]. now apply flush_keeps. }
    repeat case_if; cbn [emit append_line blocks];
      auto using Forall_snoc, flush_keeps.
  - case_if; auto.
Qed.

Lemma compact_step_keeps (compact : list block) (b : block) :
  Forall P compact -> P b -> Forall P (App.compact_step compact b).
Proof.
  intros Hc Hb. unfold App.compact_step.
  destruct (rev compact) as [|l before] eqn:E; [now apply Forall_snoc |].
  case_if; [| now apply Forall_snoc].
  apply rev_cons_snoc in E. subst compact.
  apply Forall_app in Hc. destruct Hc as [Hpre Hl].
  inversion Hl; subst. apply Forall_snoc; auto.
Qed.

Lemma parse_keeps (extracted : list (option str)) :
  Forall P (App.parse_script_from_pdf extracted).
Proof.
  unfold App.parse_script_from_pdf, App.compaction, App.segment. cbv zeta.
  assert (G : forall bs acc, Forall P acc -> Forall P bs ->
                             Forall P (fold_left App.compact_step bs acc)).
  { induction bs as [|b bs IH]; simpl; intros acc Ha Hb; auto.
    inversion Hb; subst. apply IH; auto. now apply compact_step_keeps. }
  apply G; [constructor |].
  apply flush_keeps.
  apply (fold_left_inv (fun st => Forall P (blocks st))).
  - intros; now apply loop_body_keeps.
  - constructor.
Qed.

End BlockInvariant.

(** X1: every block that the parser returns has a character that is not
    the empty string. *)
Theorem parse_character_nonempty (extracted : list (option str)) :
  Forall (fun b => character b <> []) (App.parse_script_from_pdf extracted).
Proof.
  apply parse_keeps.
  - intros n ls Hn _. cbn [character]. now apply nonempty_true.
  - intros raw _. cbn [character]. discriminate.
  - intros l b Hl _. exact Hl.
Qed.

(** X2: the text of every block that the parser returns is stripped: it
    neither starts nor ends with whitespace. *)
Theorem parse_text_stripped (extracted : list (option str)) :
  Forall (fun b => strip (text b) = text b
                   /\ head_inked (text b) /\ head_inked (rev (text b)))
         (App.parse_script_from_pdf extracted).
Proof.
  apply parse_keeps; intros; cbn [text];
    auto using strip_idem, strip_head, strip_ends.
Qed.

(** ** What the compaction keeps *)

Lemma dialogue_app (a b : list block) : dialogue (a ++ b) = dialogue a ++ dialogue b.
Proof. apply filter_app. Qed.

Lemma compact_step_dialogue (compact : list block) (b : block) :
  dialogue (App.compact_step compact b) = dialogue compact ++ dialogue [b].
Proof.
  unfold App.compact_step.
  destruct (rev compact) as [|l before] eqn:E; [apply dialogue_app |].
  fold (is_scena b). fold (is_scena l).
  destruct (is_scena b && is_scena l) eqn:C; [| apply dialogue_app].
  apply andb_true_iff in C. destruct C as [Cb Cl].
  apply rev_cons_snoc in E. subst compact.
  rewrite !dialogue_app. unfold dialogue at 2 4 5. simpl.
  unfold is_scena at 1. cbn [character]. fold (is_scena l).
  rewrite Cb, Cl. simpl. now rewrite !app_nil_r.
Qed.

Lemma compact_step_length (compact : list block) (b : block) :
  length (App.compact_step compact b) <= S (length compact).
Proof.
  unfold App.compact_step.
  destruct (rev compact) as [|l before] eqn:E.
  - rewrite length_app. simpl. lia.
  - case_if; rewrite length_app; simpl; [| lia].
    apply rev_cons_snoc in E. subst compact. rewrite length_app. simpl. lia.
Qed.

(** X3: the compaction leaves the dialogue blocks as they are and in their
    order: only sentinel blocks are merged. *)
Theorem compaction_keeps_dialogue (bs : list block) :
  dialogue (App.compaction bs) = dialogue bs.
Proof.
  unfold App.compaction.
  assert (G : forall l acc,
             dialogue (fold_left App.compact_step l acc)
             = dialogue acc ++ dialogue l).
  { induction l as [|b l IH]; intros acc; simpl.
    - now rewrite app_nil_r.
    - rewrite IH, compact_step_dialogue, <- app_assoc.
      f_equal. symmetry. apply (dialogue_app [b] l). }
  apply G.
Qed.

Lemma compaction_length (bs : list block) :
  length (App.compaction bs) <= length bs.
Proof.
  unfold App.compaction.
  assert (G : forall l acc,
             length (fold_left App.compact_step l acc) <= length acc + length l).
  { induction l as [|b l IH]; intros acc; simpl; [lia |].
    specialize (IH (App.compact_step acc b)).
    pose proof (compact_step_length acc b). lia. }
  apply (G bs []).
Qed.

(** X4: the compaction never returns more blocks than it is given, and a
    sequence without two neighbouring sentinel blocks comes back unchanged. *)
Theorem compaction_shrinks (bs : list block) :
  length (App.compaction bs) <= length bs
  /\ (no_adjacent_scena bs -> App.compaction bs = bs).
Proof.
  split.
  - apply compaction_length.
  - intros H. apply (compaction_fixed_from bs []). exact H.
Qed.

(** ** What the normalizer removes *)

Lemma rep_loop_total {A : Type} body lo hi (k : cont A) :
  (forall p s cs, k p s cs <> None) ->
  forall fuel n prev s cs,
    lo <= n -> rep_loop body lo hi k fuel n prev s cs <> None.
Proof.
  intros Hk fuel n prev s cs Hlo.
  assert (Hstop : (if lo <=? n then k prev s cs else None) <> None).
  { apply Nat.leb_le in Hlo. rewrite Hlo. apply Hk. }
  destruct fuel as [|fuel]; [exact Hstop |].
  rewrite rep_loop_unfold. destruct (below n hi); [| exact Hstop].
  unfold or_else.
  match goal with |- match ?e with _ => _ end <> _ => destruct e end;
    [discriminate | exact Hstop].
Qed.

Lemma plus_one_matches {A : Type} (p : char -> bool) body hi (k : cont A)
    (c : char) (t : str) prev cs :
  (forall pr s cs' k', body pr s cs' k' = one p s cs' k') ->
  below 0 hi = true -> p c = true ->
  (forall q s' cs', k q s' cs' <> None) ->
  rep_loop body 1 hi k (length (c :: t)) 0 prev (c :: t) cs <> None.
Proof.
  intros Hb Hhi Hp Hk. cbn [length]. rewrite rep_loop_unfold, Hb, Hhi.
  cbn [one]. rewrite Hp.
  assert (L : (length t <? length (c :: t)) = true)
    by (apply Nat.ltb_lt; simpl; lia).
  rewrite L. unfold or_else.
  assert (H : rep_loop body 1 hi k (length t) 1 (Some c) t cs <> None)
    by (apply rep_loop_total; auto).
  destruct (rep_loop body 1 hi k (length t) 1 (Some c) t cs);
    [discriminate | congruence].
Qed.

Lemma den_rep_nonempty (lo : nat) (hi : option nat) (r : re) (w : str) :
  (forall w', den r w' -> w' <> []) -> 1 <= lo -> den (Rep lo hi r) w -> w <> [].
Proof.
  intros Hr Hlo (ws & -> & Hws & Hlen).
  destruct Hws as [|x ws Hx _]; simpl in *; [lia |].
  apply Hr in Hx. destruct x; [congruence | discriminate].
Qed.

Lemma match_len_positive (ml : bool) (r : re) prev (s : str) :
  (forall w, den r w -> w <> []) ->
  match_len ml r prev s <> None ->
  exists n, match_len ml r prev s = Some (S n).
Proof.
  intros Hd H. destruct (match_len ml r prev s) as [[|n]|] eqn:E.
  - apply match_len_sound in E. destruct E as [E _]. apply Hd in E.
    now rewrite firstn_0 in E.
  - now exists n.
  - congruence.
Qed.

Lemma stars_match (prev : option char) (t : str) :
  exists n, match_len false App.stars_pat prev (STAR :: t) = Some (S n).
Proof.
  apply match_len_positive.
  - intros w Hw. eapply den_rep_nonempty; [| | exact Hw];
      [intros w' ->; discriminate | lia].
  - unfold match_len, App.stars_pat. cbn [exec].
    apply plus_one_matches with (p := N.eqb STAR); try reflexivity.
    discriminate.
Qed.

Lemma blanks_match (prev : option char) (c : char) (t : str) :
  in_cls false [CChr 9; CChr 11; CChr 12; CChr 160] c = true ->
  exists n, match_len false App.blanks_pat prev (c :: t) = Some (S n).
Proof.
  intros Hc. apply match_len_positive.
  - intros w Hw. eapply den_rep_nonempty; [| | exact Hw];
      [intros w' (x & -> & _); discriminate | lia].
  - unfold match_len, App.blanks_pat, Plus. cbn [exec].
    apply plus_one_matches
      with (p := in_cls false [CChr 9; CChr 11; CChr 12; CChr 160]);
      try reflexivity; auto.
    discriminate.
Qed.

Lemma sub_go_removes (ml : bool) (r : re) (repl : str) (p : char -> bool) :
  (forall prev c t, p c = true ->
     exists n, match_len ml r prev (c :: t) = Some (S n)) ->
  (forall c, In c repl -> p c = false) ->
  forall s prev skip c, In c (sub_go ml r repl prev s skip) -> p c = false.
Proof.
  intros Hm Hr. induction s as [|x t IH]; intros prev skip c; simpl.
  - destruct skip;
      [destruct (match_len ml r prev []); [apply Hr | intros []] | intros []].
  - destruct skip as [|n]; [| apply IH].
    destruct (p x) eqn:Px.
    + destruct (Hm prev x t Px) as [n ->]. rewrite in_app_iff.
      intros [H | H]; [auto | eapply IH; eauto].
    + destruct (match_len ml r prev (x :: t)) as [[|n]|]; simpl;
        rewrite ?in_app_iff; simpl; intros H;
        repeat match goal with
               | H : _ \/ _ |- _ => destruct H as [H | H]
               end; subst; auto; eapply IH; eauto.
Qed.

Lemma replace_one_removes (x : char) (new : str) :
  ~ In x new -> forall s skip, ~ In x (replace_go [x] new s skip).
Proof.
  intros Hn. induction s as [|c t IH]; intros skip; simpl; [tauto |].
  destruct skip as [|n]; [| apply IH].
  destruct (N.eqb_spec x c) as [-> | Hne]; simpl.
  - rewrite in_app_iff. intros [H | H]; [auto | now apply IH in H].
  - intros [H | H]; [congruence | now apply IH in H].
Qed.

Lemma re_sub_in (ml : bool) (r : re) (repl s : str) (x : char) :
  In x (re_sub ml r repl s) -> In x s \/ In x repl.
Proof. apply sub_go_in. Qed.

Lemma replace_in (s old new : str) (x : char) :
  In x (replace s old new) -> In x s \/ In x new.
Proof. apply replace_go_in. Qed.

(** X5: the normalized text has no carriage return, no asterisk and no tab,
    vertical tab, form feed or no-break space: the steps that remove them
    remove them all and no later step brings one back. *)
Theorem preclean_removes (t : str) (c : char) :
  In c (App._preclean_text t) ->
  c <> CR /\ c <> STAR /\ c <> 9%N /\ c <> 11%N /\ c <> 12%N /\ c <> 160%N.
Proof.
  unfold App._preclean_text. cbv zeta.
  set (t1 := replace t [CR] []).
  set (t2 := re_sub false App.stars_pat [] t1).
  set (t3 := re_sub true App.lead_underscores_pat [] t2).
  set (t4 := re_sub true App.trail_underscores_pat [] t3).
  set (t5 := replace (replace t4 [BSLASH; LPAR] [LPAR]) [BSLASH; RPAR] [RPAR]).
  set (t6 := re_sub false App.colon_pat (lit ": ") t5).
  intros H.
  assert (Hb : in_cls false [CChr 9; CChr 11; CChr 12; CChr 160] c = false).
  { revert H. unfold re_sub. apply sub_go_removes.
    - intros prev x s Hx. now apply blanks_match.
    - intros x [<- | []]. reflexivity. }
  assert (H2 : c = CR \/ c = STAR -> In c t2).
  { intros Hc.
    apply re_sub_in in H. destruct H as [H | [H | []]];
      [| destruct Hc; subst; discriminate].
    apply re_sub_in in H. destruct H as [H | [H | [H | []]]];
      [| destruct Hc; subst; discriminate | destruct Hc; subst; discriminate].
    apply replace_in in H. destruct H as [H | [H | []]];
      [| destruct Hc; subst; discriminate].
    apply replace_in in H. destruct H as [H | [H | []]];
      [| destruct Hc; subst; discriminate].
    apply re_sub_in in H. destruct H as [H | []].
    apply re_sub_in in H. destruct H as [H | []]. exact H. }
  split; [| split].
  - intros ->. specialize (H2 (or_introl eq_refl)).
    apply re_sub_in in H2. destruct H2 as [H2 | []].
    revert H2. apply replace_one_removes. tauto.
  - intros ->. specialize (H2 (or_intror eq_refl)).
    assert (F : (STAR =? STAR)%N = false); [| discriminate].
    revert H2. unfold t2, re_sub.
    apply sub_go_removes with (p := N.eqb STAR).
    + intros prev x s Hx. apply N.eqb_eq in Hx. subst x. apply stars_match.
    + intros x [].
  - repeat split; intros ->; discriminate.
Qed.

(** ** A document without ink *)

Lemma inkless_iff (s : str) :
  has_ink s = false <-> forall c, In c s -> isspace c = true.
Proof.
  unfold has_ink. split.
  - intros H c Hc. destruct (isspace c) eqn:E; auto.
    assert (T : existsb (fun c => negb (isspace c)) s = true)
      by (apply existsb_exists; exists c; rewrite E; auto).
    congruence.
  - intros H. destruct (existsb _ s) eqn:E; auto.
    apply existsb_exists in E. destruct E as (c & Hc & Hn).
    rewrite (H c Hc) in Hn. discriminate.
Qed.

Lemma re_sub_inkless (ml : bool) (r : re) (repl s : str) :
  has_ink repl = false -> has_ink s = false ->
  has_ink (re_sub ml r repl s) = false.
Proof.
  rewrite !inkless_iff. intros Hr Hs c Hc.
  apply re_sub_in in Hc. destruct Hc; auto.
Qed.

Lemma replace_go_id (old new : str) (x : char) :
  In x old -> forall s, ~ In x s -> replace_go old new s 0 = s.
Proof.
  intros Hx. induction s as [|c t IH]; intros Hs; simpl; auto.
  destruct (startswith (c :: t) old) eqn:E.
  - apply startswith_prefix in E. destruct E as [b E].
    exfalso. apply Hs. rewrite E. apply in_or_app. now left.
  - rewrite IH; auto. intros H. apply Hs. now right.
Qed.

Lemma inkless_not_in (s : str) (x : char) :
  has_ink s = false -> isspace x = false -> ~ In x s.
Proof.
  intros Hs Hx H. rewrite inkless_iff in Hs. rewrite (Hs x H) in Hx.
  discriminate.
Qed.

Lemma preclean_inkless (t : str) :
  has_ink t = false -> has_ink (App._preclean_text t) = false.
Proof.
  intros Ht. unfold App._preclean_text. cbv zeta.
  assert (H1 : has_ink (replace t [CR] []) = false).
  { rewrite inkless_iff in *. intros c Hc.
    apply replace_in in Hc. destruct Hc as [Hc | []]. auto. }
  set (t1 := replace t [CR] []) in *.
  assert (H4 : has_ink
                 (re_sub true App.trail_underscores_pat []
                    (re_sub true App.lead_underscores_pat []
                       (re_sub false App.stars_pat [] t1))) = false)
    by (repeat apply re_sub_inkless; auto).
  set (t4 := re_sub true App.trail_underscores_pat [] _) in *.
  assert (E5 : replace (replace t4 [BSLASH; LPAR] [LPAR]) [BSLASH; RPAR] [RPAR]
               = t4).
  { unfold replace.
    assert (Hb : ~ In BSLASH t4) by now apply inkless_not_in.
    rewrite (@replace_go_id [BSLASH; LPAR] [LPAR] BSLASH (or_introl eq_refl) t4 Hb).
    exact (@replace_go_id [BSLASH; RPAR] [RPAR] BSLASH (or_introl eq_refl) t4 Hb). }
  rewrite E5.
  assert (E6 : re_sub false App.colon_pat (lit ": ") t4 = t4).
  { unfold re_sub. apply sub_go_id with (x := COLON); [apply colon_has |].
    now apply inkless_not_in. }
  rewrite E6. now apply re_sub_inkless.
Qed.

Lemma join_inkless (pages : list str) :
  Forall (fun p => has_ink p = false) pages -> has_ink (join [NL] pages) = false.
Proof.
  induction 1 as [|p pages Hp _ IH]; [reflexivity |].
  cbn [join]. destruct pages as [|q pages]; auto.
  fold (join [NL] (q :: pages)).
  rewrite !has_ink_app, Hp, IH. reflexivity.
Qed.

Lemma splitlines_inkless (s cur : str) (after_cr : bool) :
  has_ink cur = false -> has_ink s = false ->
  Forall (fun l => has_ink l = false) (splitlines_go cur after_cr s).
Proof.
  revert cur after_cr. induction s as [|c t IH]; intros cur after_cr Hc Hs.
  - simpl. destruct cur; repeat constructor; auto.
  - simpl in Hs. apply orb_false_iff in Hs. destruct Hs as [Hx Ht].
    cbn [splitlines_go]. destruct (after_cr && (c =? NL)%N); auto.
    destruct (is_linebreak c).
    + constructor; auto.
    + apply IH; auto. now rewrite has_ink_app, Hc; simpl; rewrite Hx.
Qed.

Lemma loop_body_blank (raw_line : str) :
  has_ink raw_line = false -> App.loop_body App.init raw_line = App.init.
Proof.
  intros H. unfold App.loop_body. cbv zeta.
  now rewrite strip_nonempty, H.
Qed.

Lemma fold_blank_lines (ls : list str) :
  Forall (fun l => has_ink l = false) ls ->
  fold_left App.loop_body ls App.init = App.init.
Proof.
  induction 1 as [|l ls Hl _ IH]; simpl; auto.
  now rewrite loop_body_blank.
Qed.

(** X6: a document whose pages hold nothing but whitespace (or no text at
    all) gives no block. *)
Theorem blank_document (extracted : list (option str)) :
  Forall (fun p => has_ink (page_text p) = false) extracted ->
  App.parse_script_from_pdf extracted = [].
Proof.
  intros H. unfold App.parse_script_from_pdf, App.segment. cbv zeta.
  rewrite fold_blank_lines; [reflexivity |].
  apply splitlines_inkless; [reflexivity |].
  apply preclean_inkless, join_inkless.
  now apply Forall_map.
Qed.

(** ** What the cleaning of stage directions leaves *)

Lemma re_sub_bol_suffix (r : re) (s : str) :
  exists k, re_sub false (Bol $$ r) [] s = skipn k s.
Proof.
  unfold re_sub. destruct s as [|c t]; cbn [sub_go].
  - exists 0. now destruct (match_len false (Bol $$ r) None []).
  - destruct (match_len false (Bol $$ r) None (c :: t)) as [[|n]|];
      rewrite sub_go_bol_after.
    + now exists 0.
    + now exists (S n).
    + now exists 0.
Qed.

Lemma clean_substring (s : str) : substring (App._clean_stage_dirs_start s) s.
Proof.
  unfold App._clean_stage_dirs_start. cbv zeta.
  unfold App.stage_dir_pat.
  destruct (re_sub_bol_suffix
              (Lit LPAR
               $$ Star (Alt (Cls true [CChr LPAR; CChr RPAR])
                            (Lit LPAR $$ Star (Cls true [CChr RPAR]) $$ Lit RPAR))
               $$ Lit RPAR $$ Star Ws) s) as [k ->].
  destruct (strip_infix (skipn k s)) as (a & b & E).
  exists (firstn k s ++ a), b.
  rewrite <- app_assoc, <- E. symmetry. apply firstn_skipn.
Qed.

(** X7: the cleaning of a dialogue line only takes text away at the two
    ends: its result is a piece of the line as it was, and it is stripped. *)
Theorem clean_is_piece (s : str) :
  substring (App._clean_stage_dirs_start s) s
  /\ strip (App._clean_stage_dirs_start s) = App._clean_stage_dirs_start s.
Proof.
  split.
  - apply clean_substring.
  - unfold App._clean_stage_dirs_start. cbv zeta. apply strip_idem.
Qed.


(** ** What the groups of a match hold *)

Lemma substring_refl (s : str) : substring s s.
Proof. exists [], []. now rewrite app_nil_r. Qed.

Lemma substring_trans (a b c : str) : substring a b -> substring b c -> substring a c.
Proof.
  intros (x & y & ->) (u & v & ->). exists (u ++ x), (y ++ v).
  now rewrite <- !app_assoc.
Qed.

Lemma substring_app_l (p a b : str) : substring p a -> substring p (a ++ b).
Proof. intros (x & y & ->). exists x, (y ++ b). now rewrite <- !app_assoc. Qed.

Lemma substring_app_r (p a b : str) : substring p b -> substring p (a ++ b).
Proof. intros (x & y & ->). exists (a ++ x), y. now rewrite <- !app_assoc. Qed.

Lemma substring_in (p s : str) (c : char) : substring p s -> In c p -> In c s.
Proof. intros (x & y & ->) H. apply in_or_app. right. apply in_or_app. now left. Qed.

Lemma caps_from_refl G (w : str) (cs : caps) : caps_from G w cs cs.
Proof. intros n v H. now left. Qed.

Lemma caps_from_trans G (w1 w2 : str) (cs cs1 cs2 : caps) :
  caps_from G w1 cs cs1 -> caps_from G w2 cs1 cs2 ->
  caps_from G (w1 ++ w2) cs cs2.
Proof.
  intros H1 H2 n v H. apply H2 in H. destruct H as [H | [Hg Hs]].
  - apply H1 in H. destruct H as [H | [Hg Hs]]; [now left |].
    right. split; auto. now apply substring_app_l.
  - right. split; auto. now apply substring_app_r.
Qed.

Lemma caps_from_weaken (G G' : string -> str -> Prop) (w : str) (cs cs' : caps) :
  (forall n v, G n v -> G' n v) -> caps_from G w cs cs' -> caps_from G' w cs cs'.
Proof. intros HG H n v Hin. apply H in Hin. destruct Hin as [|[]]; auto. Qed.

Section CapsSoundness.

Context {A : Type}.
Variable multiline : bool.

Lemma rep_loop_caps body (L : str -> Prop) G lo hi (k : cont A) :
  sound_caps body L G ->
  forall fuel n prev s cs x,
    rep_loop body lo hi k fuel n prev s cs = Some x ->
    exists ws p' s' cs',
      s = concat ws ++ s' /\ Forall L ws /\ lo <= n + length ws
      /\ (forall h, hi = Some h -> n <= h -> n + length ws <= h)
      /\ caps_from G (concat ws) cs cs' /\ k p' s' cs' = Some x.
Proof.
  intros Hb.
  assert (Hstop : forall n prev s cs x,
            (if lo <=? n then k prev s cs else None) = Some x ->
            exists ws p' s' cs',
              s = concat ws ++ s' /\ Forall L ws /\ lo <= n + length ws
              /\ (forall h, hi = Some h -> n <= h -> n + length ws <= h)
              /\ caps_from G (concat ws) cs cs' /\ k p' s' cs' = Some x).
  { intros n prev s cs x H. destruct (lo <=? n) eqn:E; [| discriminate].
    apply Nat.leb_le in E. exists [], prev, s, cs. simpl.
    repeat split; auto; [lia | intros; lia | apply caps_from_refl]. }
  induction fuel as [|fuel IH]; intros n prev s cs x H; simpl in H.
  - exact (Hstop _ _ _ _ _ H).
  - destruct (below n hi) eqn:Ebelow; [| exact (Hstop _ _ _ _ _ H)].
    unfold or_else in H.
    match type of H with
    | match ?e with _ => _ end = _ => destruct e as [y|] eqn:E
    end; [| exact (Hstop _ _ _ _ _ H)].
    injection H as ->.
    apply Hb in E. destruct E as (w & p1 & s1 & cs1 & -> & Hw & Hc & Hk).
    destruct (length s1 <? length (w ++ s1)); [| discriminate].
    apply IH in Hk.
    destruct Hk as (ws & p2 & s2 & cs2 & -> & Hws & Hlo & Hhi & Hc2 & Hk).
    exists (w :: ws), p2, s2, cs2. simpl.
    rewrite <- app_assoc. repeat split; auto; [lia | |].
    + intros h Eh Hn. subst hi. cbn [below] in Ebelow.
      apply Nat.ltb_lt in Ebelow.
      specialize (Hhi h eq_refl). lia.
    + now apply caps_from_trans with cs1.
Qed.

Lemma exec_caps (r : re) :
  sound_caps (A := A) (exec multiline r) (denb r) (grp_den r).
Proof.
  induction r as [c | neg items | | | | r1 IH1 r2 IH2 | r1 IH1 r2 IH2
                 | lo hi r1 IH1 | name r1 IH1];
    intros prev s cs k x H; simpl in H.
  - apply one_sound in H. destruct H as (c0 & s' & -> & Hc & Hk).
    apply N.eqb_eq in Hc. subst c0. exists [c], (Some c), s', cs.
    repeat split; auto. apply caps_from_refl.
  - apply one_sound in H. destruct H as (c0 & s' & -> & Hc & Hk).
    exists [c0], (Some c0), s', cs. simpl. repeat split; eauto.
    apply caps_from_refl.
  - apply one_sound in H. destruct H as (c0 & s' & -> & Hc & Hk).
    exists [c0], (Some c0), s', cs. simpl. repeat split; auto.
    + exists c0. split; auto. apply negb_true_iff, N.eqb_neq in Hc. exact Hc.
    + apply caps_from_refl.
  - destruct (at_bol multiline prev); [| discriminate].
    exists [], prev, s, cs. repeat split; auto. apply caps_from_refl.
  - destruct (at_eol multiline s); [| discriminate].
    exists [], prev, s, cs. repeat split; auto. apply caps_from_refl.
  - apply IH1 in H. destruct H as (w1 & p1 & s1 & cs1 & -> & Hw1 & Hc1 & H).
    apply IH2 in H. destruct H as (w2 & p2 & s2 & cs2 & -> & Hw2 & Hc2 & H).
    exists (w1 ++ w2), p2, s2, cs2. rewrite <- app_assoc.
    repeat split; auto.
    + simpl. now exists w1, w2.
    + apply caps_from_trans with cs1.
      * eapply caps_from_weaken; [| exact Hc1]. simpl. auto.
      * eapply caps_from_weaken; [| exact Hc2]. simpl. auto.
  - unfold or_else in H.
    destruct (exec multiline r1 prev s cs k) as [y|] eqn:E.
    + injection H as ->. apply IH1 in E.
      destruct E as (w & p1 & s1 & cs1 & -> & Hw & Hc & Hk).
      exists w, p1, s1, cs1. simpl. repeat split; auto.
      eapply caps_from_weaken; [| exact Hc]. simpl. auto.
    + apply IH2 in H. destruct H as (w & p1 & s1 & cs1 & -> & Hw & Hc & Hk).
      exists w, p1, s1, cs1. simpl. repeat split; auto.
      eapply caps_from_weaken; [| exact Hc]. simpl. auto.
  - apply (rep_loop_caps (L := denb r1) (G := grp_den r1)) in H; auto.
    destruct H as (ws & p1 & s1 & cs1 & -> & Hws & Hlo & Hhi & Hc & Hk).
    exists (concat ws), p1, s1, cs1. repeat split; auto.
    simpl. exists ws. repeat split; auto.
    intros h Eh. apply (Hhi h Eh). lia.
  - apply IH1 in H. destruct H as (w & p1 & s1 & cs1 & -> & Hw & Hc & Hk).
    exists w, p1, s1. eexists. repeat split; eauto.
    intros n v [Hin | Hin].
    + right. injection Hin as <- <-.
      rewrite length_app.
      replace (length w + length s1 - length s1) with (length w) by lia.
      rewrite firstn_app, Nat.sub_diag, firstn_all. simpl. rewrite app_nil_r.
      split; [left; auto | apply substring_refl].
    + apply Hc in Hin. destruct Hin as [Hin | [Hg Hs]]; [now left |].
      right. simpl. auto.
Qed.

End CapsSoundness.

Lemma group_found (cs : caps) (name : string) :
  group cs name = [] \/ In (name, group cs name) cs.
Proof.
  induction cs as [|[n v] cs IH]; simpl; auto.
  destruct (String.eqb n name) eqn:E.
  - apply String.eqb_eq in E. subst. right. now left.
  - destruct IH; auto.
Qed.

(** A group of a match is empty or a word of that group of the pattern,
    taken from the text. *)
Lemma re_match_group (ml : bool) (r : re) (s : str) (m : caps) (name : string) :
  re_match ml r s = Some m ->
  group m name = []
  \/ (grp_den r name (group m name) /\ substring (group m name) s).
Proof.
  unfold re_match. intros H.
  apply exec_caps in H. destruct H as (w & p1 & s1 & cs1 & -> & Hw & Hc & Hk).
  injection Hk as ->.
  destruct (group_found m name) as [E | Hin]; [now left |].
  apply Hc in Hin. destruct Hin as [[] | [Hg Hs]].
  right. split; auto. now apply substring_app_l.
Qed.

(** ** Invariants of the line loop

    A property [P] of the blocks follows from a property [R] of the lines
    of the text and a property [Acc] of the open accumulator that every
    branch of the loop keeps. *)

Section LineInvariant.

Variable R : str -> Prop.
Variable P : block -> Prop.
Variable Acc : option str -> list str -> Prop.

Hypothesis Acc_none : Acc None [].
Hypothesis Acc_blank : forall n ls,
  Acc n ls -> nonempty ls = true -> str_eqb (last ls []) [] = false ->
  Acc n (ls ++ [[]]).
Hypothesis Acc_speaker : forall raw m,
  R raw -> nonempty (strip raw) = true ->
  re_match false App.speaker_pat (strip raw) = Some m ->
  Acc (Some (re_sub false App.spaces_pat (lit " ")
               (strip (re_sub false App.who_paren_pat [] (group m "who")))))
      (if nonempty (App._clean_stage_dirs_start (group m "what"))
       then [App._clean_stage_dirs_start (group m "what")] else []).
Hypothesis Acc_line : forall n ls raw,
  R raw -> Acc n ls -> truthy n = true ->
  nonempty (App._clean_stage_dirs_start (strip raw)) = true ->
  Acc n (ls ++ [App._clean_stage_dirs_start (strip raw)]).
Hypothesis P_flush : forall n ls,
  Acc (Some n) ls -> nonempty n = true -> nonempty ls = true ->
  nonempty (strip (join [NL] ls)) = true ->
  P (Block n (strip (join [NL] ls))).
Hypothesis P_line : forall raw,
  R raw -> nonempty (strip raw) = true -> P (Block SCENA (strip raw)).
Hypothesis P_merge : forall l b,
  P l -> P b -> character l = SCENA -> character b = SCENA ->
  P (Block (character l) (strip (text l ++ [NL] ++ text b))).

Lemma flush_inv (st : pstate) : line_inv P Acc st -> line_inv P Acc (App.flush st).
Proof.
  intros [Hb Ha]. unfold line_inv, App.flush. cbn [blocks current_name current_lines].
  split; auto.
  destruct (current_name st) as [n|]; cbn [truthy andb name_of]; auto.
  destruct (nonempty n) eqn:En; cbn [andb]; auto.
  destruct (nonempty (current_lines st)) eqn:El; auto.
  destruct (nonempty (strip (join [NL] (current_lines st)))) eqn:E; auto.
  apply Forall_snoc; auto.
Qed.

Lemma emit_inv (st : pstate) (b : block) :
  line_inv P Acc st -> P b -> line_inv P Acc (emit st b).
Proof.
  intros [Hb Ha] H. split; cbn [emit blocks current_name current_lines]; auto.
  now apply Forall_snoc.
Qed.

Lemma loop_body_inv (st : pstate) (raw_line : str) :
  R raw_line -> line_inv P Acc st -> line_inv P Acc (App.loop_body st raw_line).
Proof.
  intros Hr H. unfold App.loop_body. cbv zeta.
  destruct (nonempty (strip raw_line)) eqn:E; cbn [negb].
  - pose proof (P_line Hr E) as Hline.
    destruct (App._is_section_heading _).
    { apply emit_inv; auto using flush_inv. }
    destruct (re_match _ _ _) as [m|] eqn:Em.
    { destruct (flush_inv H) as [Hb _].
      split; cbn [blocks current_name current_lines]; [exact Hb |].
      now apply Acc_speaker with raw_line. }
    destruct (startswith _ _ && endswith _ _).
    { apply emit_inv; auto using flush_inv. }
    destruct (truthy (current_name st)) eqn:Et.
    + destruct (nonempty (App._clean_stage_dirs_start (strip raw_line))) eqn:E2; auto.
      destruct H as [Hb Ha].
      split; cbn [append_line blocks current_name current_lines]; auto.
    + now apply emit_inv.
  - destruct (truthy (current_name st)) eqn:Et; cbn [andb]; auto.
    destruct (nonempty (current_lines st)) eqn:El; cbn [andb]; auto.
    destruct (str_eqb (last (current_lines st) []) []) eqn:Es; cbn [negb]; auto.
    destruct H as [Hb Ha].
    split; cbn [append_line blocks current_name current_lines]; auto.
Qed.

Lemma segment_inv (t : str) :
  Forall R (splitlines t) -> Forall P (App.segment t).
Proof.
  intros H. unfold App.segment.
  assert (G : forall ls st, Forall R ls -> line_inv P Acc st ->
                            line_inv P Acc (fold_left App.loop_body ls st)).
  { induction ls as [|l ls IH]; simpl; intros st Hl Hs; auto.
    inversion Hl; subst. apply IH; auto. now apply loop_body_inv. }
  apply flush_inv, G; auto. split; [constructor | exact Acc_none].
Qed.

Lemma compact_step_inv (compact : list block) (b : block) :
  Forall P compact -> P b -> Forall P (App.compact_step compact b).
Proof.
  intros Hc Hb. unfold App.compact_step.
  destruct (rev compact) as [|l before] eqn:E; [now apply Forall_snoc |].
  destruct (str_eqb (character b) SCENA) eqn:E1; cbn [andb]; [| now apply Forall_snoc].
  destruct (str_eqb (character l) SCENA) eqn:E2; [| now apply Forall_snoc].
  apply str_eqb_eq in E1, E2.
  apply rev_cons_snoc in E. subst compact.
  apply Forall_app in Hc. destruct Hc as [Hpre Hl].
  inversion Hl; subst. apply Forall_snoc; auto.
Qed.

Lemma compaction_inv (bs : list block) :
  Forall P bs -> Forall P (App.compaction bs).
Proof.
  unfold App.compaction.
  assert (G : forall bs acc, Forall P acc -> Forall P bs ->
                             Forall P (fold_left App.compact_step bs acc)).
  { induction bs0 as [|b bs0 IH]; simpl; intros acc Ha Hb; auto.
    inversion Hb; subst. apply IH; auto. now apply compact_step_inv. }
  intros H. apply G; auto.
Qed.

Lemma parse_inv (extracted : list (option str)) :
  Forall R (splitlines (App._preclean_text (join [NL] (map page_text extracted)))) ->
  Forall P (App.parse_script_from_pdf extracted).
Proof.
  intros H. unfold App.parse_script_from_pdf. cbv zeta.
  now apply compaction_inv, segment_inv.
Qed.

End LineInvariant.

(** ** The parser invents no text *)

Lemma strip_substring (s : str) : substring (strip s) s.
Proof. destruct (strip_infix s) as (a & b & E). now exists a, b. Qed.

Lemma strip_in (s : str) (c : char) : In c (strip s) -> In c s.
Proof. apply substring_in, strip_substring. Qed.

Lemma clean_in (s : str) (c : char) : In c (App._clean_stage_dirs_start s) -> In c s.
Proof. apply substring_in, clean_substring. Qed.

Lemma join_in (sep : str) (ls : list str) (c : char) :
  In c (join sep ls) -> In c sep \/ exists l, In l ls /\ In c l.
Proof.
  induction ls as [|x ls IH]; [intros [] |].
  cbn [join]. destruct ls as [|y ls].
  - intros H. right. exists x. split; [now left | auto].
  - intros H. apply in_app_or in H. destruct H as [H | H].
    { right. exists x. split; [now left | auto]. }
    apply in_app_or in H. destruct H as [H | H]; [now left |].
    apply IH in H. destruct H as [H | (l & Hl & Hc)]; [now left |].
    right. exists l. split; [now right | auto].
Qed.

Lemma splitlines_go_in (s cur : str) (after_cr : bool) (l : str) (c : char) :
  In l (splitlines_go cur after_cr s) -> In c l -> In c cur \/ In c s.
Proof.
  revert cur after_cr. induction s as [|x s IH]; intros cur after_cr; cbn [splitlines_go].
  - destruct cur; [intros [] |]. intros [<- | []]. auto.
  - destruct (after_cr && (x =? NL)%N).
    { intros H1 H2. destruct (IH _ _ H1 H2); auto. right. now right. }
    destruct (is_linebreak x).
    + intros [<- | H1] H2; auto.
      destruct (IH _ _ H1 H2) as [[] |]. right. now right.
    + intros H1 H2. destruct (IH _ _ H1 H2) as [H | H].
      * apply in_app_or in H. destruct H as [H | [<- | []]]; auto.
        right. now left.
      * right. now right.
Qed.

Lemma splitlines_in (s l : str) (c : char) :
  In l (splitlines s) -> In c l -> In c s.
Proof. intros H1 H2. destruct (@splitlines_go_in s [] false l c H1 H2) as [[] |]; auto. Qed.

(** X8: the parser invents no text.  Every character of the text of a
    block is a newline or a character of the normalized text of the
    pages. *)
Theorem parse_text_from_source (extracted : list (option str)) (b : block) (c : char) :
  In b (App.parse_script_from_pdf extracted) -> In c (text b) ->
  c = NL \/ In c (App._preclean_text (join [NL] (map page_text extracted))).
Proof.
  intros Hb Hc.
  set (T := App._preclean_text (join [NL] (map page_text extracted))).
  { assert (F : Forall (fun b => forall c, In c (text b) -> c = NL \/ In c T)
                       (App.parse_script_from_pdf extracted));
      [| rewrite Forall_forall in F; exact (F b Hb c Hc)].
    clear b c Hb Hc.
    apply parse_inv
      with (R := fun raw => forall c, In c raw -> In c T)
           (Acc := fun (_ : option str) ls =>
                     Forall (fun l : str => forall c, In c l -> In c T) ls).
    - constructor.
    - intros n ls H _ _. apply Forall_snoc; auto. intros c [].
    - intros raw m Hr _ Hm.
      destruct (nonempty _); constructor; [| constructor].
      intros c Hc. apply clean_in in Hc.
      destruct (@re_match_group _ _ _ _ "what" Hm) as [E | [_ Hs]].
      + rewrite E in Hc. destruct Hc.
      + apply Hr, strip_in. eapply substring_in; eauto.
    - intros n ls raw Hr H _ _. apply Forall_snoc; auto.
      intros c Hc. apply Hr, strip_in. now apply clean_in.
    - intros n ls H _ _ _ c Hc. cbn [text] in Hc. apply strip_in, join_in in Hc.
      destruct Hc as [[<- | []] | (l & Hl & Hc)]; [now left |].
      right. rewrite Forall_forall in H. exact (H l Hl c Hc).
    - intros raw Hr _ c Hc. cbn [text] in Hc. right. now apply Hr, strip_in.
    - intros l b0 Hl Hb0 _ _ c Hc. cbn [text] in Hc. apply strip_in in Hc.
      apply in_app_or in Hc. destruct Hc as [Hc | Hc]; auto.
      apply in_app_or in Hc. destruct Hc as [[<- | []] | Hc]; auto.
    - apply Forall_forall. intros l Hl c Hc. now apply splitlines_in with l. }
Qed.

(** ** The names of the speakers *)

Lemma name_initial_char (c : char) : name_initial c = true -> name_char c = true.
Proof.
  unfold name_initial, name_char, in_cls. cbn [existsb in_citem xorb].
  rewrite !orb_true_iff, !andb_true_iff, !N.leb_le.
  intros [H | [H | [H | H]]]; [| | | discriminate].
  - left. exact H.
  - right. right. left. exact H.
  - right. right. right. left. split; [apply H | lia].
Qed.

Lemma name_char_not_paren (c : char) :
  name_char c = true -> c <> LPAR /\ c <> RPAR.
Proof.
  intros H. split; intros ->; vm_compute in H; discriminate.
Qed.

Lemma denb_cls_concat (neg : bool) (items : list cset) (ws : list str) :
  Forall (denb (Cls neg items)) ws ->
  Forall (fun c => in_cls neg items c = true) (concat ws).
Proof.
  induction 1 as [|w ws (c & -> & Hc) _ IH]; simpl; auto.
Qed.

(** The group "who" of a speaker line: an initial, name characters and
    perhaps one parenthetical. *)
Lemma who_shape (v : str) :
  grp_den App.speaker_pat "who" v ->
  exists c0 body tail,
    v = c0 :: body ++ tail /\ name_initial c0 = true
    /\ Forall (fun c => name_char c = true) body
    /\ (tail = [] \/ exists inner, tail = LPAR :: inner ++ [RPAR] /\ ~ In RPAR inner).
Proof.
  unfold App.speaker_pat, Star, Opt, Ws.
  cbn [grp_den].
  intros [[] | [[[_ H] | [[] | [[] | [[] | [[] | []]]]]] | H]].
  - cbn [denb] in H.
    destruct H as (w1 & w2 & -> & (c0 & -> & Hc0) & w3 & w4 & -> & H3 & H4).
    destruct H3 as (ws & -> & Hws & _).
    destruct H4 as (ws' & -> & Hws' & _ & Hhi).
    exists c0, (concat ws), (concat ws'). repeat split; auto.
    + now apply denb_cls_concat in Hws.
    + specialize (Hhi 1 eq_refl).
      destruct Hws' as [|w ws' Hw Hrest]; [now left |].
      destruct ws' as [|w' ws']; [| simpl in Hhi; lia].
      right. destruct Hw as (a & b & -> & -> & b1 & b2 & -> & Hb1 & ->).
      destruct Hb1 as (us & -> & Hus & _).
      exists (concat us). simpl. rewrite app_nil_r. split; auto.
      apply denb_cls_concat in Hus. intros Hin.
      rewrite Forall_forall in Hus. apply Hus in Hin. discriminate.
  - destruct H as [[] | [[] | [[] | [[[E _] | []] | []]]]]. discriminate.
Qed.

Lemma sub_go_skip_all (ml : bool) (r : re) :
  forall s prev skip,
    length s <= skip -> sub_go ml r [] prev s skip = [].
Proof.
  induction s as [|c s IH]; intros prev skip H; cbn [sub_go].
  - destruct skip; auto. destruct (match_len _ _ _ _); auto.
  - destruct skip as [|n]; [simpl in H; lia |].
    apply IH. simpl in H. lia.
Qed.

Lemma firstn_last_in {A : Type} (x : A) (a : list A) (m : nat) :
  ~ In x a -> In x (firstn m (a ++ [x])) -> length a < m.
Proof.
  intros Ha Hin. destruct (Nat.lt_ge_cases (length a) m) as [|Hle]; auto.
  exfalso. apply Ha. rewrite firstn_app in Hin.
  replace (m - length a) with 0 in Hin by lia.
  simpl in Hin. rewrite app_nil_r in Hin.
  rewrite <- (firstn_skipn m a). apply in_or_app. now left.
Qed.

(** A word of the pattern of the parenthetical holds a closing parenthesis
    and begins with whitespace or with the opening one. *)
Lemma who_paren_word (w : str) :
  den App.who_paren_pat w ->
  In RPAR w /\ exists c t, w = c :: t /\ (isspace c = true \/ c = LPAR).
Proof.
  unfold App.who_paren_pat, Star, Ws. cbn [den].
  intros (w1 & w2 & -> & H1 & H2).
  destruct H2 as (w3 & w4 & -> & -> & H4).
  destruct H4 as (w5 & w6 & -> & _ & H6).
  destruct H6 as (w7 & w8 & -> & -> & _).
  split.
  - apply in_or_app. right. simpl. right. apply in_or_app. right. now left.
  - destruct H1 as (ws & -> & Hws & _).
    induction Hws as [|u ws (c & -> & Hc) _ IH].
    + exists LPAR. eexists. split; [reflexivity | now right].
    + exists c. eexists. split; [reflexivity |]. left.
      now rewrite in_cls_space in Hc.
Qed.

Lemma who_paren_no_match (prev : option char) (c : char) (t : str) :
  isspace c = false -> c <> LPAR ->
  match_len false App.who_paren_pat prev (c :: t) = None.
Proof.
  intros Hs Hl. destruct (match_len _ _ _ _) as [n|] eqn:E; auto.
  apply match_len_sound in E. destruct E as [Hd _].
  apply who_paren_word in Hd. destruct Hd as [_ (c' & t' & E & Hc)].
  destruct n; [discriminate |]. simpl in E. injection E as <- _.
  destruct Hc; congruence.
Qed.

Lemma who_paren_match (prev : option char) (inner : str) :
  ~ In RPAR inner ->
  match_len false App.who_paren_pat prev (LPAR :: inner ++ [RPAR])
  = Some (length (LPAR :: inner ++ [RPAR])).
Proof.
  intros Hin. unfold match_len, App.who_paren_pat. cbn [exec].
  apply star_ws_greedy. intros q.
  cbn [lstrip]. replace (isspace LPAR) with false by reflexivity.
  cbn [one]. replace (LPAR =? LPAR)%N with true by reflexivity.
  apply star_not_rpar_greedy; auto.
Qed.

(** Removing the parenthetical from the group leaves a prefix of what
    stands before it. *)
Lemma who_paren_removed (pre tail : str) :
  Forall (fun c => name_char c = true) pre ->
  tail = [] \/ (exists inner, tail = LPAR :: inner ++ [RPAR] /\ ~ In RPAR inner) ->
  forall prev, exists k,
    sub_go false App.who_paren_pat [] prev (pre ++ tail) 0 = firstn k pre.
Proof.
  intros Hpre Htail.
  induction Hpre as [|c pre Hc Hpre IH]; intros prev.
  - exists 0. cbn [app firstn].
    destruct Htail as [-> | (inner & -> & Hin)].
    + cbn [sub_go]. destruct (match_len _ _ _ _); auto.
    + cbn [sub_go]. rewrite who_paren_match; auto.
      cbn [length app]. apply sub_go_skip_all. lia.
  - cbn [app sub_go].
    destruct (match_len false App.who_paren_pat prev (c :: pre ++ tail))
      as [[|n]|] eqn:E.
    + apply match_len_sound in E. destruct E as [Hd _].
      apply who_paren_word in Hd. destruct Hd as [[] _].
    + exists 0. cbn [app firstn]. apply sub_go_skip_all.
      apply match_len_sound in E. destruct E as [Hd Hn].
      apply who_paren_word in Hd. destruct Hd as [Hr _].
      assert (Hno : ~ In RPAR (c :: pre)).
      { intros [-> | H].
        - apply name_char_not_paren in Hc. now destruct Hc.
        - rewrite Forall_forall in Hpre. apply Hpre in H.
          apply name_char_not_paren in H. now destruct H. }
      destruct Htail as [-> | (inner & -> & Hin)].
      * exfalso. apply Hno. rewrite app_nil_r in Hr.
        rewrite <- (firstn_skipn (S n) (c :: pre)). apply in_or_app. now left.
      * assert (Hno' : ~ In RPAR ((c :: pre) ++ LPAR :: inner)).
        { intros H. apply in_app_or in H. destruct H as [H | [H | H]]; auto.
          discriminate. }
        replace (c :: pre ++ LPAR :: inner ++ [RPAR])
          with (((c :: pre) ++ LPAR :: inner) ++ [RPAR]) in Hr
          by (rewrite <- app_assoc; reflexivity).
        apply firstn_last_in in Hr; auto.
        rewrite length_app in Hr. cbn [length] in Hr.
        rewrite length_app. cbn [length]. rewrite length_app. cbn [length]. lia.
    + destruct (IH (Some c)) as (k & Ek). exists (S k). cbn [firstn]. now rewrite Ek.
Qed.

Lemma lstrip_snoc_ink (a : str) (c : char) :
  isspace c = false -> exists a', lstrip (a ++ [c]) = a' ++ [c].
Proof.
  intros Hc. induction a as [|x a IH]; cbn [app lstrip].
  - rewrite Hc. now exists [].
  - destruct (isspace x); auto. now exists (x :: a).
Qed.

Lemma strip_cons_ink (c : char) (t : str) :
  isspace c = false -> exists t', strip (c :: t) = c :: t'.
Proof.
  intros Hc. unfold strip. cbn [lstrip]. rewrite Hc.
  unfold rstrip. cbn [rev].
  destruct (@lstrip_snoc_ink (rev t) c Hc) as (a' & ->).
  rewrite rev_app_distr. simpl. eauto.
Qed.

Lemma spaces_no_match (prev : option char) (c : char) (t : str) :
  isspace c = false -> match_len false App.spaces_pat prev (c :: t) = None.
Proof.
  intros Hs. destruct (match_len _ _ _ _) as [n|] eqn:E; auto.
  apply match_len_sound in E. destruct E as [Hd _].
  unfold App.spaces_pat, Ws in Hd. cbn [den] in Hd.
  destruct Hd as (ws & E & Hws & Hlo).
  destruct Hws as [|w ws (x & -> & Hx) _]; [simpl in Hlo; lia |].
  destruct n; [discriminate |]. simpl in E. injection E as -> _.
  rewrite in_cls_space in Hx. congruence.
Qed.

Lemma name_initial_ink (c : char) :
  name_initial c = true -> isspace c = false /\ c <> LPAR.
Proof.
  unfold name_initial, in_cls. cbn [existsb in_citem xorb].
  rewrite !orb_true_iff, !andb_true_iff, !N.leb_le.
  intros H. split.
  - unfold isspace.
    repeat (apply orb_false_iff; split);
      try (apply andb_false_iff; rewrite !N.leb_gt);
      try (apply N.eqb_neq); lia.
  - unfold LPAR. lia.
Qed.

(** The name that the loop makes of the group "who". *)
Lemma who_well_named (m : caps) (line : str) :
  re_match false App.speaker_pat line = Some m ->
  let who := re_sub false App.spaces_pat (lit " ")
               (strip (re_sub false App.who_paren_pat [] (group m "who"))) in
  who = [] \/ well_named who.
Proof.
  intros Hm. cbv zeta.
  destruct (@re_match_group _ _ _ _ "who" Hm) as [E | [Hg _]].
  { left. rewrite E. reflexivity. }
  right. apply who_shape in Hg.
  destruct Hg as (c0 & body & tail & -> & Hc0 & Hbody & Htail).
  pose proof (name_initial_ink _ Hc0) as [Hs Hl].
  unfold re_sub at 2. cbn [sub_go].
  rewrite who_paren_no_match; auto.
  destruct (@who_paren_removed body tail Hbody Htail (Some c0)) as (k & ->).
  destruct (@strip_cons_ink c0 (firstn k body) Hs) as (t' & Et).
  assert (Ht : Forall (fun c => name_char c = true) (c0 :: t')).
  { apply Forall_forall. intros c Hc. rewrite <- Et in Hc. apply strip_in in Hc.
    destruct Hc as [<- | Hc]; [now apply name_initial_char |].
    rewrite Forall_forall in Hbody. apply Hbody.
    rewrite <- (firstn_skipn k body). apply in_or_app. now left. }
  rewrite Et. unfold re_sub. cbn [sub_go].
  rewrite spaces_no_match; auto.
  split.
  - exists c0. eexists. split; [reflexivity | auto].
  - constructor; [now apply name_initial_char |].
    apply Forall_forall. intros c Hc. apply sub_go_in in Hc.
    destruct Hc as [Hc | [<- | []]]; [| reflexivity].
    inversion Ht; subst. rewrite Forall_forall in H2. now apply H2.
Qed.

(** X9: the character of every block begins with a capital letter of the
    speaker pattern and holds only the characters this pattern admits in a
    name: letters, apostrophes, spaces, dots and hyphens.  A parenthetical
    after the name never reaches the block. *)
Theorem parse_well_named (extracted : list (option str)) :
  Forall (fun b => well_named (character b)) (App.parse_script_from_pdf extracted).
Proof.
  apply parse_inv
    with (R := fun _ : str => True)
         (Acc := fun (n : option str) (_ : list str) =>
                   match n with
                   | Some w => w = [] \/ well_named w
                   | None => True
                   end); auto.
  - intros raw m _ _ Hm. exact (@who_well_named m (strip raw) Hm).
  - intros n ls [-> | H] Hn _ _; [discriminate | exact H].
  - intros raw _ _. cbn [character]. split.
    + exists 83%N. eexists. split; reflexivity.
    + repeat constructor.
  - apply Forall_forall. auto.
Qed.

(** ** Blank lines inside a block *)

Lemma no_blank_run_sub (p s : str) :
  substring p s -> no_blank_run s -> no_blank_run p.
Proof. intros Hp Hs H. apply Hs. now apply substring_trans with p. Qed.

Lemma nl_free_no_run (s : str) : ~ In NL s -> no_blank_run s.
Proof.
  intros Hs H. apply Hs. apply (substring_in (p := [NL; NL; NL])); auto.
  now left.
Qed.

Lemma no_run_app_free (x s : str) :
  ~ In NL x -> no_blank_run s -> no_blank_run (x ++ s).
Proof.
  intros Hx Hs. induction x as [|c x IH]; auto.
  intros (a & b & E). destruct a as [|c' a].
  - injection E as -> _. apply Hx. now left.
  - injection E as _ E. apply IH.
    + intros H. apply Hx. now right.
    + now exists a, b.
Qed.

Lemma no_run_nl_cons (s : str) :
  no_blank_run s -> (forall b, s <> NL :: NL :: b) -> no_blank_run (NL :: s).
Proof.
  intros Hs Hb (a & b & E). destruct a as [|c a].
  - injection E as E. now apply (Hb b).
  - injection E as _ E. apply Hs. now exists a, b.
Qed.

Lemma spaced_snoc (ls : list str) (l : str) :
  spaced ls -> (ls <> [] -> last ls [] = [] -> l <> []) -> spaced (ls ++ [l]).
Proof.
  induction ls as [|x ls IH]; intros Hs Hl; [exact I |].
  destruct ls as [|y ls].
  - cbn [app spaced]. split; auto. intros ->. apply Hl; [discriminate | reflexivity].
  - destruct Hs as [Hxy Hs]. change ((x :: y :: ls) ++ [l]) with (x :: y :: (ls ++ [l])).
    cbn [spaced]. split; auto.
    change (match ls ++ [l] with
            | [] => True
            | y0 :: _ => (y = [] -> y0 <> []) /\ spaced (ls ++ [l])
            end) with (spaced ((y :: ls) ++ [l])).
    apply IH; auto. intros _ H. apply Hl; [discriminate | exact H].
Qed.

Lemma join_spaced (ls : list str) :
  Forall (fun l => ~ In NL l) ls -> spaced ls ->
  no_blank_run (join [NL] ls)
  /\ (forall b, join [NL] ls <> NL :: NL :: b)
  /\ (forall x t, ls = x :: t -> x <> [] -> forall b, join [NL] ls <> NL :: b).
Proof.
  induction ls as [|x ls IH]; intros Hf Hs.
  - cbn [join]. repeat split; try discriminate.
    apply nl_free_no_run. intros [].
  - inversion Hf as [|? ? Hx Hf']; subst.
    destruct ls as [|y ls].
    + cbn [join]. repeat split.
      * now apply nl_free_no_run.
      * intros b ->. apply Hx. now left.
      * intros x0 t E _ b ->. apply Hx. now left.
    + destruct Hs as [Hxy Hs].
      destruct (IH Hf' Hs) as (H1 & H2 & H3).
      change (join [NL] (x :: y :: ls)) with (x ++ NL :: join [NL] (y :: ls)).
      destruct x as [|c x].
      * cbn [app]. specialize (H3 y ls eq_refl (Hxy eq_refl)).
        repeat split.
        -- apply no_run_nl_cons; auto.
        -- intros b E. injection E as E. now apply (H3 b).
        -- intros x0 t E Hne. injection E as <- _. now destruct Hne.
      * assert (Hc : c <> NL) by (intros ->; apply Hx; now left).
        repeat split.
        -- apply no_run_app_free; auto. apply no_run_nl_cons; auto.
        -- intros b E. injection E as E _. auto.
        -- intros x0 t _ _ b E. injection E as E _. auto.
Qed.

Lemma no_run_merge (a b : str) :
  no_blank_run a -> no_blank_run b -> head_inked (rev a) -> head_inked b ->
  no_blank_run (a ++ [NL] ++ b).
Proof.
  intros Ha Hb Hra Hhb.
  induction a as [|c a IH].
  - cbn [app]. apply no_run_nl_cons; auto.
    intros b' ->. simpl in Hhb. discriminate.
  - intros (u & v & E). destruct u as [|c' u].
    + cbn [app] in E. injection E as -> E.
      destruct a as [|c1 a].
      { simpl in Hra. discriminate. }
      cbn [app] in E. injection E as -> E.
      destruct a as [|c2 a].
      { simpl in Hra. discriminate. }
      cbn [app] in E. injection E as -> _.
      apply Ha. exists [], a. reflexivity.
    + cbn [app] in E. injection E as _ E. apply IH.
      * intros (x & y & ->). apply Ha. exists (c :: x), y. reflexivity.
      * cbn [rev] in Hra. destruct a as [|c1 a]; [exact I |].
        now apply head_inked_prefix in Hra.
      * now exists u, v.
Qed.

Lemma splitlines_go_no_nl (s cur : str) (after_cr : bool) :
  ~ In NL cur -> Forall (fun l => ~ In NL l) (splitlines_go cur after_cr s).
Proof.
  revert cur after_cr. induction s as [|c s IH]; intros cur after_cr Hc;
    cbn [splitlines_go].
  - destruct cur; repeat constructor; auto.
  - destruct (after_cr && (c =? NL)%N); auto.
    destruct (is_linebreak c) eqn:E.
    + constructor; auto.
    + apply IH. intros H. apply in_app_or in H.
      destruct H as [H | [-> | []]]; auto. discriminate.
Qed.

(** X10: no block text has two blank lines in a row: three newline
    characters never follow each other in the text of a block. *)
Theorem parse_no_blank_run (extracted : list (option str)) :
  Forall (fun b => no_blank_run (text b)) (App.parse_script_from_pdf extracted).
Proof.
  apply Forall_impl
    with (P := fun b => no_blank_run (text b)
                        /\ head_inked (text b) /\ head_inked (rev (text b))).
  { now intros b [H _]. }
  apply parse_inv
    with (R := fun raw : str => ~ In NL raw)
         (Acc := fun (_ : option str) ls =>
                   Forall (fun l : str => ~ In NL l) ls /\ spaced ls).
  - split; [constructor | exact I].
  - intros n ls [Hf Hs] _ Hlast. split.
    + apply Forall_snoc; auto.
    + apply spaced_snoc; auto. intros _ E. rewrite E in Hlast. discriminate.
  - intros raw m Hr _ Hm.
    destruct (nonempty _); (split; [| exact I]); constructor; [| constructor].
    intros H. apply clean_in in H.
    destruct (@re_match_group _ _ _ _ "what" Hm) as [E | [_ Hs]].
    + rewrite E in H. destruct H.
    + apply Hr, strip_in. eapply substring_in; eauto.
  - intros n ls raw Hr [Hf Hs] _ Hne. split.
    + apply Forall_snoc; auto. intros H. apply Hr, strip_in. now apply clean_in.
    + apply spaced_snoc; auto. intros _ _. now apply nonempty_true.
  - intros n ls [Hf Hs] _ _ _. cbn [text]. repeat split.
    + apply no_blank_run_sub with (join [NL] ls); [apply strip_substring |].
      now apply join_spaced.
    + apply strip_head.
    + apply strip_ends.
  - intros raw Hr _. cbn [text]. repeat split.
    + apply nl_free_no_run. intros H. now apply Hr, strip_in.
    + apply strip_head.
    + apply strip_ends.
  - intros l b (Hl & _ & Hle) (Hb & Hbh & _) _ _. cbn [text]. repeat split.
    + apply no_blank_run_sub with (text l ++ [NL] ++ text b);
        [apply strip_substring |].
      now apply no_run_merge.
    + apply strip_head.
    + apply strip_ends.
  - apply splitlines_go_no_nl. intros [].
Qed.

(** ** The number of blocks *)

Lemma flush_pending (st : pstate) : pending (App.flush st) <= pending st.
Proof.
  unfold pending, App.flush. cbn [blocks current_name truthy].
  destruct (truthy (current_name st)); cbn [andb]; [| lia].
  destruct (nonempty (current_lines st)); [| lia].
  destruct (nonempty (strip _)); rewrite ?length_app; simpl; lia.
Qed.

Lemma flush_closed (st : pstate) : pending (App.flush st) = length (blocks (App.flush st)).
Proof. unfold pending, App.flush. cbn [blocks current_name truthy]. lia. Qed.

Lemma emit_flush_pending (st : pstate) (b : block) :
  pending (emit (App.flush st) b) <= pending st + 1.
Proof.
  pose proof (flush_pending st) as Hf. rewrite flush_closed in Hf.
  unfold pending at 1. cbn [emit blocks current_name].
  change (current_name (App.flush st)) with (@None str). cbn [truthy].
  rewrite length_app. cbn [length]. lia.
Qed.

Lemma loop_body_pending (st : pstate) (raw_line : str) :
  pending (App.loop_body st raw_line)
  <= pending st + (if has_ink raw_line then 1 else 0).
Proof.
  unfold App.loop_body. cbv zeta. rewrite strip_nonempty.
  destruct (has_ink raw_line); cbn [negb].
  - destruct (App._is_section_heading _); [apply emit_flush_pending |].
    destruct (re_match _ _ _).
    { pose proof (flush_pending st) as Hf. rewrite flush_closed in Hf.
      unfold pending at 1. cbn [blocks current_name].
      destruct (truthy _); lia. }
    destruct (startswith _ _ && endswith _ _); [apply emit_flush_pending |].
    destruct (truthy (current_name st)) eqn:Et.
    + destruct (nonempty _); unfold pending;
        cbn [append_line blocks current_name]; rewrite ?Et; lia.
    + unfold pending. cbn [emit blocks current_name]. rewrite Et, length_app.
      cbn [length]. lia.
  - destruct (_ && _); unfold pending;
      cbn [append_line blocks current_name]; lia.
Qed.

(** X11: the parser returns at most as many blocks as the normalized text
    has lines that are not blank. *)
Theorem parse_block_count (extracted : list (option str)) :
  length (App.parse_script_from_pdf extracted)
  <= length (filter has_ink
               (splitlines (App._preclean_text (join [NL] (map page_text extracted))))).
Proof.
  unfold App.parse_script_from_pdf. cbv zeta.
  etransitivity; [apply compaction_length |].
  unfold App.segment. rewrite <- flush_closed.
  etransitivity; [apply flush_pending |].
  assert (G : forall ls st,
            pending (fold_left App.loop_body ls st)
            <= pending st + length (filter has_ink ls)).
  { induction ls as [|l ls IH]; intros st; simpl; [lia |].
    etransitivity; [apply IH |].
    pose proof (loop_body_pending st l) as H.
    destruct (has_ink l); simpl; lia. }
  exact (G _ App.init).
Qed.

(** ** Headings are kept *)

Lemma flush_grows (st : pstate) (b : block) :
  In b (blocks st) -> In b (blocks (App.flush st)).
Proof.
  intros H. unfold App.flush. cbn [blocks].
  repeat case_if; auto. apply in_or_app. now left.
Qed.

Lemma loop_body_grows (st : pstate) (raw_line : str) (b : block) :
  In b (blocks st) -> In b (blocks (App.loop_body st raw_line)).
Proof.
  intros H. unfold App.loop_body. cbv zeta.
  destruct (negb (nonempty (strip raw_line))).
  { case_if; auto. }
  destruct (App._is_section_heading _).
  { cbn [emit blocks]. apply in_or_app. left. now apply flush_grows. }
  destruct (re_match _ _ _).
  { cbn [blocks]. now apply flush_grows. }
  destruct (startswith _ _ && endswith _ _).
  { cbn [emit blocks]. apply in_or_app. left. now apply flush_grows. }
  destruct (truthy _).
  - case_if; auto.
  - cbn [emit blocks]. apply in_or_app. now left.
Qed.

Lemma fold_loop_grows (ls : list str) (st : pstate) (b : block) :
  In b (blocks st) -> In b (blocks (fold_left App.loop_body ls st)).
Proof.
  revert st. induction ls as [|l ls IH]; intros st H; simpl; auto.
  apply IH. now apply loop_body_grows.
Qed.

Lemma loop_body_heading (st : pstate) (raw_line : str) :
  has_ink raw_line = true -> App._is_section_heading (strip raw_line) = true ->
  In (Block SCENA (strip raw_line)) (blocks (App.loop_body st raw_line)).
Proof.
  intros Hi Hh. unfold App.loop_body. cbv zeta.
  rewrite strip_nonempty, Hi, Hh. cbn [negb emit blocks].
  apply in_or_app. right. now left.
Qed.

Lemma segment_heading (t l : str) :
  In l (splitlines t) -> has_ink l = true ->
  App._is_section_heading (strip l) = true ->
  In (Block SCENA (strip l)) (App.segment t).
Proof.
  intros Hl Hi Hh. unfold App.segment. apply flush_grows.
  apply in_split in Hl. destruct Hl as (l1 & l2 & ->).
  rewrite fold_left_app. cbn [fold_left].
  apply fold_loop_grows. now apply loop_body_heading.
Qed.

Lemma trimmed_strip (s : str) : trimmed s -> strip s = s.
Proof.
  intros (_ & H1 & H2). unfold strip.
  rewrite (lstrip_fixed _ H1). now apply rstrip_fixed.
Qed.

Lemma trimmed_merge (a b : str) : trimmed a -> trimmed b -> trimmed (a ++ [NL] ++ b).
Proof.
  intros (Ia & Ha & _) (Ib & _ & Hb). repeat split.
  - rewrite has_ink_app, Ia. reflexivity.
  - destruct a as [|c a]; [discriminate | exact Ha].
  - rewrite !rev_app_distr.
    destruct (rev b) as [|c r] eqn:E; [| exact Hb].
    apply (f_equal (@rev char)) in E. rewrite rev_involutive in E.
    subst b. discriminate.
Qed.

Lemma covered_app_l (x : block) (a b : list block) :
  covered x a -> covered x (a ++ b).
Proof.
  intros (y & Hy & H). exists y. split; auto. apply in_or_app. now left.
Qed.

Lemma covered_self (x : block) (bs : list block) : In x bs -> covered x bs.
Proof. intros H. exists x. repeat split; auto. apply substring_refl. Qed.

Lemma compact_step_covers (compact : list block) (b x : block) :
  Forall (fun y => trimmed (text y)) compact -> trimmed (text b) ->
  covered x compact \/ x = b -> covered x (App.compact_step compact b).
Proof.
  intros Hc Hb Hx. unfold App.compact_step.
  assert (Hsnoc : covered x (compact ++ [b])).
  { destruct Hx as [Hx | ->]; [now apply covered_app_l |].
    apply covered_self, in_or_app. right. now left. }
  destruct (rev compact) as [|l before] eqn:E; auto.
  destruct (str_eqb (character b) SCENA) eqn:E1; cbn [andb]; auto.
  destruct (str_eqb (character l) SCENA) eqn:E2; auto.
  apply str_eqb_eq in E1, E2.
  apply rev_cons_snoc in E. subst compact.
  apply Forall_app in Hc. destruct Hc as [_ Hl]. inversion Hl; subst.
  rewrite trimmed_strip by now apply trimmed_merge.
  destruct Hx as [(y & Hy & Hch & Hs) | ->].
  - apply in_app_or in Hy. destruct Hy as [Hy | [<- | []]].
    + apply covered_app_l. now exists y.
    + exists (Block (character l) (text l ++ [NL] ++ text b)).
      repeat split; auto.
      * apply in_or_app. right. now left.
      * cbn [text]. now apply substring_app_l.
  - exists (Block (character l) (text l ++ [NL] ++ text b)).
    repeat split.
    + apply in_or_app. right. now left.
    + cbn [character]. congruence.
    + cbn [text]. apply substring_app_r, substring_app_r, substring_refl.
Qed.

Lemma compact_step_trimmed (compact : list block) (b : block) :
  Forall (fun y => trimmed (text y)) compact -> trimmed (text b) ->
  Forall (fun y => trimmed (text y)) (App.compact_step compact b).
Proof.
  intros Hc Hb. unfold App.compact_step.
  destruct (rev compact) as [|l before] eqn:E; [now apply Forall_snoc |].
  case_if; [| now apply Forall_snoc].
  apply rev_cons_snoc in E. subst compact.
  apply Forall_app in Hc. destruct Hc as [Hpre Hl].
  inversion Hl; subst. apply Forall_snoc; auto. cbn [text].
  rewrite trimmed_strip; now apply trimmed_merge.
Qed.

Lemma compaction_covers (bs : list block) (x : block) :
  Forall (fun y => trimmed (text y)) bs -> In x bs ->
  covered x (App.compaction bs).
Proof.
  unfold App.compaction.
  assert (G : forall l acc,
            Forall (fun y => trimmed (text y)) acc ->
            Forall (fun y => trimmed (text y)) l ->
            covered x acc \/ In x l ->
            covered x (fold_left App.compact_step l acc)).
  { induction l as [|b l IH]; intros acc Ha Hl Hx; simpl.
    - destruct Hx as [Hx | []]. exact Hx.
    - inversion Hl; subst. apply IH; auto.
      + now apply compact_step_trimmed.
      + destruct Hx as [Hx | [<- | Hx]]; auto;
          left; apply compact_step_covers; auto. }
  intros Hb Hx. apply G; auto.
Qed.

Lemma segment_trimmed (t : str) :
  Forall (fun y => trimmed (text y)) (App.segment t).
Proof.
  apply segment_inv
    with (R := fun _ : str => True)
         (Acc := fun (_ : option str) (_ : list str) => True); auto.
  - intros n ls _ _ _ H. cbn [text]. repeat split.
    + now apply strip_nonempty_ink.
    + apply strip_head.
    + apply strip_ends.
  - intros raw _ H. cbn [text]. repeat split.
    + now apply strip_nonempty_ink.
    + apply strip_head.
    + apply strip_ends.
  - apply Forall_forall. auto.
Qed.

(** X12: no heading is lost.  Every line of the normalized text that is a
    section heading is held, stripped, by the text of a sentinel block of
    the result. *)
Theorem heading_kept (extracted : list (option str)) (l : str) :
  In l (splitlines (App._preclean_text (join [NL] (map page_text extracted)))) ->
  has_ink l = true -> App._is_section_heading (strip l) = true ->
  exists b, In b (App.parse_script_from_pdf extracted)
            /\ character b = SCENA /\ substring (strip l) (text b).
Proof.
  intros Hl Hi Hh. unfold App.parse_script_from_pdf. cbv zeta.
  apply (segment_heading _ _ Hl Hi) in Hh.
  apply compaction_covers in Hh; [| apply segment_trimmed].
  destruct Hh as (b & Hb & Hc & Hs). now exists b.
Qed.

(** ** Speeches are kept *)

Lemma lstrip_app_inked (u v : str) :
  v <> [] -> head_inked v -> lstrip (u ++ v) = lstrip u ++ v.
Proof.
  intros Hv Hh. induction u as [|c u IH]; cbn [app lstrip].
  - now apply lstrip_fixed.
  - destruct (isspace c); auto.
Qed.

Lemma strip_keeps_prefix (a x : str) :
  trimmed a -> prefix a (strip (a ++ x)).
Proof.
  intros (Hi & Hh & Hr).
  assert (Ha : a <> []) by (intros ->; discriminate).
  unfold strip. rewrite lstrip_fixed by (destruct a; [congruence | exact Hh]).
  unfold rstrip. rewrite rev_app_distr, lstrip_app_inked; auto.
  - rewrite rev_app_distr, rev_involutive. now exists (rev (lstrip (rev x))).
  - intros E. apply (f_equal (@rev char)) in E. rewrite rev_involutive in E.
    now subst a.
Qed.

Lemma join_cons_prefix (x : str) (ls : list str) :
  exists r, join [NL] (x :: ls) = x ++ r.
Proof.
  cbn [join]. destruct ls; [exists []; now rewrite app_nil_r | eauto].
Qed.

Lemma flush_speech (who what : str) (st : pstate) :
  who <> [] -> trimmed what ->
  holds_speech who what st ->
  exists b, In b (blocks (App.flush st)) /\ character b = who /\ prefix what (text b).
Proof.
  intros Hw Ht [(b & Hb & H) | (Hn & more & Hl)].
  - exists b. split; auto. now apply flush_grows.
  - unfold App.flush. rewrite Hn, Hl. cbn [truthy name_of nonempty andb blocks].
    replace (nonempty who) with true
      by (symmetry; now apply nonempty_true).
    destruct (join_cons_prefix what more) as (r & Er). rewrite Er.
    pose proof (strip_keeps_prefix r Ht) as Hp.
    rewrite strip_nonempty, has_ink_app.
    destruct Ht as (-> & _). cbn [orb].
    eexists. split; [apply in_or_app; right; now left |].
    cbn [character text]. auto.
Qed.

Lemma loop_body_speech (who what : str) (st : pstate) (raw_line : str) :
  who <> [] -> trimmed what ->
  holds_speech who what st -> holds_speech who what (App.loop_body st raw_line).
Proof.
  intros Hw Ht H.
  assert (Hf : forall b, holds_speech who what (emit (App.flush st) b)).
  { intros b. left. destruct (flush_speech Hw Ht H) as (y & Hy & Hc).
    exists y. split; auto. cbn [emit blocks]. apply in_or_app. now left. }
  destruct H as [(b & Hb & Hc) | (Hn & more & Hl)].
  { left. exists b. split; auto. now apply loop_body_grows. }
  unfold App.loop_body. cbv zeta.
  destruct (negb (nonempty (strip raw_line))).
  { case_if.
    - right. cbn [append_line current_name current_lines]. split; auto.
      exists (more ++ [[]]). now rewrite Hl.
    - right. split; eauto. }
  destruct (App._is_section_heading _); auto.
  destruct (re_match _ _ _).
  { left. destruct (@flush_speech who what st Hw Ht) as (y & Hy & Hc).
    - right. split; eauto.
    - exists y. cbn [blocks]. auto. }
  destruct (startswith _ _ && endswith _ _); auto.
  rewrite Hn. cbn [truthy].
  replace (nonempty who) with true by (symmetry; now apply nonempty_true).
  case_if.
  - right. cbn [append_line current_name current_lines]. split; auto.
    eexists. rewrite Hl. reflexivity.
  - right. split; eauto.
Qed.

(** X13: no speech is lost.  When a line of the normalized text is a
    speaker line with a name and a text, a block of the result has this
    name as its character and holds this text. *)
Theorem speech_kept (extracted : list (option str)) (l : str) (m : caps) :
  In l (splitlines (App._preclean_text (join [NL] (map page_text extracted)))) ->
  has_ink l = true -> App._is_section_heading (strip l) = false ->
  re_match false App.speaker_pat (strip l) = Some m ->
  let who := re_sub false App.spaces_pat (lit " ")
               (strip (re_sub false App.who_paren_pat [] (group m "who"))) in
  let what := App._clean_stage_dirs_start (group m "what") in
  who <> [] -> what <> [] ->
  exists b, In b (App.parse_script_from_pdf extracted)
            /\ character b = who /\ substring what (text b).
Proof.
  intros Hl Hi Hh Hm who what Hwho Hwhat.
  assert (Ht : trimmed what).
  { unfold what, App._clean_stage_dirs_start. cbv zeta. repeat split.
    - apply strip_nonempty_ink. now apply nonempty_true.
    - apply strip_head.
    - apply strip_ends. }
  unfold App.parse_script_from_pdf. cbv zeta.
  set (T := App._preclean_text _) in *.
  assert (Hs : exists b, In b (App.segment T)
                         /\ character b = who /\ prefix what (text b)).
  { unfold App.segment. apply flush_speech; auto.
    apply in_split in Hl. destruct Hl as (l1 & l2 & ->).
    rewrite fold_left_app. cbn [fold_left].
    apply (fold_left_inv (holds_speech who what)).
    - intros st raw. now apply loop_body_speech.
    - right. unfold App.loop_body. cbv zeta.
      rewrite strip_nonempty, Hi, Hh, Hm. cbn [negb current_name current_lines].
      fold who. fold what.
      replace (nonempty what) with true by (symmetry; now apply nonempty_true).
      split; eauto. }
  destruct Hs as (b & Hb & Hc & a & Ha).
  apply compaction_covers in Hb; [| apply segment_trimmed].
  destruct Hb as (b' & Hb' & Hc' & Hs').
  exists b'. repeat split; auto; [congruence |].
  apply substring_trans with (text b); auto.
  exists [], a. exact Ha.
Qed.

(** ** The space after a colon *)

Lemma colon_spaced_at (a b : str) :
  colon_spaced (a ++ COLON :: b) -> exists b', b = SPACE :: b'.
Proof.
  induction a as [|c a IH]; cbn [app colon_spaced]; intros [H1 H2]; auto.
Qed.

Lemma colon_spaced_skipn (k : nat) (s : str) :
  colon_spaced s -> colon_spaced (skipn k s).
Proof.
  revert s. induction k as [|k IH]; intros s H; [exact H |].
  destruct s as [|c s]; [exact I |]. cbn [skipn]. apply IH. apply H.
Qed.

Lemma colon_match (prev : option char) (t : str) :
  match_len false App.colon_pat prev (COLON :: t)
  = Some (length (COLON :: t) - length (lstrip t)).
Proof.
  unfold match_len, App.colon_pat. cbn [exec].
  apply star_ws_greedy. intros q.
  cbn [lstrip]. replace (isspace COLON) with false by reflexivity.
  cbn [one]. replace (COLON =? COLON)%N with true by reflexivity.
  now apply star_ws_greedy.
Qed.

Lemma colon_word (w : str) : den App.colon_pat w -> w <> [].
Proof. intros H E. apply colon_has in H. subst w. destruct H. Qed.

Lemma colon_sub_spaced (s : str) :
  forall prev skip,
    colon_spaced (sub_go false App.colon_pat (lit ": ") prev s skip).
Proof.
  induction s as [|c s IH]; intros prev skip; cbn [sub_go].
  - destruct skip; [| exact I].
    destruct (match_len _ _ _ _); [| exact I].
    cbn. split; [eauto | split; [discriminate | exact I]].
  - destruct skip as [|k]; [| apply IH].
    destruct (match_len false App.colon_pat prev (c :: s)) as [[|n]|] eqn:E.
    + apply match_len_sound in E. destruct E as [Hd _].
      apply colon_word in Hd. now destruct Hd.
    + cbn [lit app colon_spaced]. split; [eauto |].
      split; [discriminate | apply IH].
    + cbn [colon_spaced]. split; [| apply IH].
      intros ->. rewrite colon_match in E. discriminate.
Qed.

Lemma blanks_word (w : str) :
  den App.blanks_pat w ->
  exists c t, w = c :: t
              /\ in_cls false [CChr 9; CChr 11; CChr 12; CChr 160] c = true.
Proof.
  unfold App.blanks_pat, Plus. cbn [den].
  intros (ws & -> & Hws & Hlo).
  destruct Hws as [|w ws (c & -> & Hc) _]; [simpl in Hlo; lia |].
  exists c. eexists. split; [reflexivity | exact Hc].
Qed.

Lemma blanks_no_match (prev : option char) (c : char) (t : str) :
  in_cls false [CChr 9; CChr 11; CChr 12; CChr 160] c = false ->
  match_len false App.blanks_pat prev (c :: t) = None.
Proof.
  intros Hc. destruct (match_len _ _ _ _) as [n|] eqn:E; auto.
  apply match_len_sound in E. destruct E as [Hd _].
  apply blanks_word in Hd. destruct Hd as (x & u & E & Hx).
  destruct n; [discriminate |]. simpl in E. injection E as -> _. congruence.
Qed.

Lemma blanks_sub_spaced (s : str) :
  forall prev skip,
    colon_spaced (skipn skip s) ->
    colon_spaced (sub_go false App.blanks_pat (lit " ") prev s skip)
    /\ (skip = 0 -> forall t', s = SPACE :: t' ->
        exists o, sub_go false App.blanks_pat (lit " ") prev s 0 = SPACE :: o).
Proof.
  induction s as [|c s IH]; intros prev skip H; cbn [sub_go].
  - split; [| discriminate].
    destruct skip; [| exact I].
    destruct (match_len _ _ _ _); [| exact I].
    cbn. split; [discriminate | exact I].
  - destruct skip as [|k].
    + cbn [skipn] in H.
      destruct (match_len false App.blanks_pat prev (c :: s)) as [[|n]|] eqn:E.
      * apply match_len_sound in E. destruct E as [Hd _].
        apply blanks_word in Hd. destruct Hd as (x & u & E & _). discriminate.
      * split.
        -- cbn [lit app colon_spaced]. split; [discriminate |].
           apply IH. apply colon_spaced_skipn. apply H.
        -- intros _ t' Et. injection Et as -> ->.
           rewrite blanks_no_match in E by reflexivity. discriminate.
      * destruct H as [Hc Hs].
        destruct (IH (Some c) 0 Hs) as [H1 H2].
        split.
        -- cbn [colon_spaced]. split; auto.
           intros Ec. destruct (Hc Ec) as (t' & Et).
           exact (H2 eq_refl t' Et).
        -- intros _ t' Et. injection Et as -> ->. eauto.
    + split; [| discriminate]. apply IH. exact H.
Qed.

(** X14: in the normalized text every colon is followed by a space. *)
Theorem preclean_colon_space (t a b : str) :
  App._preclean_text t = a ++ COLON :: b -> exists b', b = SPACE :: b'.
Proof.
  intros E. apply colon_spaced_at with a. rewrite <- E.
  unfold App._preclean_text. cbv zeta. unfold re_sub at 1.
  apply blanks_sub_spaced. cbn [skipn]. apply colon_sub_spaced.
Qed.

(** ** The names of the selector *)

Lemma str_leb_total (a b : str) :
  Page.str_leb a b = false -> Page.str_leb b a = true.
Proof.
  revert b. induction a as [|x a IH]; intros [|y b]; cbn [Page.str_leb];
    try discriminate; auto.
  rewrite orb_false_iff, N.ltb_ge. intros [Hlt H].
  apply orb_true_iff.
  destruct (x =? y)%N eqn:E.
  - apply N.eqb_eq in E. subst y. right. rewrite N.eqb_refl.
    cbn [andb] in *. auto.
  - apply N.eqb_neq in E. left. apply N.ltb_lt. lia.
Qed.

Lemma add_key_in (d : list str) (k x : str) :
  In x (Page.add_key d k) <-> In x d \/ x = k.
Proof.
  unfold Page.add_key. destruct (existsb (str_eqb k) d) eqn:E.
  - split; auto. intros [H | ->]; auto.
    apply existsb_exists in E. destruct E as (y & Hy & E).
    apply str_eqb_eq in E. now subst y.
  - rewrite in_app_iff. simpl. intuition congruence.
Qed.

Lemma add_key_nodup (d : list str) (k : str) :
  NoDup d -> NoDup (Page.add_key d k).
Proof.
  intros H. unfold Page.add_key. destruct (existsb (str_eqb k) d) eqn:E; auto.
  apply NoDup_app; auto.
  - repeat constructor. intros [].
  - intros x Hx [<- | []].
    assert (F : existsb (str_eqb k) d = true); [| congruence].
    apply existsb_exists. exists k. split; auto. now apply str_eqb_eq.
Qed.

Lemma fromkeys_spec (l : list str) :
  NoDup (Page.fromkeys l) /\ forall x, In x (Page.fromkeys l) <-> In x l.
Proof.
  unfold Page.fromkeys.
  assert (G : forall l d, NoDup d ->
            NoDup (fold_left Page.add_key l d)
            /\ forall x, In x (fold_left Page.add_key l d) <-> In x d \/ In x l).
  { induction l0 as [|k l0 IH]; intros d Hd; simpl.
    - split; auto. intros x. tauto.
    - destruct (IH (Page.add_key d k) (add_key_nodup k Hd)) as [H1 H2].
      split; auto. intros x. rewrite H2, add_key_in. intuition. }
  destruct (G l [] (NoDup_nil _)) as [H1 H2]. split; auto.
  intros x. rewrite H2. simpl. tauto.
Qed.

Lemma insert_in (x y : str) (l : list str) :
  In y (Page.insert x l) <-> y = x \/ In y l.
Proof.
  induction l as [|z l IH]; cbn [Page.insert].
  - simpl. intuition.
  - destruct (Page.str_leb x z); simpl; [intuition |].
    rewrite IH. intuition.
Qed.

Lemma sorted_in (y : str) (l : list str) : In y (Page.sorted l) <-> In y l.
Proof.
  induction l as [|x l IH]; cbn [Page.sorted fold_right]; [tauto |].
  fold (Page.sorted l). rewrite insert_in, IH. simpl. intuition.
Qed.

Lemma insert_nodup (x : str) (l : list str) :
  ~ In x l -> NoDup l -> NoDup (Page.insert x l).
Proof.
  intros Hx Hl. induction l as [|z l IH]; cbn [Page.insert].
  - repeat constructor. intros [].
  - destruct (Page.str_leb x z); [now constructor |].
    inversion Hl; subst. constructor.
    + rewrite insert_in. intros [-> | H]; [apply Hx; now left | auto].
    + apply IH; auto. intros H. apply Hx. now right.
Qed.

Lemma insert_ascending (x : str) (l : list str) :
  ~ In x l -> ascending l -> ascending (Page.insert x l).
Proof.
  intros Hx Hl. induction l as [|z l IH]; cbn [Page.insert]; [exact I |].
  destruct (Page.str_leb x z) eqn:E.
  - cbn [ascending]. split; auto. split; auto.
    intros ->. apply Hx. now left.
  - assert (Hz : Page.str_leb z x = true /\ z <> x).
    { split; [now apply str_leb_total |]. intros ->. apply Hx. now left. }
    assert (IH' : ascending (Page.insert x l)).
    { apply IH; [intros H; apply Hx; now right |].
      destruct l; [exact I | apply Hl]. }
    destruct l as [|w l]; cbn [Page.insert] in *.
    + cbn [ascending]. auto.
    + destruct (Page.str_leb x w); cbn [ascending]; split; auto.
      apply Hl.
Qed.

Lemma sorted_spec (l : list str) :
  NoDup l -> NoDup (Page.sorted l) /\ ascending (Page.sorted l).
Proof.
  induction 1 as [|x l Hx Hl [IH1 IH2]]; cbn [Page.sorted fold_right].
  - split; [constructor | exact I].
  - fold (Page.sorted l). rewrite <- sorted_in in Hx.
    split; [now apply insert_nodup | now apply insert_ascending].
Qed.

(** X15: the names offered by the selector are in strictly ascending order,
    none of them twice, and they are the characters of the blocks whose
    character, stripped and in upper case, is not the sentinel. *)
Theorem selector_names (blocks : list block) :
  ascending (Page.uniq blocks) /\ NoDup (Page.uniq blocks)
  /\ forall n, In n (Page.uniq blocks)
               <-> exists b, In b blocks /\ character b = n
                             /\ upper (strip n) <> SCENA.
Proof.
  unfold Page.uniq.
  destruct (fromkeys_spec (Page.chars blocks)) as [Hn Hin].
  destruct (sorted_spec Hn) as [H1 H2].
  repeat split; auto.
  - rewrite sorted_in, Hin. unfold Page.chars. rewrite in_map_iff.
    intros (b & <- & Hb). apply filter_In in Hb. destruct Hb as [Hb Hs].
    exists b. repeat split; auto.
    intros E. apply str_eqb_eq in E. rewrite E in Hs. discriminate.
  - intros (b & Hb & <- & Hs).
    rewrite sorted_in, Hin. unfold Page.chars. rewrite in_map_iff.
    exists b. split; auto. apply filter_In. split; auto.
    destruct (str_eqb _ _) eqn:E; auto.
    apply str_eqb_eq in E. contradiction.
Qed.

(** ** The text handed to the play button *)

Lemma apos_guarded_at (a b : str) (prev : option char) :
  apos_guarded prev (a ++ Page.APOS :: b) ->
  (a = [] /\ prev = Some BSLASH) \/ exists a', a = a' ++ [BSLASH].
Proof.
  revert prev. induction a as [|c a IH]; intros prev; cbn [app apos_guarded].
  - intros [H _]. left. auto.
  - intros [_ H]. right. apply IH in H.
    destruct H as [[-> E] | (a' & ->)].
    + injection E as ->. now exists [].
    + now exists (c :: a').
Qed.

Lemma replace_apos_guarded (s : str) (prev : option char) :
  apos_guarded prev (replace_go [Page.APOS] [BSLASH; Page.APOS] s 0).
Proof.
  revert prev. induction s as [|c s IH]; intros prev; cbn [replace_go]; [exact I |].
  cbn [startswith length Nat.sub andb].
  destruct (N.eqb_spec Page.APOS c) as [<- | Hc]; cbn [andb app apos_guarded].
  - split; [discriminate |]. split; auto.
  - split; [congruence | apply IH].
Qed.

Lemma replace_nl_guarded (s : str) (prev prev' : option char) :
  (prev = Some BSLASH -> prev' = Some BSLASH) ->
  apos_guarded prev s ->
  apos_guarded prev' (replace_go [NL] [SPACE] s 0).
Proof.
  revert prev prev'. induction s as [|c s IH]; intros prev prev' Hp; [auto |].
  cbn [replace_go apos_guarded]. intros [Hc Hs].
  cbn [startswith length Nat.sub andb].
  destruct (N.eqb_spec NL c) as [<- | Hn]; cbn [andb app apos_guarded].
  - split; [discriminate |]. apply IH with (Some NL); auto. discriminate.
  - split; auto. now apply IH with (Some c).
Qed.

(** X16: the text written into the script of the play button holds no
    newline, and every apostrophe in it has a backslash before it. *)
Theorem escaped_text (t : str) :
  ~ In NL (Page.escaped t)
  /\ forall a b, Page.escaped t = a ++ Page.APOS :: b ->
                 exists a', a = a' ++ [BSLASH].
Proof.
  unfold Page.escaped, replace. split.
  - apply replace_one_removes. intros [H | []]. discriminate.
  - intros a b E.
    assert (G : apos_guarded None (a ++ Page.APOS :: b)).
    { rewrite <- E. apply replace_nl_guarded with None; [discriminate |].
      apply replace_apos_guarded. }
    apply apos_guarded_at in G. destruct G as [[_ F] | G]; [discriminate | exact G].
Qed.

(** ** The clicks of the keyboard sound *)

Lemma delta_floor (floor_ms : Z) (r : QArith_base.Q) :
  (floor_ms <= Tap.delta floor_ms r)%Z.
Proof.
  unfold Tap.delta.
  destruct (QArith_base.Qle_bool r (QArith_base.inject_Z floor_ms)) eqn:E; [lia |].
  rewrite <- (Qround.Qfloor_Z floor_ms). apply Qround.Qfloor_resp_le.
  apply QArith_base.Qlt_le_weak, QArith_base.Qnot_le_lt.
  intros H. apply QArith_base.Qle_bool_iff in H. congruence.
Qed.

Lemma tap_loop_more (floor_ms duration_ms : Z) (draws : nat -> QArith_base.Q) :
  forall fuel i t track r,
    Tap.tap_loop floor_ms duration_ms draws fuel i t track = Some r ->
    Tap.tap_loop floor_ms duration_ms draws (S fuel) i t track = Some r.
Proof.
  induction fuel as [|fuel IH]; intros i t track r; [discriminate |].
  intros H. cbn [Tap.tap_loop] in H.
  change (Tap.tap_loop floor_ms duration_ms draws (S (S fuel)) i t track)
    with (if (t <? duration_ms)%Z
          then if (t + Tap.delta floor_ms (draws i) >=? duration_ms)%Z
               then Some track
               else Tap.tap_loop floor_ms duration_ms draws (S fuel) (S i)
                      (t + Tap.delta floor_ms (draws i))
                      (track ++ [(t + Tap.delta floor_ms (draws i))%Z])
          else Some track).
  cbv zeta in H.
  destruct (t <? duration_ms)%Z; auto.
  destruct (t + Tap.delta floor_ms (draws i) >=? duration_ms)%Z; auto.
Qed.

Lemma tap_loop_enough (floor_ms duration_ms : Z) (draws : nat -> QArith_base.Q)
    (fuel fuel' i : nat) (t : Z) (track r : list Z) :
  Tap.tap_loop floor_ms duration_ms draws fuel i t track = Some r ->
  fuel <= fuel' ->
  Tap.tap_loop floor_ms duration_ms draws fuel' i t track = Some r.
Proof.
  intros H Hle. induction Hle; auto. now apply tap_loop_more.
Qed.

Lemma tap_loop_spec (floor_ms duration_ms : Z) (draws : nat -> QArith_base.Q) :
  (0 < floor_ms)%Z ->
  forall fuel i t track,
    1 <= fuel -> (duration_ms - t < Z.of_nat fuel * floor_ms)%Z ->
    exists more,
      Tap.tap_loop floor_ms duration_ms draws fuel i t track = Some (track ++ more)
      /\ apart floor_ms t more
      /\ Forall (fun c => (c < duration_ms)%Z) more.
Proof.
  intros Hf. induction fuel as [|fuel IH]; intros i t track H1 Hd; [lia |].
  cbn [Tap.tap_loop]. cbv zeta.
  destruct (Z.ltb_spec t duration_ms) as [Hlt | Hge].
  - pose proof (delta_floor floor_ms (draws i)) as Hdelta.
    set (t' := (t + Tap.delta floor_ms (draws i))%Z) in *.
    destruct (Z.geb_spec t' duration_ms) as [Hge' | Hlt'].
    + exists []. rewrite app_nil_r. repeat split; auto; exact I.
    + destruct (IH (S i) t' (track ++ [t'])) as (more & E & Ha & Hb); [nia | nia |].
      exists (t' :: more). rewrite E, <- app_assoc.
      split; [reflexivity |]. split; [| now constructor].
      cbn [apart]. split; [unfold t'; lia | exact Ha].
  - exists []. rewrite app_nil_r. repeat split; auto; exact I.
Qed.

Lemma apart_count (gap prev bound : Z) (l : list Z) :
  apart gap prev l -> Forall (fun c => (c < bound)%Z) l -> l <> [] ->
  (prev + gap * Z.of_nat (length l) < bound)%Z.
Proof.
  revert prev. induction l as [|c l IH]; intros prev Ha Hb Hne; [congruence |].
  destruct Ha as [Hc Ha]. inversion Hb; subst.
  destruct l as [|c' l].
  - cbn [length]. lia.
  - specialize (IH c Ha H2 ltac:(discriminate)).
    cbn [length] in *. lia.
Qed.

Lemma tap_clicks_from (floor_ms duration_ms : Z) (draws : nat -> QArith_base.Q) :
  (0 < floor_ms)%Z ->
  exists clicks,
    (forall fuel, Z.to_nat (duration_ms / floor_ms) + 1 <= fuel ->
       Tap.tap_loop floor_ms duration_ms draws fuel 0 0 [] = Some clicks)
    /\ apart floor_ms 0 clicks
    /\ Forall (fun c => (c < duration_ms)%Z) clicks
    /\ (clicks = [] \/ (floor_ms * Z.of_nat (length clicks) < duration_ms)%Z).
Proof.
  intros Hf.
  destruct (@tap_loop_spec floor_ms duration_ms draws Hf
              (Z.to_nat (duration_ms / floor_ms) + 1) 0 0%Z [])
    as (clicks & E & Ha & Hb).
  - lia.
  - pose proof (Z.mul_succ_div_gt duration_ms floor_ms Hf) as Hq.
    set (q := (duration_ms / floor_ms)%Z) in *. clearbody q.
    assert (E : Z.of_nat (Z.to_nat q + 1) = (Z.max 0 q + 1)%Z) by lia.
    rewrite E. nia.
  - exists clicks. cbn [app] in E. repeat split; auto.
    + intros fuel Hfuel. eapply tap_loop_enough; eauto.
    + destruct clicks as [|c l]; [now left | right].
      pose proof (@apart_count floor_ms 0 duration_ms (c :: l) Ha Hb) as H.
      specialize (H ltac:(discriminate)). lia.
Qed.

(** X17: the loop of [generate_keyboard_tap] ends, whatever the generator
    draws, within [duration_ms / 60 + 1] rounds.  The clicks are laid at
    positions below [duration_ms], the first at 60 ms or later and each at
    least 60 ms after the one before; so either no click is laid or 60
    times the number of clicks is less than [duration_ms].  The same holds
    of the older function with 40 ms. *)
Theorem tap_clicks (duration_ms : Z) (draws : nat -> QArith_base.Q) :
  (exists clicks,
     (forall fuel, Z.to_nat (duration_ms / 60) + 1 <= fuel ->
        Tap.generate_keyboard_tap duration_ms draws fuel = Some clicks)
     /\ apart 60 0 clicks
     /\ Forall (fun c => (c < duration_ms)%Z) clicks
     /\ (clicks = [] \/ (60 * Z.of_nat (length clicks) < duration_ms)%Z))
  /\ (exists clicks,
        (forall fuel, Z.to_nat (duration_ms / 40) + 1 <= fuel ->
           Tap.generate_keyboard_tap_old duration_ms draws fuel = Some clicks)
        /\ apart 40 0 clicks
        /\ Forall (fun c => (c < duration_ms)%Z) clicks
        /\ (clicks = [] \/ (40 * Z.of_nat (length clicks) < duration_ms)%Z)).
Proof.
  split.
  - apply (@tap_clicks_from 60 duration_ms draws). lia.
  - apply (@tap_clicks_from 40 duration_ms draws). lia.
Qed.

(** ** The check boxes of the selector *)

Lemma mem_in (name : str) (s : list str) : Page.mem name s = true <-> In name s.
Proof.
  unfold Page.mem. rewrite existsb_exists. split.
  - intros (y & Hy & E). apply str_eqb_eq in E. now subst y.
  - intros H. exists name. split; auto. now apply str_eqb_eq.
Qed.

Lemma set_add_in (name y : str) (s : list str) :
  In y (Page.set_add name s) <-> y = name \/ In y s.
Proof.
  unfold Page.set_add. destruct (Page.mem name s) eqn:E.
  - apply mem_in in E. split; auto. intros [-> | H]; auto.
  - simpl. intuition.
Qed.

Lemma set_remove_in (name y : str) (s : list str) :
  In y (Page.set_remove name s) <-> y <> name /\ In y s.
Proof.
  unfold Page.set_remove. rewrite filter_In, negb_true_iff.
  split; intros [H1 H2]; split; auto.
  - intros ->. assert (F : str_eqb name name = true) by now apply str_eqb_eq.
    congruence.
  - destruct (str_eqb y name) eqn:E; auto. apply str_eqb_eq in E. contradiction.
Qed.

Lemma select_step_spec (val : bool) (name : str) (st : list str * bool) :
  (forall y, In y (fst (Page.select_step val name st))
             <-> (y = name /\ val = true) \/ (y <> name /\ In y (fst st)))
  /\ (snd (Page.select_step val name st) = true
      <-> snd st = true \/ ~ (val = true <-> In name (fst st))).
Proof.
  unfold Page.select_step. cbv zeta.
  destruct (Page.mem name (fst st)) eqn:E.
  - assert (Hin : In name (fst st)) by now apply mem_in.
    destruct val; cbn [andb negb fst snd]; rewrite ?E; cbn [andb negb fst snd].
    + split.
      * intros y. destruct (list_eq_dec N.eq_dec y name) as [-> | Hne]; intuition.
      * intuition.
    + split.
      * intros y. rewrite set_remove_in. intuition congruence.
      * split; auto. intros _. right. intros [_ H]. specialize (H Hin). discriminate.
  - assert (Hin : ~ In name (fst st)).
    { intros H. apply mem_in in H. congruence. }
    destruct val; cbn [andb negb fst snd].
    + split.
      * intros y. rewrite set_add_in.
        destruct (list_eq_dec N.eq_dec y name) as [-> | Hne]; intuition.
      * split; auto. intros _. right. intros [H _]. auto.
    + rewrite E. cbn [andb fst snd]. split.
      * intros y. destruct (list_eq_dec N.eq_dec y name) as [-> | Hne];
          intuition congruence.
      * split; auto. intros [H | H]; auto. exfalso. apply H.
        split; [discriminate | contradiction].
Qed.

Lemma select_loop_spec (checkbox : nat -> bool) (names : list str) :
  NoDup names ->
  forall idx st,
    (forall y, In y (fst (Page.select_loop checkbox idx names st))
               <-> (exists i, nth_error names i = Some y
                              /\ checkbox (idx + i) = true)
                   \/ (~ In y names /\ In y (fst st)))
    /\ (snd (Page.select_loop checkbox idx names st) = true
        <-> snd st = true
            \/ exists i name, nth_error names i = Some name
                              /\ ~ (checkbox (idx + i) = true <-> In name (fst st))).
Proof.
  induction 1 as [|n rest Hn Hrest IH]; intros idx st; cbn [Page.select_loop].
  - split.
    + intros y. split; [intros H; right; split; auto |].
      intros [(i & H & _) | [_ H]]; auto. destruct i; discriminate.
    + split; auto. intros [H | (i & name & H & _)]; auto. destruct i; discriminate.
  - destruct (IH (S idx) (Page.select_step (checkbox idx) n st)) as [IHa IHb].
    destruct (select_step_spec (checkbox idx) n st) as [Sa Sb].
    split.
    + intros y. rewrite IHa, Sa. split.
      * intros [(i & Hi & Hc) | [Hy [[-> Hc] | [Hne Hin]]]].
        -- left. exists (S i). split; auto. now rewrite Nat.add_succ_r.
        -- left. exists 0. split; auto. now rewrite Nat.add_0_r.
        -- right. split; auto. intros [E | H]; auto.
      * intros [(i & Hi & Hc) | [Hy Hin]].
        -- destruct i as [|i].
           ++ injection Hi as ->. rewrite Nat.add_0_r in Hc. right. split; auto.
           ++ left. exists i. split; auto. now rewrite Nat.add_succ_r in Hc.
        -- right. split; [intros H; apply Hy; now right |].
           right. split; auto. intros ->. apply Hy. now left.
    + rewrite IHb, Sb. split.
      * intros [[H | H] | (i & name & Hi & Hc)]; auto.
        -- right. exists 0, n. split; auto. now rewrite Nat.add_0_r.
        -- right. exists (S i), name. split; auto.
           rewrite Nat.add_succ_r. intros F. apply Hc. rewrite F, Sa.
           assert (Hne : name <> n).
           { intros ->. apply Hn. eapply nth_error_In; eauto. }
           intuition.
      * intros [H | (i & name & Hi & Hc)]; auto.
        destruct i as [|i].
        -- injection Hi as ->. rewrite Nat.add_0_r in Hc. auto.
        -- right. exists i, name. split; auto.
           rewrite Nat.add_succ_r in Hc. intros F. apply Hc. rewrite F, Sa.
           assert (Hne : name <> n).
           { intros ->. apply Hn. eapply nth_error_In; eauto. }
           intuition.
Qed.

(** X18: after the loop over the check boxes a name of the selector is
    selected exactly when its box is ticked, a name that the selector does
    not show stays as it was, and [any_changed] is set exactly when some box
    differs from the selection it started from. *)
Theorem selection_follows_boxes (blocks : list block) (checkbox : nat -> bool)
    (selected_chars : list str) :
  let r := Page.select_loop checkbox 0 (Page.uniq blocks) (selected_chars, false) in
  (forall i name, nth_error (Page.uniq blocks) i = Some name ->
                  (In name (fst r) <-> checkbox i = true))
  /\ (forall name, ~ In name (Page.uniq blocks) ->
                   (In name (fst r) <-> In name selected_chars))
  /\ (snd r = true
      <-> exists i name, nth_error (Page.uniq blocks) i = Some name
                         /\ ~ (checkbox i = true <-> In name selected_chars)).
Proof.
  cbv zeta.
  destruct (fromkeys_spec (Page.chars blocks)) as [Hn _].
  destruct (sorted_spec Hn) as [Hd _]. fold (Page.uniq blocks) in Hd.
  destruct (@select_loop_spec checkbox (Page.uniq blocks) Hd 0 (selected_chars, false))
    as [Ha Hb].
  cbn [fst snd Nat.add] in Ha, Hb.
  split; [| split].
  - intros i name Hi. rewrite Ha. split.
    + intros [(j & Hj & Hc) | [Hno _]].
      * assert (i = j); [| now subst].
        apply (proj1 (NoDup_nth_error (Page.uniq blocks)) Hd).
        -- apply nth_error_Some. congruence.
        -- congruence.
      * exfalso. apply Hno. eapply nth_error_In; eauto.
    + intros Hc. left. now exists i.
  - intros name Hno. rewrite Ha. split.
    + intros [(j & Hj & _) | [_ H]]; auto.
      exfalso. apply Hno. eapply nth_error_In; eauto.
    + intros H. right. auto.
  - rewrite Hb. split.
    + intros [H | H]; [discriminate | exact H].
    + intros H. now right.
Qed.

(** * The newlines through the normalizer *)

(** ** Substitution around a character that no match covers *)

Lemma sub_go_split (ml : bool) (r : re) (repl : str) (x : char) (R : str) :
  forall u prev skip,
    skip <= length u ->
    (forall u1 u2 p n, u = u1 ++ u2 ->
       match_len ml r p (u2 ++ x :: R) = Some n -> n <= length u2) ->
    exists U,
      sub_go ml r repl prev (u ++ x :: R) skip
      = U ++ x :: sub_go ml r repl (Some x) R 0
      /\ (forall c, In c U -> In c u \/ In c repl).
Proof.
  induction u as [|c u IH]; intros prev skip Hs Hn.
  - assert (skip = 0) by (simpl in Hs; lia). subst skip.
    cbn [app sub_go].
    destruct (match_len ml r prev (x :: R)) as [[|n]|] eqn:E.
    + exists repl. split; auto.
    + apply (Hn [] [] prev (S n) eq_refl) in E. simpl in E. lia.
    + exists []. split; auto; intros c [].
  - assert (Hn' : forall u1 u2 p n, u = u1 ++ u2 ->
              match_len ml r p (u2 ++ x :: R) = Some n -> n <= length u2).
    { intros u1 u2 p n -> E. apply (Hn (c :: u1) u2 p n); auto. }
    cbn [app sub_go]. destruct skip as [|k].
    + destruct (match_len ml r prev (c :: u ++ x :: R)) as [[|n]|] eqn:E.
      * destruct (IH (Some c) 0 ltac:(lia) Hn') as (U & -> & HU).
        exists (repl ++ c :: U). rewrite <- app_assoc. split; auto.
        intros d Hd. apply in_app_or in Hd. destruct Hd as [Hd | [<- | Hd]].
        -- now right.
        -- left. now left.
        -- destruct (HU d Hd); [left; now right | now right].
      * apply (Hn [] (c :: u) prev (S n) eq_refl) in E.
        destruct (IH (Some c) n ltac:(simpl in E; lia) Hn') as (U & -> & HU).
        exists (repl ++ U). rewrite <- app_assoc. split; auto.
        intros d Hd. apply in_app_or in Hd. destruct Hd as [Hd | Hd].
        -- now right.
        -- destruct (HU d Hd); [left; now right | now right].
      * destruct (IH (Some c) 0 ltac:(lia) Hn') as (U & -> & HU).
        exists (c :: U). split; auto.
        intros d [<- | Hd]; [left; now left |].
        destruct (HU d Hd); [left; now right | now right].
    + destruct (IH (Some c) k ltac:(simpl in Hs; lia) Hn') as (U & -> & HU).
      exists U. split; auto.
      intros d Hd. destruct (HU d Hd); [left; now right | now right].
Qed.

Lemma sub_go_copy (ml : bool) (r : re) (repl : str) (x : char) (R : str) :
  forall z prev,
    (forall z1 z2 p, z = z1 ++ z2 -> match_len ml r p (z2 ++ x :: R) = None) ->
    sub_go ml r repl prev (z ++ x :: R) 0
    = z ++ x :: sub_go ml r repl (Some x) R 0.
Proof.
  induction z as [|c z IH]; intros prev Hn; cbn [app sub_go].
  - pose proof (Hn [] [] prev eq_refl) as E. cbn [app] in E. now rewrite E.
  - pose proof (Hn [] (c :: z) prev eq_refl) as E. cbn [app] in E. rewrite E.
    f_equal. apply IH.
    intros z1 z2 p ->. now apply (Hn (c :: z1) z2 p).
Qed.

Lemma sub_go_copy_end (ml : bool) (r : re) (repl : str) :
  forall z prev,
    (forall z1 z2 p, z = z1 ++ z2 -> match_len ml r p z2 = None) ->
    sub_go ml r repl prev z 0 = z.
Proof.
  induction z as [|c z IH]; intros prev Hn; cbn [sub_go].
  - now rewrite (Hn [] [] prev eq_refl).
  - rewrite (Hn [] (c :: z) prev eq_refl). f_equal. apply IH.
    intros z1 z2 p ->. now apply (Hn (c :: z1) z2 p).
Qed.

Lemma last_cons_some (A : Type) (m : list A) :
  forall a d, last (a :: m) d = last m a.
Proof.
  induction m as [|b m IH]; intros a d; [reflexivity |].
  change (last (a :: b :: m) d) with (last (b :: m) d).
  now rewrite !IH.
Qed.

Lemma last_some_in (z : str) (b : char) :
  exists d, last (map Some z) (Some b) = Some d /\ (d = b \/ In d z).
Proof.
  revert b. induction z as [|c z IH]; intros b.
  - exists b. auto.
  - cbn [map]. rewrite last_cons_some. destruct (IH c) as (d & E & [-> | Hd]).
    + exists c. split; auto. right. now left.
    + exists d. split; auto. right. now right.
Qed.

(** The characters of [z] are copied when no match begins at any of them,
    the character before each position being the one of the text. *)
Lemma sub_go_copy_at (ml : bool) (r : re) (repl : str) (x : char) (R : str) :
  forall z prev,
    (forall z1 z2, z = z1 ++ z2 ->
       match_len ml r (last (map Some z1) prev) (z2 ++ x :: R) = None) ->
    sub_go ml r repl prev (z ++ x :: R) 0
    = z ++ x :: sub_go ml r repl (Some x) R 0.
Proof.
  induction z as [|c z IH]; intros prev Hn; cbn [app sub_go].
  - pose proof (Hn [] [] eq_refl) as E. cbn [app map last] in E. now rewrite E.
  - pose proof (Hn [] (c :: z) eq_refl) as E. cbn [app map last] in E. rewrite E.
    f_equal. apply IH.
    intros z1 z2 ->. pose proof (Hn (c :: z1) z2 eq_refl) as E'.
    cbn [map] in E'. now rewrite last_cons_some in E'.
Qed.

Lemma sub_go_pass (ml : bool) (r : re) (repl : str) (S : str) :
  forall z prev,
    (forall z1 c z2 p, z = z1 ++ c :: z2 ->
       match_len ml r p (c :: z2 ++ S) = None) ->
    exists p', sub_go ml r repl prev (z ++ S) 0 = z ++ sub_go ml r repl p' S 0.
Proof.
  induction z as [|c z IH]; intros prev Hn.
  - now exists prev.
  - cbn [app sub_go]. rewrite (Hn [] c z prev eq_refl).
    destruct (IH (Some c)) as (p' & E).
    { intros z1 d z2 p ->. now apply (Hn (c :: z1) d z2 p). }
    exists p'. now rewrite E.
Qed.

(** ** The guards of a line boundary *)

Lemma hard_spec (c : char) :
  hard c = true ->
  transparent c = false /\ is_mark c = false /\ inline c = false
  /\ soft c = false /\ (c =? USCORE)%N = false /\ (c =? COLON)%N = false
  /\ (c =? NL)%N = false.
Proof.
  unfold hard, inline, faint, soft, is_mark, transparent.
  rewrite andb_true_iff, !negb_true_iff, !orb_false_iff.
  intros [[Hs Hst] [Hc Hu]]. rewrite Hs, Hst, Hc, Hu. cbn [orb andb].
  repeat split. destruct (N.eqb_spec c NL) as [-> |]; [discriminate | reflexivity].
Qed.

Lemma transparent_spec (c : char) :
  transparent c = true ->
  is_mark c = false /\ hard c = false /\ (c =? USCORE)%N = false
  /\ (c =? COLON)%N = false.
Proof.
  intros H. unfold hard. rewrite H. unfold is_mark.
  destruct (N.eqb_spec c COLON) as [-> |]; [discriminate |].
  destruct (N.eqb_spec c USCORE) as [-> |]; [discriminate |].
  auto.
Qed.

Lemma inline_spec (c : char) :
  inline c = true ->
  hard c = false /\ (c =? COLON)%N = false /\ (c =? NL)%N = false
  /\ (transparent c = true \/ c = USCORE).
Proof.
  unfold inline, faint. rewrite orb_true_iff, andb_true_iff, negb_true_iff.
  intros [[Ht Hn] | Hu].
  - destruct (transparent_spec c Ht) as (_ & Hh & _ & Hc). auto.
  - apply N.eqb_eq in Hu. subst c. repeat split; auto.
Qed.

Lemma faint_spec (c : char) :
  faint c = true -> transparent c = true /\ inline c = true /\ c <> NL.
Proof.
  unfold inline, faint. rewrite andb_true_iff, negb_true_iff, N.eqb_neq.
  intros [-> Hn]. repeat split; auto.
  apply N.eqb_neq in Hn. now rewrite Hn.
Qed.

Lemma hard_start (c : char) (t : str) :
  hard c = true -> ok_start (c :: t) = true /\ ok_head (c :: t) = true.
Proof.
  intros H. destruct (hard_spec c H) as (Ht & _ & Hi & _ & Hu & _).
  cbn [ok_start ok_head]. now rewrite Ht, Hi, Hu.
Qed.

Lemma ok_head_built (h : str) (c : char) (r : str) :
  Forall (fun c => inline c = true) h -> hard c = true ->
  ok_head (h ++ c :: r) = true.
Proof.
  intros Hh Hc. induction Hh as [|d h Hd _ IH]; cbn [app].
  - now apply hard_start.
  - cbn [ok_head]. now rewrite Hd.
Qed.

Lemma ok_head_split (s : str) :
  ok_head s = true ->
  exists h c r, s = h ++ c :: r /\ Forall (fun c => inline c = true) h
                /\ hard c = true.
Proof.
  induction s as [|d s IH]; cbn [ok_head]; [discriminate |].
  destruct (inline d) eqn:E.
  - intros H. destruct (IH H) as (h & c & r & -> & Hh & Hc).
    exists (d :: h), c, r. auto.
  - intros H. now exists [], d, s.
Qed.

Lemma ok_head_app_l (a b : str) : ok_head a = true -> ok_head (a ++ b) = true.
Proof.
  induction a as [|c a IH]; cbn [app ok_head]; [discriminate |].
  destruct (inline c); auto.
Qed.

Lemma ok_head_app_nl (a W : str) : ok_head (a ++ NL :: W) = true -> ok_head a = true.
Proof.
  induction a as [|c a IH]; cbn [app ok_head]; [discriminate |].
  destruct (inline c); auto.
Qed.

Lemma ok_start_transparent (z s : str) :
  Forall (fun c => transparent c = true) z -> ok_start (z ++ s) = ok_start s.
Proof. induction 1 as [|c z Hc _ IH]; cbn [app ok_start]; auto. now rewrite Hc. Qed.

Lemma ok_start_blank (z : str) :
  Forall (fun c => transparent c = true) z -> ok_start z = true.
Proof.
  intros H. rewrite <- (app_nil_r z). now rewrite ok_start_transparent.
Qed.

Lemma ok_start_inline (h : str) (c : char) (r : str) :
  Forall (fun c => inline c = true) h -> hard c = true ->
  ok_start (h ++ c :: r) = true.
Proof.
  intros Hh Hc. induction Hh as [|d h Hd Hh IH]; cbn [app].
  - now apply hard_start.
  - cbn [ok_start]. destruct (transparent d) eqn:Et; auto.
    destruct (inline_spec d Hd) as (_ & _ & _ & [Ht | ->]); [congruence |].
    now apply ok_head_built.
Qed.

Lemma ok_start_built (z h : str) (c : char) (r : str) :
  Forall (fun c => transparent c = true) z ->
  Forall (fun c => inline c = true) h -> hard c = true ->
  ok_start (z ++ h ++ c :: r) = true.
Proof.
  intros Hz Hh Hc. rewrite ok_start_transparent by exact Hz.
  now apply ok_start_inline.
Qed.

Lemma ok_start_split (s : str) :
  ok_start s = true ->
  exists z h rest,
    s = z ++ h ++ rest /\ Forall (fun c => transparent c = true) z
    /\ Forall (fun c => inline c = true) h
    /\ ((h = [] /\ rest = []) \/ exists c r, rest = c :: r /\ hard c = true).
Proof.
  induction s as [|c s IH]; cbn [ok_start].
  - intros _. exists [], [], []. repeat split; auto.
  - destruct (transparent c) eqn:E.
    + intros H. destruct (IH H) as (z & h & rest & -> & Hz & Hh & Hr).
      exists (c :: z), h, rest. repeat split; auto.
    + destruct (N.eqb_spec c USCORE) as [-> | Hu].
      * intros H. apply ok_head_split in H.
        destruct H as (h & d & r & -> & Hh & Hd).
        exists [], (USCORE :: h), (d :: r). repeat split; auto.
        right. now exists d, r.
      * intros H. exists [], [], (c :: s). repeat split; auto.
        right. now exists c, s.
Qed.

Lemma ok_start_app (a b : str) :
  ok_start a = true -> ok_start b = true -> ok_start (a ++ b) = true.
Proof.
  induction a as [|c a IH]; cbn [app ok_start]; auto.
  destruct (transparent c); auto.
  destruct (c =? USCORE)%N; auto. intros H _. now apply ok_head_app_l.
Qed.

Lemma ok_start_app_nl (a W : str) :
  ok_start (a ++ NL :: W) = true -> ok_start a = true.
Proof.
  induction a as [|c a IH]; cbn [app]; [reflexivity |]. cbn [ok_start].
  destruct (transparent c); auto.
  destruct (c =? USCORE)%N; auto. apply ok_head_app_nl.
Qed.

Lemma ok_start_suffix (z h : str) (c : char) (r z1 z2 : str) :
  Forall (fun c => transparent c = true) z ->
  Forall (fun c => inline c = true) h -> hard c = true ->
  z ++ h = z1 ++ z2 -> ok_start (z2 ++ c :: r) = true.
Proof.
  intros Hz Hh Hc E. apply app_eq_app in E.
  destruct E as (l & [[-> ->] | [-> ->]]).
  - apply Forall_app in Hz. destruct Hz as [_ Hl].
    rewrite <- app_assoc. now apply ok_start_built.
  - apply Forall_app in Hh. destruct Hh as [_ Hh].
    now apply ok_start_inline.
Qed.

Lemma ok_end_blank (u : str) :
  Forall (fun c => transparent c = true) u -> ok_end u = true.
Proof. intros H. apply ok_start_blank. now apply Forall_rev. Qed.

Lemma ok_end_built (x : str) (b : char) (tail z : str) :
  hard b = true -> Forall (fun c => inline c = true) tail ->
  Forall (fun c => transparent c = true) z ->
  ok_end (x ++ b :: tail ++ z) = true.
Proof.
  intros Hb Ht Hz. unfold ok_end.
  replace (rev (x ++ b :: tail ++ z)) with (rev z ++ rev tail ++ b :: rev x).
  - apply ok_start_built; auto using Forall_rev.
  - rewrite rev_app_distr. cbn [rev]. rewrite rev_app_distr, <- !app_assoc.
    reflexivity.
Qed.

Lemma ok_end_split (u : str) :
  ok_end u = true ->
  Forall (fun c => transparent c = true) u
  \/ exists pre b tail z,
       u = pre ++ b :: tail ++ z /\ hard b = true
       /\ Forall (fun c => inline c = true) tail
       /\ Forall (fun c => transparent c = true) z.
Proof.
  unfold ok_end. intros H. apply ok_start_split in H.
  destruct H as (z & h & rest & E & Hz & Hh & Hr).
  apply (f_equal (@rev char)) in E. rewrite rev_involutive in E. subst u.
  destruct Hr as [[-> ->] | (c & r & -> & Hc)].
  - left. cbn [app]. rewrite app_nil_r. now apply Forall_rev.
  - right. exists (rev r), c, (rev h), (rev z).
    repeat split; auto using Forall_rev.
    rewrite !rev_app_distr. cbn [rev]. now rewrite <- !app_assoc.
Qed.

(** An underscore that ends a line after soft characters only is what
    [ok_start] excludes. *)
Lemma ok_head_no_close (w T : str) :
  Forall (fun c => isspace c || (c =? USCORE)%N = true) w ->
  (T = [] \/ exists t, T = NL :: t) ->
  ok_head (w ++ USCORE :: T) = false.
Proof.
  intros Hw HT. induction Hw as [|c w Hc _ IH]; cbn [app ok_head].
  - replace (inline USCORE) with true by reflexivity.
    destruct HT as [-> | (t & ->)]; reflexivity.
  - destruct (inline c); auto.
    unfold hard, transparent, is_mark. apply orb_true_iff in Hc.
    destruct Hc as [-> | ->]; [reflexivity |].
    now rewrite orb_true_r, andb_false_r.
Qed.

Lemma ok_start_no_close (w T : str) :
  Forall (fun c => isspace c || (c =? USCORE)%N = true) w ->
  (T = [] \/ exists t, T = NL :: t) ->
  ok_start (w ++ USCORE :: T) = false.
Proof.
  intros Hw HT. induction Hw as [|c w Hc Hw IH]; cbn [app ok_start].
  - replace (transparent USCORE) with false by reflexivity.
    replace (USCORE =? USCORE)%N with true by reflexivity.
    destruct HT as [-> | (t & ->)]; reflexivity.
  - destruct (transparent c) eqn:Et; auto.
    destruct (c =? USCORE)%N eqn:Eu; [now apply ok_head_no_close |].
    unfold transparent in Et. apply orb_false_iff in Et. destruct Et as [Es _].
    rewrite Es in Hc. discriminate.
Qed.

Lemma opaque_part_app (a b : str) :
  opaque_part (a ++ b) = opaque_part a ++ opaque_part b.
Proof. apply filter_app. Qed.

Lemma opaque_part_faint (z : str) :
  Forall (fun c => faint c = true) z -> opaque_part z = [].
Proof.
  induction 1 as [|c z Hc _ IH]; auto.
  unfold opaque_part in *. cbn [filter]. now rewrite Hc.
Qed.

Lemma ok_start_opaque (s : str) :
  ok_head (opaque_part s) = ok_head s /\ ok_start (opaque_part s) = ok_start s.
Proof.
  induction s as [|c s [IHh IHs]]; [split; reflexivity |].
  unfold opaque_part in *. cbn [filter ok_start ok_head].
  destruct (faint c) eqn:E; cbn [negb].
  - destruct (faint_spec c E) as (-> & -> & _). auto.
  - cbn [ok_start ok_head]. now rewrite IHh, IHs.
Qed.

Lemma same_opaque_guards (u u' : str) :
  opaque_part u' = opaque_part u ->
  ok_end u' = ok_end u /\ ok_start u' = ok_start u.
Proof.
  intros E. unfold ok_end. split.
  - rewrite <- (proj2 (ok_start_opaque (rev u'))), <- (proj2 (ok_start_opaque (rev u))).
    unfold opaque_part in *. now rewrite !filter_rev, E.
  - now rewrite <- (proj2 (ok_start_opaque u')), E, (proj2 (ok_start_opaque u)).
Qed.

Lemma guarded_start (ps : list str) :
  guarded ps -> ok_start (hd [] ps) = true -> ok_start (join [NL] ps) = true.
Proof.
  induction ps as [|u ps IH]; auto.
  destruct ps as [|v ps]; auto.
  intros (Hu & Hv & Hg) Hs. cbn [hd] in Hs.
  change (join [NL] (u :: v :: ps)) with (u ++ NL :: join [NL] (v :: ps)).
  apply ok_start_app; [exact Hs |]. cbn [ok_start].
  replace (transparent NL) with true by reflexivity. now apply IH.
Qed.

Lemma from_piece_trans (p q r : str) :
  from_piece p q -> from_piece q r -> from_piece p r.
Proof.
  intros H1 H2 c Hc. apply H2 in Hc. destruct Hc as [Hc | Hc]; auto.
Qed.

Lemma from_pieces_trans (ps qs rs : list str) :
  Forall2 from_piece ps qs -> Forall2 from_piece qs rs ->
  Forall2 from_piece ps rs.
Proof.
  intros H. revert rs. induction H as [|p q ps qs Hpq _ IH]; intros rs Hr.
  - inversion Hr. constructor.
  - inversion Hr; subst. constructor; eauto using from_piece_trans.
Qed.

(** ** A step that keeps the guarded boundaries *)

Section PieceSteps.

Variable F : option char -> str -> str.

Hypothesis F_piece : forall u R prev,
  ok_end u = true -> ok_start R = true ->
  exists U,
    F prev (u ++ NL :: R) = U ++ NL :: F (Some NL) R
    /\ ok_end U = true /\ (ok_start u = true -> ok_start U = true)
    /\ from_piece u U.
Hypothesis F_last : forall s prev,
  (ok_start s = true -> ok_start (F prev s) = true) /\ from_piece s (F prev s).

Lemma pieces_step (ps : list str) :
  ps <> [] -> guarded ps ->
  forall prev,
  exists ps',
    F prev (join [NL] ps) = join [NL] ps' /\ length ps' = length ps
    /\ guarded ps'
    /\ (ok_start (hd [] ps) = true -> ok_start (hd [] ps') = true)
    /\ Forall2 from_piece ps ps'.
Proof.
  induction ps as [|u ps IH]; [congruence |].
  intros _ Hg prev. destruct ps as [|v ps].
  - exists [F prev u]. cbn [join hd length]. repeat split; try apply F_last.
    constructor; [apply F_last | constructor].
  - destruct Hg as (Hu & Hv & Hg).
    change (join [NL] (u :: v :: ps)) with (u ++ NL :: join [NL] (v :: ps)).
    destruct (@F_piece u (join [NL] (v :: ps)) prev Hu (guarded_start _ Hg Hv))
      as (U & E & HU & HUs & HUc).
    destruct (IH ltac:(discriminate) Hg (Some NL)) as (ps' & E' & Hl & Hg' & Hs' & Hc').
    destruct ps' as [|v' ps']; [discriminate |].
    exists (U :: v' :: ps').
    change (join [NL] (U :: v' :: ps')) with (U ++ NL :: join [NL] (v' :: ps')).
    rewrite E, E'. cbn [length hd] in *. repeat split; auto.
Qed.

End PieceSteps.

(** ** The patterns of the marks *)

(** No match of a pattern of the marks covers a hard character. *)
Lemma words_no_cross (ml : bool) (r : re) :
  (forall w, den r w -> Forall (fun c => soft c = true) w) ->
  forall (b : char) (u2 R : str) (p : option char) (n : nat),
    hard b = true ->
    match_len ml r p (u2 ++ b :: R) = Some n -> n <= length u2.
Proof.
  intros words_soft b u2 R p n Hb E.
  apply match_len_sound in E. destruct E as [Hd _].
  pose proof (words_soft _ Hd) as Hs.
  destruct (Nat.le_gt_cases n (length u2)) as [|Hgt]; auto.
  exfalso. rewrite firstn_app in Hs. apply Forall_app in Hs.
  destruct Hs as [_ Hs].
  destruct (n - length u2) as [|k] eqn:Ek; [lia |].
  cbn [firstn] in Hs. inversion Hs; subst.
  destruct (hard_spec b Hb) as (_ & _ & _ & F & _). congruence.
Qed.


Section MarkStep.

Variable ml : bool.
Variable r : re.
Variable repl : str.

Hypothesis words_soft : forall w, den r w -> Forall (fun c => soft c = true) w.
Hypothesis blank_kept : forall z R prev,
  Forall (fun c => transparent c = true) z -> ok_start R = true ->
  sub_go ml r repl prev (z ++ NL :: R) 0
  = z ++ NL :: sub_go ml r repl (Some NL) R 0.
Hypothesis margin_kept : forall b tail z R,
  hard b = true -> Forall (fun c => inline c = true) tail ->
  Forall (fun c => transparent c = true) z -> ok_start R = true ->
  exists Y,
    sub_go ml r repl (Some b) (tail ++ z ++ NL :: R) 0
    = Y ++ z ++ NL :: sub_go ml r repl (Some NL) R 0
    /\ Forall (fun c => inline c = true) Y /\ (forall c, In c Y -> In c tail).
Hypothesis start_kept : forall s prev,
  ok_start s = true -> ok_start (sub_go ml r repl prev s 0) = true.

Lemma mark_piece (u R : str) (prev : option char) :
  ok_end u = true -> ok_start R = true ->
  exists U,
    sub_go ml r repl prev (u ++ NL :: R) 0
    = U ++ NL :: sub_go ml r repl (Some NL) R 0
    /\ ok_end U = true /\ (ok_start u = true -> ok_start U = true)
    /\ (forall c, In c U -> In c u \/ In c repl).
Proof.
  intros Hu HR.
  assert (Hstart : forall U W,
            sub_go ml r repl prev (u ++ NL :: R) 0 = U ++ NL :: W ->
            ok_start u = true -> ok_start U = true).
  { intros U W E Hs. apply ok_start_app_nl with W. rewrite <- E.
    apply start_kept. apply ok_start_app; auto. }
  destruct (ok_end_split u Hu) as [Hz | (pre & b & tail & z & -> & Hb & Ht & Hz)].
  - exists u. pose proof (@blank_kept u R prev Hz HR) as E.
    split; [exact E |]. split; [exact Hu |]. split; auto.
  - destruct (@sub_go_split ml r repl b (tail ++ z ++ NL :: R) pre prev 0)
      as (X & E & HX); [lia | |].
    { intros u1 u2 p n _. now apply (@words_no_cross ml r words_soft). }
    destruct (@margin_kept b tail z R Hb Ht Hz HR) as (Y & EY & HY & HYc).
    rewrite EY in E. exists (X ++ b :: Y ++ z).
    assert (E' : sub_go ml r repl prev ((pre ++ b :: tail ++ z) ++ NL :: R) 0
                 = (X ++ b :: Y ++ z) ++ NL :: sub_go ml r repl (Some NL) R 0).
    { rewrite <- !app_assoc. cbn [app]. rewrite <- !app_assoc. exact E. }
    split; [exact E' |]. split; [now apply ok_end_built |]. split.
    + eauto.
    + intros c Hc. apply in_app_or in Hc. destruct Hc as [Hc | [<- | Hc]].
      * destruct (HX c Hc); auto. left. apply in_or_app. now left.
      * left. apply in_or_app. right. now left.
      * left. apply in_or_app. right. right. apply in_app_or in Hc.
        apply in_or_app. destruct Hc; auto.
Qed.

End MarkStep.

(** ** The patterns of faint characters *)

Section FaintStep.

Variable ml : bool.
Variable r : re.
Variable repl : str.

Hypothesis words_faint : forall w, den r w -> Forall (fun c => faint c = true) w.
Hypothesis repl_faint : Forall (fun c => faint c = true) repl.

Lemma faint_opaque (s : str) :
  forall prev skip,
    Forall (fun c => faint c = true) (firstn skip s) ->
    opaque_part (sub_go ml r repl prev s skip) = opaque_part s.
Proof.
  induction s as [|c s IH]; intros prev skip Hk; cbn [sub_go].
  - destruct skip; auto. destruct (match_len ml r prev []); auto.
    now apply opaque_part_faint.
  - destruct skip as [|k].
    + destruct (match_len ml r prev (c :: s)) as [[|n]|] eqn:E.
      * rewrite opaque_part_app, (opaque_part_faint repl_faint).
        cbn [app]. unfold opaque_part in *. cbn [filter].
        now rewrite (IH (Some c) 0 (Forall_nil _)).
      * apply match_len_sound in E. destruct E as [Hd _].
        apply words_faint in Hd. cbn [firstn] in Hd. inversion Hd; subst.
        rewrite opaque_part_app, (opaque_part_faint repl_faint).
        cbn [app]. rewrite (IH (Some c) n H2).
        unfold opaque_part. cbn [filter]. now rewrite H1.
      * unfold opaque_part in *. cbn [filter].
        now rewrite (IH (Some c) 0 (Forall_nil _)).
    + cbn [firstn] in Hk. inversion Hk; subst.
      rewrite (IH (Some c) k H2). unfold opaque_part. cbn [filter]. now rewrite H1.
Qed.

Lemma faint_piece (u R : str) (prev : option char) :
  exists U,
    sub_go ml r repl prev (u ++ NL :: R) 0
    = U ++ NL :: sub_go ml r repl (Some NL) R 0
    /\ opaque_part U = opaque_part u
    /\ (forall c, In c U -> In c u \/ In c repl).
Proof.
  destruct (@sub_go_split ml r repl NL R u prev 0) as (U & E & HU); [lia | |].
  { intros u1 u2 p n _ En. apply match_len_sound in En. destruct En as [Hd _].
    apply words_faint in Hd.
    destruct (Nat.le_gt_cases n (length u2)) as [|Hgt]; auto.
    exfalso. rewrite firstn_app in Hd. apply Forall_app in Hd.
    destruct Hd as [_ Hd].
    destruct (n - length u2) as [|k] eqn:Ek; [lia |].
    cbn [firstn] in Hd. inversion Hd; subst. discriminate. }
  exists U. repeat split; auto.
  pose proof (faint_opaque (u ++ NL :: R) prev 0 (Forall_nil _)) as H.
  rewrite E, !opaque_part_app in H.
  change (opaque_part (NL :: sub_go ml r repl (Some NL) R 0))
    with (NL :: opaque_part (sub_go ml r repl (Some NL) R 0)) in H.
  change (opaque_part (NL :: R)) with (NL :: opaque_part R) in H.
  rewrite (faint_opaque R (Some NL) 0 (Forall_nil _)) in H.
  now apply app_inv_tail in H.
Qed.

End FaintStep.

(** ** The replacements *)

Lemma startswith_other (old u R : str) (x : char) :
  ~ In x old -> startswith (u ++ x :: R) old = startswith u old.
Proof.
  revert u. induction old as [|a old IH]; intros u Hn; [reflexivity |].
  assert (Ha : a <> x) by (intros ->; apply Hn; now left).
  assert (Ho : ~ In x old) by (intros H; apply Hn; now right).
  destruct u as [|b u]; cbn [app startswith].
  - apply N.eqb_neq in Ha. now rewrite Ha.
  - now rewrite IH.
Qed.

Lemma startswith_length (old u : str) :
  startswith u old = true -> length old <= length u.
Proof.
  revert u. induction old as [|a old IH]; intros u; cbn [startswith length]; [lia |].
  destruct u as [|b u]; [discriminate |].
  rewrite andb_true_iff. intros [_ H]. apply IH in H. cbn [length]. lia.
Qed.

Lemma replace_go_split (old new R : str) (x : char) :
  old <> [] -> ~ In x old ->
  forall u skip,
    skip <= length u ->
    replace_go old new (u ++ x :: R) skip
    = replace_go old new u skip ++ x :: replace_go old new R 0.
Proof.
  intros Hne Hn. induction u as [|c u IH]; intros skip Hs.
  - assert (skip = 0) by (simpl in Hs; lia). subst skip.
    cbn [app replace_go].
    pose proof (@startswith_other old [] R x Hn) as E. cbn [app] in E. rewrite E.
    destruct old; [congruence | reflexivity].
  - cbn [app replace_go]. destruct skip as [|k].
    + pose proof (@startswith_other old (c :: u) R x Hn) as E. cbn [app] in E.
      rewrite E.
      destruct (startswith (c :: u) old) eqn:Es.
      * apply startswith_length in Es. cbn [length] in Es.
        rewrite IH by lia. now rewrite <- app_assoc.
      * rewrite IH by lia. reflexivity.
    + apply IH. simpl in Hs. lia.
Qed.

Lemma replace_go_same (old new : str) :
  old <> [] ->
  forall m, Forall (fun c => ~ In c old) m -> replace_go old new m 0 = m.
Proof.
  intros Hne m Hm. induction Hm as [|c m Hc _ IH]; [reflexivity |].
  pose proof (@replace_go_split old new m c Hne Hc [] 0 (Nat.le_refl _)) as E.
  cbn [app replace_go] in E. cbn [replace_go]. rewrite E, IH. reflexivity.
Qed.

Lemma remove_cr_opaque (s : str) :
  opaque_part (replace_go [CR] [] s 0) = opaque_part s.
Proof.
  induction s as [|c s IH]; [reflexivity |].
  cbn [replace_go startswith length Nat.sub app].
  destruct (N.eqb_spec CR c) as [<- | Hc]; cbn [andb].
  - exact IH.
  - unfold opaque_part in *. cbn [filter]. now rewrite IH.
Qed.

Lemma startswith_pair (x y c : char) (t : str) :
  startswith (c :: t) [x; y] = true -> c = x /\ exists t', t = y :: t'.
Proof.
  cbn [startswith]. rewrite andb_true_iff, N.eqb_eq. intros [-> H].
  split; auto. destruct t as [|d t]; [discriminate |].
  rewrite andb_true_iff, N.eqb_eq in H. destruct H as [-> _]. eauto.
Qed.

(** Unescaping a parenthesis writes a hard character for two. *)
Lemma unescape_start (x y : char) :
  x <> y -> hard x = true -> hard y = true ->
  forall s,
    ok_head (replace_go [x; y] [y] s 0) = ok_head s
    /\ ok_start (replace_go [x; y] [y] s 0) = ok_start s.
Proof.
  intros Hxy Hx Hy. induction s as [|c t [IHh IHs]]; [split; reflexivity |].
  cbn [replace_go]. destruct (startswith (c :: t) [x; y]) eqn:E.
  - apply startswith_pair in E. destruct E as [-> (t' & ->)].
    cbn [length Nat.sub app replace_go].
    destruct (hard_start y (replace_go [x; y] [y] t' 0) Hy) as [-> ->].
    destruct (hard_start x (y :: t') Hx) as [-> ->]. auto.
  - cbn [ok_start ok_head]. now rewrite IHh, IHs.
Qed.

Lemma unescape_last (x y : char) (m : str) :
  x <> y -> Forall (fun c => ~ In c [x; y]) m ->
  forall pre b skip,
    skip <= length pre ->
    exists P, replace_go [x; y] [y] (pre ++ b :: m) skip = P ++ b :: m.
Proof.
  intros Hxy Hm.
  assert (Hsame : replace_go [x; y] [y] m 0 = m)
    by (apply replace_go_same; [discriminate | exact Hm]).
  assert (Hnot : forall b, startswith (b :: m) [x; y] = false).
  { intros b. cbn [startswith]. destruct (x =? b)%N; [| reflexivity].
    destruct Hm as [|d m Hd _]; [reflexivity |].
    cbn [andb startswith]. destruct (N.eqb_spec y d) as [<- |]; [| reflexivity].
    exfalso. apply Hd. right. now left. }
  induction pre as [|c pre IH]; intros b skip Hs.
  - assert (skip = 0) by (simpl in Hs; lia). subst skip.
    exists []. cbn [app replace_go]. now rewrite Hnot, Hsame.
  - cbn [app replace_go]. destruct skip as [|k].
    + destruct (startswith (c :: pre ++ b :: m) [x; y]) eqn:E.
      * apply startswith_pair in E. destruct E as [-> (t' & E)].
        cbn [length Nat.sub]. destruct pre as [|d pre].
        -- cbn [app] in E. injection E as -> <-.
           exists []. cbn [app replace_go]. now rewrite Hsame.
        -- destruct (IH b 1 ltac:(cbn [length]; lia)) as (P & ->).
           exists ([y] ++ P). now rewrite <- app_assoc.
      * destruct (IH b 0 ltac:(lia)) as (P & ->). now exists (c :: P).
    + apply IH. simpl in Hs. lia.
Qed.

Lemma unescape_end (x y : char) (u : str) :
  x <> y -> hard x = true -> hard y = true ->
  ok_end u = true -> ok_end (replace_go [x; y] [y] u 0) = true.
Proof.
  intros Hxy Hx Hy Hu.
  assert (Hsoft : forall m,
            Forall (fun c => hard c = false) m ->
            Forall (fun c => ~ In c [x; y]) m).
  { intros m Hm. rewrite Forall_forall in *. intros c Hc [<- | [<- | []]];
      apply Hm in Hc; congruence. }
  destruct (ok_end_split u Hu) as [Hz | (pre & b & tail & z & -> & Hb & Ht & Hz)].
  - rewrite replace_go_same; [exact Hu | discriminate |].
    apply Hsoft. rewrite Forall_forall in *. intros c Hc.
    now destruct (transparent_spec c (Hz c Hc)) as (_ & H & _).
  - destruct (@unescape_last x y (tail ++ z) Hxy) with (pre := pre) (b := b) (skip := 0)
      as (P & ->); [| lia | now apply ok_end_built].
    apply Hsoft, Forall_app. split.
    + rewrite Forall_forall in *. intros c Hc.
      now destruct (inline_spec c (Ht c Hc)) as (H & _).
    + rewrite Forall_forall in *. intros c Hc.
      now destruct (transparent_spec c (Hz c Hc)) as (_ & H & _).
Qed.

Section ReplaceStep.

Variables old new : str.

Hypothesis old_nonempty : old <> [].
Hypothesis old_inline : ~ In NL old.
Hypothesis same_guards : forall s,
  (ok_end s = true -> ok_end (replace_go old new s 0) = true)
  /\ (ok_start s = true -> ok_start (replace_go old new s 0) = true).
Hypothesis new_written : forall c, In c new -> In c (lit ": ()").

Lemma replace_from_piece (s : str) : from_piece s (replace_go old new s 0).
Proof.
  intros c Hc. apply replace_go_in in Hc. destruct Hc; auto.
Qed.

Lemma replace_piece (u R : str) (prev : option char) :
  ok_end u = true -> ok_start R = true ->
  exists U,
    replace_go old new (u ++ NL :: R) 0 = U ++ NL :: replace_go old new R 0
    /\ ok_end U = true /\ (ok_start u = true -> ok_start U = true)
    /\ from_piece u U.
Proof.
  intros Hu _. exists (replace_go old new u 0).
  destruct (same_guards u) as [He Hs].
  split; [apply replace_go_split; auto; lia |].
  split; [auto |]. split; [auto | apply replace_from_piece].
Qed.

Lemma replace_last (s : str) (prev : option char) :
  (ok_start s = true -> ok_start (replace_go old new s 0) = true)
  /\ from_piece s (replace_go old new s 0).
Proof.
  destruct (same_guards s) as [_ Hs].
  split; [auto | apply replace_from_piece].
Qed.

End ReplaceStep.

(** ** The words of the patterns *)

Lemma star_faint (w : str) :
  den App.stars_pat w -> Forall (fun c => faint c = true) w.
Proof.
  revert w. apply den_rep_chars. intros w ->. repeat constructor.
Qed.

Lemma blank_faint (w : str) :
  den App.blanks_pat w -> Forall (fun c => faint c = true) w.
Proof.
  revert w. apply den_rep_chars. intros w (c & -> & Hc). repeat constructor.
  unfold in_cls in Hc. cbn [existsb in_citem xorb] in Hc.
  rewrite !orb_true_iff, !N.eqb_eq in Hc.
  destruct Hc as [<- | [<- | [<- | [<- | H]]]]; try reflexivity. discriminate.
Qed.

Lemma ws_soft (w : str) : den Ws w -> Forall (fun c => soft c = true) w.
Proof.
  intros (c & -> & Hc). rewrite in_cls_space in Hc. repeat constructor.
  unfold soft. now rewrite Hc.
Qed.

Lemma lead_underscores_soft (w : str) :
  den App.lead_underscores_pat w -> Forall (fun c => soft c = true) w.
Proof.
  intros (w1 & w2 & -> & -> & w3 & w4 & -> & H3 & H4). cbn [app].
  apply Forall_app. split.
  - revert w3 H3. apply den_rep_chars. intros w ->. repeat constructor.
  - revert w4 H4. apply den_rep_chars. apply ws_soft.
Qed.

Lemma trail_underscores_soft (w : str) :
  den App.trail_underscores_pat w -> Forall (fun c => soft c = true) w.
Proof.
  intros (w1 & w2 & -> & H1 & w3 & w4 & -> & H3 & ->).
  rewrite app_nil_r. apply Forall_app. split.
  - revert w1 H1. apply den_rep_chars. apply ws_soft.
  - revert w3 H3. apply den_rep_chars. intros w ->. repeat constructor.
Qed.

Lemma colon_soft (w : str) :
  den App.colon_pat w -> Forall (fun c => soft c = true) w.
Proof.
  intros (w1 & w2 & -> & H1 & w3 & w4 & -> & -> & H4).
  apply Forall_app. split; [| constructor; [reflexivity |]].
  - revert w1 H1. apply den_rep_chars. apply ws_soft.
  - revert w4 H4. apply den_rep_chars. apply ws_soft.
Qed.

(** *** The colon *)

(** No match of the colon pattern begins where a hard character, or the
    end of the text, comes before any colon. *)
Lemma colon_none (zone rest : str) (p : option char) :
  Forall (fun c => (c =? COLON)%N = false) zone ->
  (rest = [] \/ exists c r, rest = c :: r /\ hard c = true) ->
  match_len false App.colon_pat p (zone ++ rest) = None.
Proof.
  intros Hz HR.
  destruct (match_len false App.colon_pat p (zone ++ rest)) as [n|] eqn:E; auto.
  exfalso. apply match_len_sound in E. destruct E as [Hd _].
  pose proof (colon_soft Hd) as Hs. pose proof (colon_has Hd) as Hm.
  rewrite firstn_app in Hm, Hs.
  apply in_app_or in Hm. destruct Hm as [Hm | Hm].
  - assert (Hin : In COLON zone).
    { rewrite <- (firstn_skipn n zone). apply in_or_app. now left. }
    rewrite Forall_forall in Hz. apply Hz in Hin. discriminate.
  - destruct HR as [-> | (c & r & -> & Hc)].
    + rewrite firstn_nil in Hm. destruct Hm.
    + destruct (n - length zone) as [|k]; [destruct Hm |].
      apply Forall_app in Hs. destruct Hs as [_ Hs].
      cbn [firstn] in Hs. inversion Hs; subst.
      destruct (hard_spec c Hc) as (_ & _ & _ & F & _). congruence.
Qed.

Lemma no_colon_blank (z : str) :
  Forall (fun c => transparent c = true) z ->
  Forall (fun c => (c =? COLON)%N = false) z.
Proof.
  intros H. rewrite Forall_forall in *. intros c Hc.
  now destruct (transparent_spec c (H c Hc)) as (_ & _ & _ & F).
Qed.

Lemma no_colon_inline (h : str) :
  Forall (fun c => inline c = true) h ->
  Forall (fun c => (c =? COLON)%N = false) h.
Proof.
  intros H. rewrite Forall_forall in *. intros c Hc.
  now destruct (inline_spec c (H c Hc)) as (_ & F & _).
Qed.

(** No match of the colon pattern begins in a stretch without colon that
    is followed by a guarded start. *)
Lemma colon_quiet (zone R : str) (p : option char) :
  Forall (fun c => (c =? COLON)%N = false) zone -> ok_start R = true ->
  match_len false App.colon_pat p (zone ++ R) = None.
Proof.
  intros Hz HR.
  destruct (ok_start_split R HR) as (z & h & rest & -> & Hy & Hh & Hrest).
  replace (zone ++ z ++ h ++ rest) with ((zone ++ z ++ h) ++ rest)
    by (now rewrite <- !app_assoc).
  apply colon_none.
  - repeat (apply Forall_app; split); auto using no_colon_blank, no_colon_inline.
  - destruct Hrest as [[_ ->] | H]; auto.
Qed.

Lemma colon_blank_kept (repl z R : str) (prev : option char) :
  Forall (fun c => transparent c = true) z -> ok_start R = true ->
  sub_go false App.colon_pat repl prev (z ++ NL :: R) 0
  = z ++ NL :: sub_go false App.colon_pat repl (Some NL) R 0.
Proof.
  intros Hz HR. apply sub_go_copy. intros z1 z2 p ->.
  apply Forall_app in Hz. destruct Hz as [_ Hz2].
  replace (z2 ++ NL :: R) with ((z2 ++ [NL]) ++ R) by (now rewrite <- app_assoc).
  apply colon_quiet; auto.
  apply Forall_app. split; [now apply no_colon_blank | now repeat constructor].
Qed.

Lemma colon_margin_kept (repl : str) (b : char) (tail z R : str) :
  hard b = true -> Forall (fun c => inline c = true) tail ->
  Forall (fun c => transparent c = true) z -> ok_start R = true ->
  exists Y,
    sub_go false App.colon_pat repl (Some b) (tail ++ z ++ NL :: R) 0
    = Y ++ z ++ NL :: sub_go false App.colon_pat repl (Some NL) R 0
    /\ Forall (fun c => inline c = true) Y /\ (forall c, In c Y -> In c tail).
Proof.
  intros Hb Ht Hz HR. exists tail. split; [| auto].
  rewrite !app_assoc. apply sub_go_copy. intros z1 z2 p E.
  assert (H : Forall (fun c => (c =? COLON)%N = false) (z1 ++ z2)).
  { rewrite <- E. apply Forall_app. auto using no_colon_blank, no_colon_inline. }
  apply Forall_app in H. destruct H as [_ H2].
  replace (z2 ++ NL :: R) with ((z2 ++ [NL]) ++ R) by (now rewrite <- app_assoc).
  apply colon_quiet; auto.
  apply Forall_app. split; [exact H2 | now repeat constructor].
Qed.

Lemma colon_start_kept (repl s : str) (prev : option char) :
  ok_start s = true ->
  ok_start (sub_go false App.colon_pat repl prev s 0) = true.
Proof.
  intros H. destruct (ok_start_split s H) as (z & h & rest & -> & Hz & Hh & Hrest).
  assert (Hzh : Forall (fun c => (c =? COLON)%N = false) (z ++ h)).
  { apply Forall_app. auto using no_colon_blank, no_colon_inline. }
  destruct Hrest as [[-> ->] | (c & r & -> & Hc)].
  - rewrite !app_nil_r in *. rewrite sub_go_copy_end; [now apply ok_start_blank |].
    intros z1 z2 p ->. apply Forall_app in Hzh. destruct Hzh as [_ H2].
    rewrite <- (app_nil_r z2). now apply colon_quiet.
  - rewrite app_assoc. rewrite sub_go_copy.
    + rewrite <- app_assoc. now apply ok_start_built.
    + intros z1 z2 p E. rewrite E in Hzh.
      apply Forall_app in Hzh. destruct Hzh as [_ H2].
      apply colon_quiet; auto. now apply hard_start.
Qed.

(** *** The underscores that begin a line *)

Lemma lead_first (p : option char) (s : str) (n : nat) :
  match_len true App.lead_underscores_pat p s = Some n ->
  at_bol true p = true /\ exists t, s = USCORE :: t.
Proof.
  unfold match_len, App.lead_underscores_pat. cbn [exec].
  destruct (at_bol true p); [| discriminate].
  intros H. apply exec_sound in H.
  destruct H as (w & p1 & s1 & cs1 & -> & (ws & -> & Hws & Hlen) & _).
  split; auto.
  destruct Hws as [|x ws Hx _]; [simpl in Hlen; lia |].
  simpl in Hx. subst x. simpl. eauto.
Qed.

Lemma lead_none (p : option char) (s : str) :
  (forall t, s <> USCORE :: t) ->
  match_len true App.lead_underscores_pat p s = None.
Proof.
  intros Hs. destruct (match_len true App.lead_underscores_pat p s) eqn:E; auto.
  apply lead_first in E. destruct E as (_ & t & ->). now destruct (Hs t).
Qed.

Lemma lead_none_blank (z2 R : str) (p : option char) :
  Forall (fun c => transparent c = true) z2 ->
  match_len true App.lead_underscores_pat p (z2 ++ NL :: R) = None.
Proof.
  intros Hz. apply lead_none. intros t E.
  destruct Hz as [|c z2 Hc _]; [discriminate |].
  injection E as -> _. discriminate.
Qed.

Lemma lead_blank_kept (z R : str) (prev : option char) :
  Forall (fun c => transparent c = true) z -> ok_start R = true ->
  sub_go true App.lead_underscores_pat [] prev (z ++ NL :: R) 0
  = z ++ NL :: sub_go true App.lead_underscores_pat [] (Some NL) R 0.
Proof.
  intros Hz _. apply sub_go_copy. intros z1 z2 p ->.
  apply Forall_app in Hz. destruct Hz as [_ Hz2]. now apply lead_none_blank.
Qed.

Lemma lead_margin_kept (b : char) (tail z R : str) :
  hard b = true -> Forall (fun c => inline c = true) tail ->
  Forall (fun c => transparent c = true) z -> ok_start R = true ->
  exists Y,
    sub_go true App.lead_underscores_pat [] (Some b) (tail ++ z ++ NL :: R) 0
    = Y ++ z ++ NL :: sub_go true App.lead_underscores_pat [] (Some NL) R 0
    /\ Forall (fun c => inline c = true) Y /\ (forall c, In c Y -> In c tail).
Proof.
  intros Hb Ht Hz _. exists tail. split; [| auto].
  rewrite !app_assoc. apply sub_go_copy_at. intros z1 z2 E.
  destruct (match_len true App.lead_underscores_pat
              (last (map Some z1) (Some b)) (z2 ++ NL :: R)) eqn:M; auto.
  exfalso. apply lead_first in M. destruct M as (Hbol & t & Et).
  destruct z2 as [|c z2]; [discriminate |]. injection Et as -> _.
  apply app_eq_app in E. destruct E as (l & [[E1 E2] | [E1 E2]]).
  - assert (Hz1 : Forall (fun c => inline c = true) z1).
    { rewrite E1 in Ht. now apply Forall_app in Ht. }
    destruct (last_some_in z1 b) as (d & Ed & Hd). rewrite Ed in Hbol.
    cbn [at_bol andb] in Hbol.
    destruct Hd as [-> | Hd].
    + destruct (hard_spec b Hb) as (_ & _ & _ & _ & _ & _ & F). congruence.
    + rewrite Forall_forall in Hz1.
      destruct (inline_spec d (Hz1 d Hd)) as (_ & _ & F & _). congruence.
  - assert (Hin : In USCORE z).
    { rewrite E2. apply in_or_app. right. now left. }
    rewrite Forall_forall in Hz. apply Hz in Hin. discriminate.
Qed.

Lemma lead_start_kept (s : str) (prev : option char) :
  ok_start s = true ->
  ok_start (sub_go true App.lead_underscores_pat [] prev s 0) = true.
Proof.
  intros H. destruct (ok_start_split s H) as (z & h & rest & -> & Hz & Hh & Hrest).
  destruct (@sub_go_pass true App.lead_underscores_pat [] (h ++ rest) z prev)
    as (p' & ->).
  { intros z1 c z2 p ->. apply lead_none. intros t E. injection E as -> _.
    apply Forall_app in Hz. destruct Hz as [_ Hz]. inversion Hz; subst.
    discriminate. }
  destruct Hrest as [[-> ->] | (c & r & -> & Hc)].
  - cbn [app sub_go]. rewrite lead_none by (intros t; discriminate).
    rewrite app_nil_r. now apply ok_start_blank.
  - destruct (@sub_go_split true App.lead_underscores_pat [] c r h p' 0)
      as (X & -> & HX); [lia | |].
    { intros u1 u2 p n _.
      now apply (@words_no_cross true App.lead_underscores_pat
                   lead_underscores_soft). }
    apply ok_start_built; auto.
    rewrite Forall_forall in *. intros d Hd.
    destruct (HX d Hd) as [Hin | []]. auto.
Qed.

(** *** The underscores that end a line *)

Lemma plus_lit_last (c : char) (w : str) :
  den (Plus (Lit c)) w -> exists w', w = w' ++ [c] /\ Forall (fun d => d = c) w'.
Proof.
  intros H.
  assert (Hall : Forall (fun d => d = c) w).
  { revert w H. apply den_rep_chars. intros w ->. now repeat constructor. }
  pose proof (den_plus_lit H) as Hin.
  destruct (exists_last (l := w)) as (w' & a & ->).
  { intros ->. destruct Hin. }
  apply Forall_app in Hall. destruct Hall as [Hw' Ha].
  inversion Ha; subst. now exists w'.
Qed.

Lemma trail_ends (p : option char) (s : str) (n : nat) :
  match_len true App.trail_underscores_pat p s = Some n ->
  exists w T,
    s = w ++ USCORE :: T /\ n = S (length w)
    /\ Forall (fun c => isspace c || (c =? USCORE)%N = true) w
    /\ (T = [] \/ exists t, T = NL :: t).
Proof.
  unfold match_len, App.trail_underscores_pat. cbn [exec]. intros H.
  apply exec_sound in H. destruct H as (w1 & p1 & s1 & cs1 & -> & Hw1 & H).
  apply exec_sound in H. destruct H as (w2 & p2 & s2 & cs2 & -> & Hw2 & H).
  destruct (at_eol true s2) eqn:He; [| discriminate]. injection H as <-.
  apply plus_lit_last in Hw2. destruct Hw2 as (w2' & -> & Hw2).
  exists (w1 ++ w2'), s2. repeat split.
  - now rewrite <- !app_assoc.
  - rewrite !length_app. cbn [length]. lia.
  - apply Forall_app. split.
    + revert w1 Hw1. apply den_rep_chars. intros w (c & -> & Hc).
      rewrite in_cls_space in Hc. repeat constructor. now rewrite Hc.
    + rewrite Forall_forall in *. intros c Hc. rewrite (Hw2 c Hc).
      apply orb_true_r.
  - destruct s2 as [|c t]; auto. right. exists t.
    cbn [at_eol] in He. apply andb_true_iff in He. destruct He as [He _].
    apply N.eqb_eq in He. now subst c.
Qed.

Lemma trail_quiet (S : str) (p : option char) :
  ok_start S = true -> match_len true App.trail_underscores_pat p S = None.
Proof.
  intros HS. destruct (match_len true App.trail_underscores_pat p S) eqn:E; auto.
  apply trail_ends in E. destruct E as (w & T & -> & _ & Hw & HT).
  rewrite ok_start_no_close in HS by assumption. discriminate.
Qed.

(** A match that begins before a guarded start ends before it. *)
Lemma trail_stays (u2 S : str) (p : option char) (n : nat) :
  ok_start S = true ->
  match_len true App.trail_underscores_pat p (u2 ++ S) = Some n ->
  n <= length u2.
Proof.
  intros HS E. apply trail_ends in E. destruct E as (w & T & E & -> & Hw & HT).
  apply app_eq_app in E. destruct E as (l & [[E1 E2] | [E1 E2]]).
  - destruct l as [|d l].
    + cbn [app] in E2. subst S.
      pose proof (@ok_start_no_close [] T (Forall_nil _) HT) as F.
      cbn [app] in F. congruence.
    + subst u2. rewrite length_app. cbn [length]. lia.
  - subst w S. apply Forall_app in Hw. destruct Hw as [_ Hl].
    rewrite ok_start_no_close in HS by assumption. discriminate.
Qed.

Lemma trail_blank_kept (z R : str) (prev : option char) :
  Forall (fun c => transparent c = true) z -> ok_start R = true ->
  sub_go true App.trail_underscores_pat [] prev (z ++ NL :: R) 0
  = z ++ NL :: sub_go true App.trail_underscores_pat [] (Some NL) R 0.
Proof.
  intros Hz HR. apply sub_go_copy. intros z1 z2 p ->.
  apply Forall_app in Hz. destruct Hz as [_ Hz2].
  apply trail_quiet. now rewrite ok_start_transparent.
Qed.

Lemma trail_margin_kept (b : char) (tail z R : str) :
  hard b = true -> Forall (fun c => inline c = true) tail ->
  Forall (fun c => transparent c = true) z -> ok_start R = true ->
  exists Y,
    sub_go true App.trail_underscores_pat [] (Some b) (tail ++ z ++ NL :: R) 0
    = Y ++ z ++ NL :: sub_go true App.trail_underscores_pat [] (Some NL) R 0
    /\ Forall (fun c => inline c = true) Y /\ (forall c, In c Y -> In c tail).
Proof.
  intros Hb Ht Hz HR.
  assert (HS : ok_start (z ++ NL :: R) = true).
  { now rewrite ok_start_transparent. }
  assert (Hin : forall Y, (forall c, In c Y -> In c tail \/ In c (@nil char)) ->
            Forall (fun c => inline c = true) Y /\ (forall c, In c Y -> In c tail)).
  { intros Y HY.
    assert (H : forall c, In c Y -> In c tail)
      by (intros c Hc; destruct (HY c Hc) as [H | []]; exact H).
    split; auto. rewrite Forall_forall in *. auto. }
  destruct z as [|x z].
  - destruct (@sub_go_split true App.trail_underscores_pat [] NL R tail (Some b) 0)
      as (Y & E & HY); [lia | |].
    { intros u1 u2 p n _. now apply trail_stays. }
    exists Y. split; [exact E | now apply Hin].
  - destruct (@sub_go_split true App.trail_underscores_pat [] x (z ++ NL :: R)
                tail (Some b) 0) as (Y & E & HY); [lia | |].
    { intros u1 u2 p n _. now apply trail_stays. }
    exists Y. split; [| now apply Hin].
    cbn [app]. rewrite E. inversion Hz; subst.
    now rewrite trail_blank_kept.
Qed.

Lemma trail_start_kept (s : str) (prev : option char) :
  ok_start s = true ->
  ok_start (sub_go true App.trail_underscores_pat [] prev s 0) = true.
Proof.
  intros H. destruct (ok_start_split s H) as (z & h & rest & -> & Hz & Hh & Hrest).
  destruct Hrest as [[-> ->] | (c & r & -> & Hc)].
  - rewrite !app_nil_r in *. rewrite sub_go_copy_end; [exact H |].
    intros z1 z2 p ->. apply Forall_app in Hz. destruct Hz as [_ H2].
    apply trail_quiet. now apply ok_start_blank.
  - rewrite app_assoc. rewrite sub_go_copy.
    + rewrite <- app_assoc. now apply ok_start_built.
    + intros z1 z2 p E. apply trail_quiet.
      now apply (@ok_start_suffix z h c r z1 z2).
Qed.

(** ** The steps of the normalizer on guarded pieces *)

Lemma mark_step_pieces (ml : bool) (r : re) (repl : str) :
  (forall w, den r w -> Forall (fun c => soft c = true) w) ->
  (forall z R prev,
     Forall (fun c => transparent c = true) z -> ok_start R = true ->
     sub_go ml r repl prev (z ++ NL :: R) 0
     = z ++ NL :: sub_go ml r repl (Some NL) R 0) ->
  (forall b tail z R,
     hard b = true -> Forall (fun c => inline c = true) tail ->
     Forall (fun c => transparent c = true) z -> ok_start R = true ->
     exists Y,
       sub_go ml r repl (Some b) (tail ++ z ++ NL :: R) 0
       = Y ++ z ++ NL :: sub_go ml r repl (Some NL) R 0
       /\ Forall (fun c => inline c = true) Y /\ (forall c, In c Y -> In c tail)) ->
  (forall s prev,
     ok_start s = true -> ok_start (sub_go ml r repl prev s 0) = true) ->
  (forall c, In c repl -> In c (lit ": ()")) ->
  forall ps, ps <> [] -> guarded ps ->
  forall prev,
  exists ps',
    sub_go ml r repl prev (join [NL] ps) 0 = join [NL] ps'
    /\ length ps' = length ps /\ guarded ps'
    /\ (ok_start (hd [] ps) = true -> ok_start (hd [] ps') = true)
    /\ Forall2 from_piece ps ps'.
Proof.
  intros Hsoft Hblank Hmargin Hstart Hrepl ps Hne Hg prev.
  apply (pieces_step (fun p s => sub_go ml r repl p s 0)); auto.
  - intros u R p Hu HR.
    destruct (@mark_piece ml r repl Hsoft Hblank Hmargin Hstart u R p Hu HR)
      as (U & E & HU & HUs & HUc).
    exists U. repeat split; auto.
    intros c Hc. destruct (HUc c Hc); auto.
  - intros s p. split; [now apply Hstart |].
    intros c Hc. apply sub_go_in in Hc. destruct Hc; auto.
Qed.

Lemma faint_step_pieces (ml : bool) (r : re) (repl : str) :
  (forall w, den r w -> Forall (fun c => faint c = true) w) ->
  Forall (fun c => faint c = true) repl ->
  (forall c, In c repl -> In c (lit ": ()")) ->
  forall ps, ps <> [] -> guarded ps ->
  forall prev,
  exists ps',
    sub_go ml r repl prev (join [NL] ps) 0 = join [NL] ps'
    /\ length ps' = length ps /\ guarded ps'
    /\ (ok_start (hd [] ps) = true -> ok_start (hd [] ps') = true)
    /\ Forall2 from_piece ps ps'.
Proof.
  intros Hf Hrf Hrepl ps Hne Hg prev.
  apply (pieces_step (fun p s => sub_go ml r repl p s 0)); auto.
  - intros u R p Hu HR.
    destruct (@faint_piece ml r repl Hf Hrf u R p) as (U & E & HU & HUc).
    destruct (same_opaque_guards _ _ HU) as [He Hs].
    exists U. repeat split; auto; try congruence.
    intros c Hc. destruct (HUc c Hc); auto.
  - intros s p.
    pose proof (@faint_opaque ml r repl Hf Hrf s p 0 (Forall_nil _)) as H.
    destruct (same_opaque_guards _ _ H) as [_ Hs].
    split; [congruence |].
    intros c Hc. apply sub_go_in in Hc. destruct Hc; auto.
Qed.

Lemma replace_step_pieces (old new : str) :
  old <> [] -> ~ In NL old ->
  (forall s, (ok_end s = true -> ok_end (replace_go old new s 0) = true)
             /\ (ok_start s = true -> ok_start (replace_go old new s 0) = true)) ->
  (forall c, In c new -> In c (lit ": ()")) ->
  forall ps, ps <> [] -> guarded ps ->
  exists ps',
    replace (join [NL] ps) old new = join [NL] ps'
    /\ length ps' = length ps /\ guarded ps'
    /\ (ok_start (hd [] ps) = true -> ok_start (hd [] ps') = true)
    /\ Forall2 from_piece ps ps'.
Proof.
  intros Hne Hn Hguard Hnew ps Hps Hg. unfold replace.
  apply (pieces_step (fun (_ : option char) s => replace_go old new s 0)
           (@replace_piece old new Hne Hn Hguard Hnew)
           (@replace_last old new Hguard Hnew) Hps Hg None).
Qed.

Lemma remove_cr_guards (s : str) :
  (ok_end s = true -> ok_end (replace_go [CR] [] s 0) = true)
  /\ (ok_start s = true -> ok_start (replace_go [CR] [] s 0) = true).
Proof.
  destruct (same_opaque_guards _ _ (remove_cr_opaque s)) as [-> ->]. auto.
Qed.

Lemma unescape_guards (x y : char) (s : str) :
  x <> y -> hard x = true -> hard y = true ->
  (ok_end s = true -> ok_end (replace_go [x; y] [y] s 0) = true)
  /\ (ok_start s = true -> ok_start (replace_go [x; y] [y] s 0) = true).
Proof.
  intros Hxy Hx Hy. split.
  - now apply unescape_end.
  - destruct (@unescape_start x y Hxy Hx Hy s) as [_ ->]. auto.
Qed.

(** The boundaries of guarded pieces through the seven steps. *)
Lemma preclean_pieces (ps : list str) :
  guarded ps ->
  exists ps',
    App._preclean_text (join [NL] ps) = join [NL] ps'
    /\ length ps' = length ps /\ Forall2 from_piece ps ps'.
Proof.
  intros Hg. destruct ps as [|u0 ps0].
  { exists []. repeat split; constructor. }
  set (ps := u0 :: ps0) in *.
  assert (Hne : ps <> []) by discriminate.
  assert (Hnext : forall (qs qs' : list str),
            qs <> [] -> length qs' = length qs -> qs' <> []).
  { intros qs qs' Hq Hl ->. destruct qs; [congruence | discriminate]. }
  assert (Hw : forall c, In c (@nil char) -> In c (lit ": ()")) by (intros c []).
  unfold App._preclean_text. cbv zeta.
  (* step 1 *)
  destruct (@replace_step_pieces [CR] [] ltac:(discriminate)
              ltac:(intros [H | []]; discriminate)
              remove_cr_guards Hw
              ps Hne Hg) as (p1 & E1 & L1 & G1 & _ & C1).
  rewrite E1. pose proof (Hnext _ _ Hne L1) as N1.
  (* step 2 *)
  destruct (@faint_step_pieces false App.stars_pat []
              star_faint (Forall_nil _) Hw p1 N1 G1 None)
    as (p2 & E2 & L2 & G2 & _ & C2).
  unfold re_sub at 5. rewrite E2. pose proof (Hnext _ _ N1 L2) as N2.
  (* step 3 *)
  destruct (@mark_step_pieces true App.lead_underscores_pat []
              lead_underscores_soft lead_blank_kept lead_margin_kept
              lead_start_kept Hw p2 N2 G2 None) as (p3 & E3 & L3 & G3 & _ & C3).
  unfold re_sub at 4. rewrite E3. pose proof (Hnext _ _ N2 L3) as N3.
  (* step 4 *)
  destruct (@mark_step_pieces true App.trail_underscores_pat []
              trail_underscores_soft trail_blank_kept trail_margin_kept
              trail_start_kept Hw p3 N3 G3 None) as (p4 & E4 & L4 & G4 & _ & C4).
  unfold re_sub at 3. rewrite E4. pose proof (Hnext _ _ N3 L4) as N4.
  (* step 5 *)
  destruct (@replace_step_pieces [BSLASH; LPAR] [LPAR] ltac:(discriminate)
              ltac:(intros [H | [H | []]]; discriminate)
              (fun s => @unescape_guards BSLASH LPAR s ltac:(discriminate)
                          eq_refl eq_refl)
              ltac:(intros c [<- | []]; vm_compute; auto)
              p4 N4 G4) as (p5 & E5 & L5 & G5 & _ & C5).
  rewrite E5. pose proof (Hnext _ _ N4 L5) as N5.
  destruct (@replace_step_pieces [BSLASH; RPAR] [RPAR] ltac:(discriminate)
              ltac:(intros [H | [H | []]]; discriminate)
              (fun s => @unescape_guards BSLASH RPAR s ltac:(discriminate)
                          eq_refl eq_refl)
              ltac:(intros c [<- | []]; vm_compute; auto)
              p5 N5 G5) as (p6 & E6 & L6 & G6 & _ & C6).
  rewrite E6. pose proof (Hnext _ _ N5 L6) as N6.
  (* step 6 *)
  destruct (@mark_step_pieces false App.colon_pat (lit ": ")
              colon_soft (@colon_blank_kept (lit ": "))
              (@colon_margin_kept (lit ": ")) (@colon_start_kept (lit ": "))
              ltac:(intros c [<- | [<- | []]]; vm_compute; auto)
              p6 N6 G6 None) as (p7 & E7 & L7 & G7 & _ & C7).
  unfold re_sub at 2. rewrite E7. pose proof (Hnext _ _ N6 L7) as N7.
  (* step 7 *)
  destruct (@faint_step_pieces false App.blanks_pat (lit " ")
              blank_faint ltac:(repeat constructor)
              ltac:(intros c [<- | []]; vm_compute; auto)
              p7 N7 G7 None) as (p8 & E8 & L8 & G8 & _ & C8).
  unfold re_sub. rewrite E8.
  exists p8. split; [reflexivity |]. split; [congruence |].
  eauto 10 using from_pieces_trans.
Qed.

(** ** The newlines of the normalized text *)

(** The newlines through the steps, one by one. *)
Lemma preclean_newlines_steps (t : str) :
  count_nl (App._preclean_text t) <= count_nl t
  /\ count_nl (replace t [CR] []) = count_nl t
  /\ count_nl (re_sub false App.stars_pat [] t) = count_nl t
  /\ count_nl (replace (replace t [BSLASH; LPAR] [LPAR]) [BSLASH; RPAR] [RPAR])
     = count_nl t
  /\ count_nl (re_sub false App.blanks_pat (lit " ") t) = count_nl t
  /\ (~ In COLON t -> ~ In USCORE t ->
      count_nl (App._preclean_text t) = count_nl t).
Proof.
  assert (Hstars : forall s, count_nl (re_sub false App.stars_pat [] s) = count_nl s).
  { intros s. apply re_sub_nl_eq; auto using stars_no_newline. }
  assert (Hblanks : forall s,
             count_nl (re_sub false App.blanks_pat (lit " ") s) = count_nl s).
  { intros s. apply re_sub_nl_eq; auto using blanks_no_newline. }
  repeat split; auto using remove_cr_nl, unescape_nl.
  - unfold App._preclean_text. cbv zeta.
    rewrite Hblanks.
    etransitivity; [apply re_sub_nl_le; reflexivity |].
    rewrite unescape_nl.
    etransitivity; [apply re_sub_nl_le; reflexivity |].
    etransitivity; [apply re_sub_nl_le; reflexivity |].
    rewrite Hstars, remove_cr_nl. auto.
  - intros Hc Hu. unfold App._preclean_text. cbv zeta.
    set (t1 := replace t [CR] []).
    set (t2 := re_sub false App.stars_pat [] t1).
    assert (H2 : forall x, In x t2 -> In x t).
    { intros x H. apply sub_go_in in H. destruct H as [H | []].
      apply replace_go_in in H. destruct H as [H | []]. exact H. }
    assert (E3 : re_sub true App.lead_underscores_pat [] t2 = t2).
    { unfold re_sub. apply sub_go_id with (x := USCORE); auto using lead_underscores_has. }
    rewrite E3.
    assert (E4 : re_sub true App.trail_underscores_pat [] t2 = t2).
    { unfold re_sub. apply sub_go_id with (x := USCORE); auto using trail_underscores_has. }
    rewrite E4.
    set (t5 := replace (replace t2 [BSLASH; LPAR] [LPAR]) [BSLASH; RPAR] [RPAR]).
    assert (E6 : re_sub false App.colon_pat (lit ": ") t5 = t5).
    { unfold re_sub. apply sub_go_id with (x := COLON); [apply colon_has |]. intros H.
      apply replace_go_in in H. destruct H as [H | [H | []]]; [| discriminate].
      apply replace_go_in in H. destruct H as [H | [H | []]]; [| discriminate].
      auto. }
    rewrite E6, Hblanks. unfold t5. rewrite unescape_nl. unfold t2.
    rewrite Hstars. apply remove_cr_nl.
Qed.

Lemma count_nl_join (ps : list str) :
  length ps - 1 <= count_nl (join [NL] ps)
  /\ (Forall (fun p => ~ In NL p) ps -> count_nl (join [NL] ps) = length ps - 1).
Proof.
  induction ps as [|u ps [IH1 IH2]]; [split; reflexivity |].
  destruct ps as [|v ps].
  - cbn [join length]. split; [lia |].
    intros H. inversion H; subst. apply count_nl_zero, Forall_forall.
    intros c Hc ->. contradiction.
  - change (join [NL] (u :: v :: ps)) with (u ++ NL :: join [NL] (v :: ps)).
    rewrite count_nl_app, count_nl_cons.
    destruct (N.eq_dec NL NL) as [_ | F]; [| congruence].
    cbn [length] in *. split; [lia |].
    intros H. inversion H; subst. rewrite (IH2 H3).
    assert (E : count_nl u = 0).
    { apply count_nl_zero, Forall_forall. intros c Hc ->. contradiction. }
    rewrite E. lia.
Qed.

(** C1, amended: [_preclean_text] never adds a newline, so its output has
    at most as many lines as its input; removing carriage returns, removing
    asterisks, unescaping parentheses and collapsing blanks keep every
    newline; a text without colon and without underscore keeps all its
    newlines.  A newline is kept when it is guarded on both sides: reading
    away from it past whitespace and asterisks, the text ends, or a
    character other than a colon and an underscore is met, or an underscore
    after which, on the same line and past underscores, asterisks and
    blanks, such a character is met.  When the text is cut at guarded
    newlines, the normalized text is cut at as many newlines into as many
    pieces, each made of characters of the piece at its place (and of the
    colon, space and parentheses that the normalizer writes); so a text all
    of whose newlines are guarded keeps its number of lines.  The three
    steps of the underscores and of the colon can each take a newline
    away. *)
Theorem preclean_newlines (t : str) :
  count_nl (App._preclean_text t) <= count_nl t
  /\ count_nl (replace t [CR] []) = count_nl t
  /\ count_nl (re_sub false App.stars_pat [] t) = count_nl t
  /\ count_nl (replace (replace t [BSLASH; LPAR] [LPAR]) [BSLASH; RPAR] [RPAR])
     = count_nl t
  /\ count_nl (re_sub false App.blanks_pat (lit " ") t) = count_nl t
  /\ (~ In COLON t -> ~ In USCORE t ->
      count_nl (App._preclean_text t) = count_nl t)
  /\ (forall ps, guarded ps -> t = join [NL] ps ->
      exists ps',
        App._preclean_text t = join [NL] ps'
        /\ length ps' = length ps /\ Forall2 from_piece ps ps')
  /\ (forall ps, guarded ps -> t = join [NL] ps ->
      Forall (fun p => ~ In NL p) ps ->
      count_nl (App._preclean_text t) = count_nl t)
  /\ (exists s, count_nl (re_sub true App.lead_underscores_pat [] s) < count_nl s)
  /\ (exists s, count_nl (re_sub true App.trail_underscores_pat [] s) < count_nl s)
  /\ (exists s, count_nl (re_sub false App.colon_pat (lit ": ") s) < count_nl s).
Proof.
  destruct (preclean_newlines_steps t) as (H1 & H2 & H3 & H4 & H5 & H6).
  repeat (split; [assumption |]).
  split; [| split; [| split; [| split]]].
  - intros ps Hg ->. now apply preclean_pieces.
  - intros ps Hg -> Hl.
    destruct (@preclean_pieces ps Hg) as (ps' & E & Hlen & _).
    apply Nat.le_antisymm; [exact H1 |].
    rewrite (proj2 (count_nl_join ps) Hl), E, <- Hlen.
    apply count_nl_join.
  - exists (lit "_" ++ [NL] ++ lit "a"). vm_compute. lia.
  - exists (lit "a" ++ [NL] ++ lit "_"). vm_compute. lia.
  - exists (lit "a" ++ [NL] ++ lit ": b"). vm_compute. lia.
Qed.
(** ** The further properties at concrete inputs *)

Lemma compaction_shrinks_witness :
  no_adjacent_scena [Block SCENA (lit "SCENA 1"); Block (lit "MARIO") (lit "Ciao")]
  /\ App.compaction [Block SCENA (lit "SCENA 1"); Block (lit "MARIO") (lit "Ciao")]
     = [Block SCENA (lit "SCENA 1"); Block (lit "MARIO") (lit "Ciao")].
Proof.
  assert (H : no_adjacent_scena
                [Block SCENA (lit "SCENA 1"); Block (lit "MARIO") (lit "Ciao")]).
  { intros l1 a b l2 E [_ Hb].
    destruct l1 as [|x [|y l1]]; inversion E; subst; try discriminate.
    destruct l1; discriminate. }
  split; [exact H |].
  destruct (compaction_shrinks
              [Block SCENA (lit "SCENA 1"); Block (lit "MARIO") (lit "Ciao")])
    as [_ G].
  exact (G H).
Defined.

Lemma preclean_removes_witness :
  In 97%N (App._preclean_text (lit "*a*" ++ [CR]))
  /\ 97%N <> CR /\ 97%N <> STAR /\ 97%N <> 9%N /\ 97%N <> 11%N
  /\ 97%N <> 12%N /\ 97%N <> 160%N.
Proof.
  assert (H : In 97%N (App._preclean_text (lit "*a*" ++ [CR])))
    by (vm_compute; auto).
  split; [exact H |].
  exact (@preclean_removes _ _ H).
Defined.

Lemma blank_document_witness :
  Forall (fun p => has_ink (page_text p) = false)
         [None; Some (lit "   "); Some [NL; 9%N; NL]]
  /\ App.parse_script_from_pdf [None; Some (lit "   "); Some [NL; 9%N; NL]] = [].
Proof.
  assert (H : Forall (fun p => has_ink (page_text p) = false)
                     [None; Some (lit "   "); Some [NL; 9%N; NL]])
    by (repeat constructor).
  split; [exact H | exact (@blank_document _ H)].
Defined.

Lemma parse_text_from_source_witness :
  In (Block (lit "MARIO") (lit "Ciao"))
     (App.parse_script_from_pdf [Some (lit "MARIO: *Ciao*")])
  /\ In 67%N (text (Block (lit "MARIO") (lit "Ciao")))
  /\ (67%N = NL
      \/ In 67%N (App._preclean_text
                    (join [NL] (map page_text [Some (lit "MARIO: *Ciao*")])))).
Proof.
  assert (H1 : In (Block (lit "MARIO") (lit "Ciao"))
                  (App.parse_script_from_pdf [Some (lit "MARIO: *Ciao*")]))
    by (vm_compute; auto).
  assert (H2 : In 67%N (text (Block (lit "MARIO") (lit "Ciao"))))
    by (vm_compute; auto).
  split; [exact H1 |]. split; [exact H2 |].
  exact (@parse_text_from_source _ _ _ H1 H2).
Defined.

Lemma heading_kept_witness :
  In (lit "Scena 1")
     (splitlines (App._preclean_text
        (join [NL] (map page_text [Some (lit "Scena 1"); Some (lit "MARIO: Ciao")]))))
  /\ has_ink (lit "Scena 1") = true
  /\ App._is_section_heading (strip (lit "Scena 1")) = true
  /\ exists b,
       In b (App.parse_script_from_pdf [Some (lit "Scena 1"); Some (lit "MARIO: Ciao")])
       /\ character b = SCENA /\ substring (strip (lit "Scena 1")) (text b).
Proof.
  assert (H1 : In (lit "Scena 1")
                  (splitlines (App._preclean_text
                     (join [NL] (map page_text
                        [Some (lit "Scena 1"); Some (lit "MARIO: Ciao")])))))
    by (vm_compute; auto).
  assert (H2 : has_ink (lit "Scena 1") = true) by reflexivity.
  assert (H3 : App._is_section_heading (strip (lit "Scena 1")) = true)
    by (vm_compute; reflexivity).
  repeat (split; [assumption |]).
  exact (@heading_kept _ _ H1 H2 H3).
Defined.

Lemma speech_kept_witness :
  In (lit "MARIO (piano): Ciao")
     (splitlines (App._preclean_text
        (join [NL] (map page_text [Some (lit "Scena 1"); Some (lit "MARIO (piano): Ciao")]))))
  /\ has_ink (lit "MARIO (piano): Ciao") = true
  /\ App._is_section_heading (strip (lit "MARIO (piano): Ciao")) = false
  /\ re_match false App.speaker_pat (strip (lit "MARIO (piano): Ciao"))
     = Some [("what"%string, lit "Ciao"); ("who"%string, lit "MARIO (piano)")]
  /\ exists b,
       In b (App.parse_script_from_pdf
               [Some (lit "Scena 1"); Some (lit "MARIO (piano): Ciao")])
       /\ character b = lit "MARIO" /\ substring (lit "Ciao") (text b).
Proof.
  assert (H1 : In (lit "MARIO (piano): Ciao")
                  (splitlines (App._preclean_text
                     (join [NL] (map page_text
                        [Some (lit "Scena 1"); Some (lit "MARIO (piano): Ciao")])))))
    by (vm_compute; auto).
  assert (H2 : has_ink (lit "MARIO (piano): Ciao") = true) by reflexivity.
  assert (H3 : App._is_section_heading (strip (lit "MARIO (piano): Ciao")) = false)
    by (vm_compute; reflexivity).
  assert (H4 : re_match false App.speaker_pat (strip (lit "MARIO (piano): Ciao"))
               = Some [("what"%string, lit "Ciao"); ("who"%string, lit "MARIO (piano)")])
    by (vm_compute; reflexivity).
  repeat (split; [assumption |]).
  refine (@speech_kept _ _ _ H1 H2 H3 H4 _ _); vm_compute; discriminate.
Defined.

Lemma preclean_colon_space_witness :
  App._preclean_text (lit "MARIO :Ciao") = lit "MARIO" ++ COLON :: lit " Ciao"
  /\ exists b', lit " Ciao" = SPACE :: b'.
Proof.
  assert (H : App._preclean_text (lit "MARIO :Ciao")
              = lit "MARIO" ++ COLON :: lit " Ciao")
    by (vm_compute; reflexivity).
  split; [exact H | exact (@preclean_colon_space _ _ _ H)].
Defined.

Lemma preclean_newlines_witness :
  guarded [lit "MARIO: _Ciao_"; lit "ANNA: Ehi"]
  /\ Forall (fun p => ~ In NL p) [lit "MARIO: _Ciao_"; lit "ANNA: Ehi"]
  /\ count_nl (App._preclean_text (join [NL] [lit "MARIO: _Ciao_"; lit "ANNA: Ehi"]))
     = count_nl (join [NL] [lit "MARIO: _Ciao_"; lit "ANNA: Ehi"])
  /\ ~ In COLON (lit "Ciao" ++ [NL] ++ lit "mondo")
  /\ ~ In USCORE (lit "Ciao" ++ [NL] ++ lit "mondo")
  /\ count_nl (App._preclean_text (lit "Ciao" ++ [NL] ++ lit "mondo"))
     = count_nl (lit "Ciao" ++ [NL] ++ lit "mondo").
Proof.
  assert (Hg : guarded [lit "MARIO: _Ciao_"; lit "ANNA: Ehi"]).
  { cbn [guarded]. repeat split; reflexivity. }
  assert (Hl : Forall (fun p => ~ In NL p) [lit "MARIO: _Ciao_"; lit "ANNA: Ehi"]).
  { repeat constructor; vm_compute; intros H;
      repeat (destruct H as [H | H]; [discriminate |]); exact H. }
  assert (Hc : ~ In COLON (lit "Ciao" ++ [NL] ++ lit "mondo")).
  { vm_compute. intros H. repeat (destruct H as [H | H]; [discriminate |]). exact H. }
  assert (Hu : ~ In USCORE (lit "Ciao" ++ [NL] ++ lit "mondo")).
  { vm_compute. intros H. repeat (destruct H as [H | H]; [discriminate |]). exact H. }
  split; [exact Hg |]. split; [exact Hl |]. split.
  - destruct (preclean_newlines (join [NL] [lit "MARIO: _Ciao_"; lit "ANNA: Ehi"]))
      as (_ & _ & _ & _ & _ & _ & _ & H & _).
    exact (H _ Hg eq_refl Hl).
  - split; [exact Hc |]. split; [exact Hu |].
  destruct (preclean_newlines (lit "Ciao" ++ [NL] ++ lit "mondo"))
    as (_ & _ & _ & _ & _ & H & _).
  exact (H Hc Hu).
Defined.
